(** * Verification of the hypsys DG evolution operator and the exNDH1 driver

    Two translation units are covered:

    - [miniapps/hypsys/lib/fe_evol.cpp]: the constructor guards of
      [FE_Evolution] and the normals it stores, the evaluation at
      quadrature points of elements and faces, the Lax-Friedrichs numerical
      flux and the convergence check (module [Hypsys]);
    - [examples/exNDH1.cpp]: the control flow of [main], read as the
      sequence of library calls it issues, and the exact solution with its
      gradient (module [ExNDH1]).

    The arithmetic of the code is on [double].  The embedding is written
    once over the scalar operations the code uses ([Scalar]); it runs on
    binary64 floats and is reasoned about on the real numbers, so the
    algebraic statements are about the code read without rounding. *)

From Stdlib Require Import ZArith String Ascii Bool List Lia.
From Stdlib Require Import Reals Lra.
From Stdlib Require PrimFloat Uint63.
Import ListNotations.

Set Implicit Arguments.

(** ** Scalars *)

(** The operations on [double] that the two files use. *)
Class Scalar (T : Type) : Type := {
  s_of_Z : Z -> T;            (* literals such as 0., 1., 2. *)
  s_half : T;                 (* the literal 0.5 *)
  s_add  : T -> T -> T;
  s_sub  : T -> T -> T;
  s_mul  : T -> T -> T;
  s_div  : T -> T -> T;
  s_ltb  : T -> T -> bool;    (* operator< *)
  s_sqrt : T -> T
}.

(** [std::max(a, b)] is [(a < b) ? b : a]. *)
Definition s_max {T} `{Scalar T} (a b : T) : T :=
  if s_ltb a b then b else a.

(** [pow(x, 2.)]. *)
Definition s_pow2 {T} `{Scalar T} (x : T) : T := s_mul x x.

Definition Rltb (x y : R) : bool := if Rlt_dec x y then true else false.

#[export] Instance Scalar_R : Scalar R := {
  s_of_Z := IZR;
  s_half := (1 / 2)%R;
  s_add  := Rplus;
  s_sub  := Rminus;
  s_mul  := Rmult;
  s_div  := Rdiv;
  s_ltb  := Rltb;
  s_sqrt := R_sqrt.sqrt
}.

#[export] Instance Scalar_float : Scalar PrimFloat.float := {
  s_of_Z := fun z => match z with
                     | Z0 => PrimFloat.zero
                     | Zpos _ => PrimFloat.of_uint63 (Uint63.of_Z z)
                     | Zneg _ => PrimFloat.opp (PrimFloat.of_uint63 (Uint63.of_Z (- z)))
                     end;
  s_half := PrimFloat.div PrimFloat.one PrimFloat.two;
  s_add  := PrimFloat.add;
  s_sub  := PrimFloat.sub;
  s_mul  := PrimFloat.mul;
  s_div  := PrimFloat.div;
  s_ltb  := PrimFloat.ltb;
  s_sqrt := PrimFloat.sqrt
}.

(** ** Library failures *)

(** Library calls that check their arguments ([MFEM_ASSERT] on sizes and
    indices) yield [None] when the check fails. *)
Definition bind {A B} (m : option A) (f : A -> option B) : option B :=
  match m with
  | Some a => f a
  | None => None
  end.

Notation "x <- m ;; k" := (bind m (fun x => k))
  (at level 61, m at next level, right associativity).

(** * The DG evolution operator ([fe_evol.cpp]) *)

Module Hypsys.

(** ** C strings *)

(** A [const char*] is read as a [string] that ends at its end or at the
    first NUL character, whichever comes first. *)
Definition c_char (s : string) : Z :=
  match s with
  | EmptyString => 0
  | String c _ => Z.of_nat (nat_of_ascii c)
  end.

Definition c_next (s : string) : string :=
  match s with
  | EmptyString => EmptyString
  | String _ s' => s'
  end.

(** [strncmp(s1, s2, n)]: compares at most [n] characters as unsigned
    chars and stops after a NUL; zero means equal. *)
Fixpoint strncmp (s1 s2 : string) (n : nat) : Z :=
  match n with
  | O => 0
  | S n' =>
      let c1 := c_char s1 in
      let c2 := c_char s2 in
      if negb (c1 =? c2)%Z then (c1 - c2)%Z
      else if (c1 =? 0)%Z then 0%Z
      else strncmp (c_next s1) (c_next s2) n'
  end.

(** A condition [if (strncmp(...))] is taken when the result is not 0. *)
Definition c_true (r : Z) : bool := negb (r =? 0)%Z.

(** No NUL among the characters of a literal. *)
Fixpoint nul_free (s : string) : bool :=
  match s with
  | EmptyString => true
  | String c s' => negb (c_char s =? 0)%Z && nul_free s'
  end.

(** ** Construction results *)

(** [MFEM_ABORT(msg)] ends the program; the constructor then yields no
    object. *)
Inductive Construction (A : Type) : Type :=
| Aborted (msg : string)
| Constructed (obj : A).

Arguments Aborted {A} msg.
Arguments Constructed {A} obj.

Section Evolution.

Context {T : Type} `{ST : Scalar T}.

(** ** Vectors and dense matrices of the library *)

(** [mfem::Vector]: its size is the length of the list. *)
Definition Vector : Type := list T.

(** [mfem::DenseMatrix] as its list of rows; the height is the number of
    rows and every row has the width of the matrix. *)
Definition DenseMatrix : Type := list (list T).

Definition zero : T := s_of_Z 0.

Fixpoint map2 (f : T -> T -> T) (x y : list T) : list T :=
  match x, y with
  | a :: x', b :: y' => f a b :: map2 f x' y'
  | _, _ => []
  end.

(** The vector and matrix kernels of the library are not among the
    sources.  Each is given the meaning that the spec's formula
    [0.5*(F1+F2).n + 0.5*ws*(u1-u2)] has for it, and fails on operands
    whose sizes do not agree, as the size checks of the library do. *)

(** Modelled from the spec: the constructor [Vector(n)] of the library, a
    vector of [n] entries; the entries are written before they are read. *)
Definition Vector_new (n : nat) : Vector := repeat zero n.

(** Modelled from the spec: [Vector::operator+=] of the library, the
    entry-wise sum. *)
Definition Vector_add_assign (y v : Vector) : option Vector :=
  if (length y =? length v)%nat then Some (map2 s_add y v) else None.

(** Modelled from the spec: [Vector::operator-=] of the library, the
    entry-wise difference. *)
Definition Vector_sub_assign (y v : Vector) : option Vector :=
  if (length y =? length v)%nat then Some (map2 s_sub y v) else None.

(** Modelled from the spec: [Vector::operator*=] of the library, the
    product of every entry with a number. *)
Definition Vector_scale_assign (y : Vector) (c : T) : Vector :=
  map (fun yi => s_mul yi c) y.

(** Modelled from the spec: [subtract(a, x, y, z)] of the library, which
    stores [a * (x - y)] in [z]. *)
Definition subtract (a : T) (x y z : Vector) : option Vector :=
  if ((length x =? length y) && (length x =? length z))%nat
  then Some (map2 (fun xi yi => s_mul a (s_sub xi yi)) x y)
  else None.

(** Modelled from the spec: [Vector::Norml2] of the library, the Euclidean
    norm. *)
Definition Norml2 (v : Vector) : T :=
  s_sqrt (fold_left (fun acc vi => s_add acc (s_mul vi vi)) v zero).

(** Modelled from the spec: the entry [v(i)] of a library vector; the
    index is checked. *)
Definition Vector_at (v : Vector) (i : nat) : option T := nth_error v i.

Definition row_add_assign (r m : list T) : option (list T) :=
  if (length r =? length m)%nat then Some (map2 s_add r m) else None.

(** Modelled from the spec: [DenseMatrix::operator+=] of the library, the
    entry-wise sum of two matrices of one size. *)
Fixpoint DenseMatrix_add_assign (A M : DenseMatrix) : option DenseMatrix :=
  match A, M with
  | [], [] => Some []
  | r :: A', m :: M' =>
      r' <- row_add_assign r m ;;
      A'' <- DenseMatrix_add_assign A' M' ;;
      Some (r' :: A'')
  | _, _ => None
  end.

(** One entry of a matrix-vector product: [A(i,j) * x(j)] added up over
    the columns [j], first to last. *)
Fixpoint row_dot (acc : T) (r x : list T) : T :=
  match r, x with
  | a :: r', b :: x' => row_dot (s_add acc (s_mul b a)) r' x'
  | _, _ => acc
  end.

(** Modelled from the spec: [DenseMatrix::Mult(x, y)] of the library,
    [y = A x]; the height must be the size of [y] and the width the size
    of [x]. *)
Definition DenseMatrix_Mult (A : DenseMatrix) (x y : Vector) : option Vector :=
  if ((length A =? length y)%nat
      && forallb (fun r => (length r =? length x)%nat) A)%bool
  then Some (map (fun r => row_dot zero r x) A)
  else None.

(** ** The hyperbolic system *)

(** [HyperbolicSystem] is an abstract class; its virtual methods are
    fields.  [EvaluateFlux(u, F, e, k, i)] fills the matrix [F] and is read
    as returning it. *)
Record HyperbolicSystem : Type := {
  NumEq : nat;
  SteadyState : bool;
  TimeDepBC : bool;
  EvaluateFlux : Vector -> Z -> Z -> Z -> DenseMatrix;
  GetWaveSpeed : Vector -> Vector -> Z -> Z -> Z -> T
}.

(** ** The evolution operator *)

(** The members of [FE_Evolution] that the methods below read or write.
    [MassMat] is the consistent mass matrix; its [Mult(x, y)] is a member
    of another class and is taken as it is. *)
Record FE_Evolution : Type := {
  hyp : HyperbolicSystem;
  dim : nat;
  nd : nat;
  ne : nat;
  z : Vector;
  uOld : Vector;
  MassMat : Vector -> Vector -> option Vector;
  LumpedMassMat : Vector;
  Flux : DenseMatrix;
  FluxNbr : DenseMatrix
}.

Definition set_Flux (fe : FE_Evolution) (F Fn : DenseMatrix) : FE_Evolution :=
  {| hyp := hyp fe; dim := dim fe; nd := nd fe; ne := ne fe;
     z := z fe; uOld := uOld fe; MassMat := MassMat fe;
     LumpedMassMat := LumpedMassMat fe; Flux := F; FluxNbr := Fn |}.

Definition set_z_uOld (fe : FE_Evolution) (z' uOld' : Vector) : FE_Evolution :=
  {| hyp := hyp fe; dim := dim fe; nd := nd fe; ne := ne fe;
     z := z'; uOld := uOld'; MassMat := MassMat fe;
     LumpedMassMat := LumpedMassMat fe; Flux := Flux fe;
     FluxNbr := FluxNbr fe |}.

(** *** [FE_Evolution::LaxFriedrichs] *)

(** The numerical flux is written to [y]; [Flux] and [FluxNbr] are
    members and keep what the call leaves in them. *)
Definition LaxFriedrichs (fe : FE_Evolution) (x1 x2 normal y : Vector)
    (e k i : Z) : option (Vector * FE_Evolution) :=
  let Flux1 := EvaluateFlux (hyp fe) x1 e k i in
  let FluxNbr1 := EvaluateFlux (hyp fe) x2 e k i in
  Flux2 <- DenseMatrix_add_assign Flux1 FluxNbr1 ;;
  let ws := s_max (GetWaveSpeed (hyp fe) x1 normal e k i)
                  (GetWaveSpeed (hyp fe) x2 normal e k i) in
  y1 <- DenseMatrix_Mult Flux2 normal y ;;
  let diff := Vector_new (length y1) in
  diff1 <- subtract ws x1 x2 diff ;;
  y2 <- Vector_add_assign y1 diff1 ;;
  let y3 := Vector_scale_assign y2 s_half in
  Some (y3, set_Flux fe Flux2 FluxNbr1).

(** *** [FE_Evolution::ConvergenceCheck] *)

(** The loop [for (i = 0; i < u.Size(); i++) res += pow(L(i) * z(i), 2.)],
    with [n] iterations left from index [i]. *)
Fixpoint lumped_sum (L zv : Vector) (n i : nat) (res : T) : option T :=
  match n with
  | O => Some res
  | S n' =>
      Li <- Vector_at L i ;;
      zi <- Vector_at zv i ;;
      lumped_sum L zv n' (S i) (s_add res (s_pow2 (s_mul Li zi)))
  end.

Definition ConvergenceCheck (fe : FE_Evolution) (dt tol : T) (u : Vector)
    : option (T * FE_Evolution) :=
  let z0 := u in
  z1 <- Vector_sub_assign z0 (uOld fe) ;;
  res <- (if negb (SteadyState (hyp fe))
          then (uOld1 <- MassMat fe z1 (uOld fe) ;;
                Some (s_div (Norml2 uOld1) dt))
          else (r <- lumped_sum (LumpedMassMat fe) z1 (length u) 0 zero ;;
                Some (s_div (s_sqrt r) dt))) ;;
  Some (res, set_z_uOld fe z1 u).

(** *** [FE_Evolution::FE_Evolution] *)

(** What the constructor asks of the finite element space and of its mesh.
    [bdr_Elem1No i] is [Elem1No] of the face transformations of the [i]-th
    boundary of element 0; [MassMatrixDG_Mult] and [LumpedDiag] are the
    mass matrices the library assembles on the space. *)
Record FiniteElementSpace : Type := {
  FEColl_Name : string;
  GetVSize : nat;
  mesh_Dimension : nat;
  mesh_GetNE : nat;
  fe0_GetDof : nat;
  bdr_Elem1No : nat -> Z;
  MassMatrixDG_Mult : Vector -> Vector -> option Vector;
  LumpedDiag : nat -> Vector
}.

Record DofInfo : Type := {
  NumBdrs : nat;
  NumFaceDofs : nat
}.

(** The loop over the boundaries of element 0 aborts at the first one
    whose [Elem1No] is not 0. *)
Definition first_element_inward (fes : FiniteElementSpace) (dofs : DofInfo)
    : bool :=
  existsb (fun i => negb (bdr_Elem1No fes i =? 0)%Z) (seq 0 (NumBdrs dofs)).

(** The two guards on the name of the collection come first; the tables
    of shape functions and quadrature data that the constructor fills
    afterwards are read by none of the methods above and are left out.
    [uOld] is default-constructed, hence empty. *)
Definition FE_Evolution_ctor (fes : FiniteElementSpace)
    (hyp_ : HyperbolicSystem) (dofs : DofInfo) : Construction FE_Evolution :=
  let fecol := FEColl_Name fes in
  if c_true (strncmp fecol "L2" 2)
  then Aborted "FiniteElementSpace must be L2 conforming (DG)."
  else if c_true (strncmp fecol "L2_T2" 5)
  then Aborted "Shape functions must be represented in Bernstein basis."
  else if first_element_inward fes dofs
  then Aborted "First element has inward pointing normal."
  else Constructed
    {| hyp := hyp_;
       dim := mesh_Dimension fes;
       nd := fe0_GetDof fes;
       ne := mesh_GetNE fes;
       z := Vector_new (GetVSize fes);
       uOld := [];
       MassMat := MassMatrixDG_Mult fes;
       LumpedMassMat := LumpedDiag fes (NumEq hyp_);
       Flux := repeat (repeat zero (mesh_Dimension fes)) (NumEq hyp_);
       FluxNbr := repeat (repeat zero (mesh_Dimension fes)) (NumEq hyp_) |}.

End Evolution.

(** ** The Lax-Friedrichs flux as the spec writes it *)

(** The formula [0.5*(F1+F2).n + 0.5*ws*(u1-u2)] on the real numbers,
    entry by entry. *)
Section Formula.

Local Open Scope R_scope.

Definition vec_at (v : list R) (n : nat) : R := nth n v 0.

Definition mat_at (A : list (list R)) (n l : nat) : R := nth l (nth n A []) 0.

(** The sum of [f 0], ..., [f (m - 1)]. *)
Fixpoint Rsum (m : nat) (f : nat -> R) : R :=
  match m with
  | O => 0
  | S m' => Rsum m' f + f m'
  end.

(** Entry [n] of the product of [F] with the vector [normal]. *)
Definition flux_dot_normal (F : list (list R)) (normal : list R) (n : nat) : R :=
  Rsum (length normal) (fun l => mat_at F n l * vec_at normal l).

Definition LaxFriedrichs_spec (F1 F2 : list (list R)) (ws : R)
    (normal x1 x2 : list R) (n : nat) : R :=
  0.5 * Rsum (length normal)
          (fun l => (mat_at F1 n l + mat_at F2 n l) * vec_at normal l)
  + 0.5 * ws * (vec_at x1 n - vec_at x2 n).

End Formula.

(** ** Sizes *)

(** A matrix of [h] rows and [w] columns. *)
Definition has_size {T} (h w : nat) (A : list (list T)) : bool :=
  ((length A =? h) && forallb (fun r => length r =? w) A)%nat.

(** The sizes the constructor gives to the members and that the callers
    give to the arguments of [LaxFriedrichs]: the fluxes are [NumEq] by
    [dim], the normal has [dim] entries, the states and the result have
    [NumEq]. *)
Definition conformal {T} (fe : FE_Evolution (T := T))
    (x1 x2 normal y : list T) (e k i : Z) : bool :=
  (has_size (NumEq (hyp fe)) (dim fe) (EvaluateFlux (hyp fe) x1 e k i)
   && has_size (NumEq (hyp fe)) (dim fe) (EvaluateFlux (hyp fe) x2 e k i)
   && (length normal =? dim fe)
   && (length x1 =? NumEq (hyp fe))
   && (length x2 =? NumEq (hyp fe))
   && (length y =? NumEq (hyp fe)))%nat.

(** The calls of [ConvergenceCheck] on which every library check passes:
    [u] has the size of [uOld], and then either the mass matrix accepts the
    difference or the lumped mass matrix has an entry for every index. *)
Definition checkable {T} `{Scalar T} (fe : FE_Evolution (T := T))
    (u : list T) : bool :=
  match Vector_sub_assign u (uOld fe) with
  | None => false
  | Some z1 =>
      if negb (SteadyState (hyp fe))
      then match MassMat fe z1 (uOld fe) with Some _ => true | None => false end
      else (length u <=? length (LumpedMassMat fe))%nat
  end.

(** ** Sample data *)

Section Samples.

Context {T : Type} `{ST : Scalar T}.

Definition num (n : Z) : T := s_of_Z n.

(** A system of two equations in two space dimensions with the flux
    [F(u) = diag(u0, u1)] and the wave speed [u0]. *)
Definition sample_hyp (steady : bool) : HyperbolicSystem (T := T) :=
  {| NumEq := 2;
     SteadyState := steady;
     TimeDepBC := false;
     EvaluateFlux := fun u _ _ _ =>
       [[nth 0 u zero; zero]; [zero; nth 1 u zero]];
     GetWaveSpeed := fun u _ _ _ _ => nth 0 u zero |}.

Definition sample_fes (name : string) : FiniteElementSpace (T := T) :=
  {| FEColl_Name := name;
     GetVSize := 2;
     mesh_Dimension := 2;
     mesh_GetNE := 1;
     fe0_GetDof := 1;
     bdr_Elem1No := fun _ => 0%Z;
     MassMatrixDG_Mult := fun x _ => Some x;
     LumpedDiag := fun n => repeat (num 1) n |}.

Definition sample_dofs : DofInfo := {| NumBdrs := 4; NumFaceDofs := 1 |}.

(** An operator on that system whose last state is [(1, 2)]; its mass
    matrices are the identity. *)
Definition sample_fe (steady : bool) : FE_Evolution (T := T) :=
  {| hyp := sample_hyp steady;
     dim := 2; nd := 1; ne := 1;
     z := [zero; zero];
     uOld := [num 1; num 2];
     MassMat := fun x _ => Some x;
     LumpedMassMat := [num 1; num 1];
     Flux := [[zero; zero]; [zero; zero]];
     FluxNbr := [[zero; zero]; [zero; zero]] |}.

End Samples.

(** ** Evaluation at quadrature points *)

Section Evaluation.

Context {T : Type} `{ST : Scalar T}.

Local Abbreviation VectorT := (Vector (T := T)).

(** [v = 0.]: every entry becomes zero, the size stays. *)
Definition Vector_fill_zero (v : VectorT) : VectorT :=
  map (fun _ => zero) v.

(** An entry of a list at an [int] index; the index is checked. *)
Definition at_int {A : Type} (l : list A) (i : Z) : option A :=
  if (i <? 0)%Z then None else nth_error l (Z.to_nat i).

Fixpoint list_set {A : Type} (l : list A) (n : nat) (a : A)
    : option (list A) :=
  match l, n with
  | [], _ => None
  | _ :: l', O => Some (a :: l')
  | b :: l', S n' =>
      match list_set l' n' a with
      | Some l'' => Some (b :: l'')
      | None => None
      end
  end.

(** [v(i) += a]. *)
Definition Vector_add_at (v : VectorT) (i : Z) (a : T)
    : option VectorT :=
  cur <- at_int v i ;;
  list_set v (Z.to_nat i) (s_add cur a).

(** Entry [A(r, c)] of a matrix and entry [A(a, b, c)] of a tensor, kept
    as nested lists in the order of the indices. *)
Definition at_int2 {A : Type} (M : list (list A)) (r c : Z) : option A :=
  row <- at_int M r ;; at_int row c.

Definition at_int3 {A : Type} (M : list (list (list A))) (a b c : Z)
    : option A :=
  plane <- at_int M a ;; at_int2 plane b c.

(** The loop [for (n = start; n < start + count; n++) body], threading a
    state and stopping at the first failure. *)
Fixpoint for_loop {St : Type} (count start : nat)
    (body : nat -> St -> option St) (s : St) : option St :=
  match count with
  | O => Some s
  | S count' =>
      match body start s with
      | Some s' => for_loop count' (S start) body s'
      | None => None
      end
  end.

(** The members of [FE_Evolution] and of [DofInfo] that the evaluation
    routines read besides those above.  [ShapeEval(j, k)] is shape function
    [j] at quadrature point [k]; [ShapeEvalFace(i, j, k)] is face dof [j] of
    boundary [i] at point [k]; [NbrDofs(i, j, e)] and [BdrDofs(j, i)] hold
    dof numbers, read as the [int]s the code converts them to, a negative
    neighbour standing for a boundary.  [nbr] is the member of that name,
    which keeps the last neighbour read.  [SetBdrCond] is a virtual method
    of the hyperbolic system; it may write to both vectors. *)
Record Tables : Type := {
  ShapeEval : DenseMatrix (T := T);
  ShapeEvalFace : list (list (list T));
  NbrDofs : list (list (list Z));
  BdrDofs : list (list Z);
  inflow : VectorT;
  xSizeMPI : Z;
  nbr : Z;
  SetBdrCond : VectorT -> VectorT -> VectorT -> Z
               -> VectorT * VectorT
}.

(** *** [FE_Evolution::ElemEval] *)

Definition ElemEval_body (fe : FE_Evolution (T := T)) (tb : Tables)
    (uElem : VectorT) (k : Z) (n j : nat) (uEval : VectorT)
    : option VectorT :=
  a <- at_int uElem (Z.of_nat n * Z.of_nat (nd fe) + Z.of_nat j)%Z ;;
  w <- at_int2 (ShapeEval tb) (Z.of_nat j) k ;;
  Vector_add_at uEval (Z.of_nat n) (s_mul a w).

Definition ElemEval (fe : FE_Evolution (T := T)) (tb : Tables)
    (uElem uEval : VectorT) (k : Z) : option VectorT :=
  for_loop (NumEq (hyp fe)) 0
    (fun n uE => for_loop (nd fe) 0 (ElemEval_body fe tb uElem k n) uE)
    (Vector_fill_zero uEval).

(** *** [FE_Evolution::FaceEval] *)

(** The index expressions of [FaceEval] are computed on [int], of 32 bits:
    every operation gives the exact result reduced to 32 bits in two's
    complement, which is what the compiled code does where the exact
    result does not fit. *)
Definition INT_MAX : Z := 2147483647.

Definition int_wrap (v : Z) : Z :=
  ((v + 2147483648) mod 4294967296 - 2147483648)%Z.

Definition int_add (a b : Z) : Z := int_wrap (a + b).
Definition int_sub (a b : Z) : Z := int_wrap (a - b).
Definition int_mul (a b : Z) : Z := int_wrap (a * b).

(** [a / b] and [a % b] of C: the quotient is rounded towards zero. *)
Definition int_div (a b : Z) : Z := int_wrap (Z.quot a b).
Definition int_rem (a b : Z) : Z := int_wrap (Z.rem a b).

(** [DofInd = n * ne * nd + e * nd + dofs.BdrDofs(j,i)]. *)
Definition DofInd_of (fe : FE_Evolution (T := T)) (n e b : Z) : Z :=
  int_add
    (int_add (int_mul (int_mul n (Z.of_nat (ne fe))) (Z.of_nat (nd fe)))
             (int_mul e (Z.of_nat (nd fe))))
    b.

(** The place in [x] of a neighbour owned by this task:
    [n * ne * nd + nbr]. *)
Definition NbrInd_of (fe : FE_Evolution (T := T)) (n nb : Z) : Z :=
  int_add (int_mul (int_mul n (Z.of_nat (ne fe))) (Z.of_nat (nd fe))) nb.

(** The place in [xMPI] of a neighbour owned by another task:
    [int((nbr - xSizeMPI) / nd) * nd * NumEq + n * nd
     + (nbr - xSizeMPI) % nd]. *)
Definition xMPI_index (fe : FE_Evolution (T := T)) (size_MPI n nb : Z) : Z :=
  int_add
    (int_add
       (int_mul
          (int_mul (int_div (int_sub nb size_MPI) (Z.of_nat (nd fe)))
                   (Z.of_nat (nd fe)))
          (Z.of_nat (NumEq (hyp fe))))
       (int_mul n (Z.of_nat (nd fe))))
    (int_rem (int_sub nb size_MPI) (Z.of_nat (nd fe))).

(** The value on the other side of the face.  The index into [xMPI]
    divides by [nd]: with [nd = 0] the call does not return. *)
Definition uNbr_of (fe : FE_Evolution (T := T)) (tb : Tables)
    (x xMPI : VectorT) (n nb DofInd : Z) : option T :=
  if (nb <? 0)%Z then at_int (inflow tb) DofInd
  else if (nb <? xSizeMPI tb)%Z
       then at_int x (NbrInd_of fe n nb)
       else if (nd fe =? 0)%nat then None
            else at_int xMPI (xMPI_index fe (xSizeMPI tb) n nb).

(** One pass of the inner loop; the state is [y1], [y2] and [nbr]. *)
Definition FaceEval_body (fe : FE_Evolution (T := T)) (tb : Tables)
    (x xMPI : VectorT) (e i k : Z) (n j : nat)
    (st : VectorT * VectorT * Z)
    : option (VectorT * VectorT * Z) :=
  let '(y1, y2, _) := st in
  nb <- at_int3 (NbrDofs tb) i (Z.of_nat j) e ;;
  b <- at_int2 (BdrDofs tb) (Z.of_nat j) i ;;
  let DofInd := DofInd_of fe (Z.of_nat n) e b in
  uNbr <- uNbr_of fe tb x xMPI (Z.of_nat n) nb DofInd ;;
  xd <- at_int x DofInd ;;
  w <- at_int3 (ShapeEvalFace tb) i (Z.of_nat j) k ;;
  y1' <- Vector_add_at y1 (Z.of_nat n) (s_mul xd w) ;;
  y2' <- Vector_add_at y2 (Z.of_nat n) (s_mul uNbr w) ;;
  Some (y1', y2', nb).

(** The two loops.  [y1 = y2 = 0.] sets [y2] to zero and copies it to
    [y1], which takes the size of [y2]. *)
Definition FaceEval_loops (fe : FE_Evolution (T := T)) (dofs : DofInfo)
    (tb : Tables) (x y1 y2 xMPI : VectorT) (e i k : Z)
    : option (VectorT * VectorT * Z) :=
  let y2_0 := Vector_fill_zero y2 in
  let y1_0 := y2_0 in
  for_loop (NumEq (hyp fe)) 0
    (fun n st =>
       for_loop (NumFaceDofs dofs) 0 (FaceEval_body fe tb x xMPI e i k n) st)
    (y1_0, y2_0, nbr tb).

(** After the loops the boundary condition is applied when the last
    neighbour read is negative. *)
Definition FaceEval (fe : FE_Evolution (T := T)) (dofs : DofInfo)
    (tb : Tables) (x y1 y2 xMPI normal : VectorT) (e i k : Z)
    : option (VectorT * VectorT * Z) :=
  st <- FaceEval_loops fe dofs tb x y1 y2 xMPI e i k ;;
  let '(y1', y2', nb) := st in
  if (nb <? 0)%Z
  then let '(a, b) := SetBdrCond tb y1' y2' normal nb in Some (a, b, nb)
  else Some (y1', y2', nb).

(** *** The outer unit normals *)

(** [nor /= c]: every entry is multiplied by [1.0 / c]. *)
Definition Vector_div_assign (v : VectorT) (c : T) : VectorT :=
  map (fun vi => s_mul vi (s_div (s_of_Z 1) c)) v.

(** The normal that the constructor stores for one quadrature point of
    one boundary of element [e].  In one dimension it is
    [2 * aux.x - 1] for the reference coordinate [aux.x] of the point, in
    more dimensions what the library's [CalcOrtho] returns ([ortho]); it is
    turned around when the face belongs first to another element, and
    divided by its norm. *)
Definition outer_unit_normal (dim_ : nat) (aux_x : T) (ortho : VectorT)
    (Elem1No e : Z) : VectorT :=
  let nor := if (dim_ =? 1)%nat
             then [s_sub (s_mul (s_of_Z 2) aux_x) (s_of_Z 1)]
             else ortho in
  let nor := if negb (Elem1No =? e)%Z
             then Vector_scale_assign nor (s_of_Z (-1))
             else nor in
  Vector_div_assign nor (Norml2 nor).

End Evaluation.

(** The sum of the squares of the entries of a real vector. *)
Fixpoint sum_sq (v : list R) : R :=
  match v with
  | [] => 0%R
  | a :: v' => (a * a + sum_sq v')%R
  end.

(** The sizes [ElemEval] needs: an entry of [uEval] for every equation, an
    entry of [uElem] for every equation and dof, and a row of [ShapeEval]
    with a column [k] for every dof. *)
Definition ElemEval_sizes {T} (fe : FE_Evolution (T := T))
    (tb : Tables (T := T)) (uElem uEval : list T) (k : Z) : bool :=
  ((length uEval =? NumEq (hyp fe))%nat
   && (NumEq (hyp fe) * nd fe <=? length uElem)%nat
   && (nd fe <=? length (ShapeEval tb))%nat
   && (0 <=? k)%Z
   && forallb (fun r => (Z.to_nat k <? length r)%nat) (ShapeEval tb))%bool.

(** Shape function [j] at quadrature point [k], zero outside the table. *)
Definition shape_at (tb : Tables (T := R)) (j : nat) (k : Z) : R :=
  nth (Z.to_nat k) (nth j (ShapeEval tb) []) 0%R.

(** The contribution of dof [j] to equation [n] in [ElemEval]. *)
Definition ElemEval_term (fe : FE_Evolution (T := R)) (tb : Tables (T := R))
    (uElem : list R) (k : Z) (n j : nat) : R :=
  (nth (n * nd fe + j) uElem 0 * shape_at tb j k)%R.

(** The same tables with other inflow values. *)
Definition with_inflow {T} (tb : Tables (T := T)) (v : list T)
    : Tables (T := T) :=
  {| ShapeEval := ShapeEval tb; ShapeEvalFace := ShapeEvalFace tb;
     NbrDofs := NbrDofs tb; BdrDofs := BdrDofs tb; inflow := v;
     xSizeMPI := xSizeMPI tb; nbr := nbr tb; SetBdrCond := SetBdrCond tb |}.

(** The same tables with another value left in the member [nbr] by an
    earlier call. *)
Definition with_nbr {T} (tb : Tables (T := T)) (v : Z) : Tables (T := T) :=
  {| ShapeEval := ShapeEval tb; ShapeEvalFace := ShapeEvalFace tb;
     NbrDofs := NbrDofs tb; BdrDofs := BdrDofs tb; inflow := inflow tb;
     xSizeMPI := xSizeMPI tb; nbr := v; SetBdrCond := SetBdrCond tb |}.

(** ** Further sample data *)

Section MoreSamples.

Context {T : Type} `{ST : Scalar T}.

(** A Bernstein DG space on a mesh whose boundary 2 of element 0 belongs
    first to element 5. *)
Definition sample_fes_inward : FiniteElementSpace (T := T) :=
  {| FEColl_Name := "L2_T2_2D_P1";
     GetVSize := 2;
     mesh_Dimension := 2;
     mesh_GetNE := 6;
     fe0_GetDof := 1;
     bdr_Elem1No := fun i => if (i =? 2)%nat then 5%Z else 0%Z;
     MassMatrixDG_Mult := fun x _ => Some x;
     LumpedDiag := fun n => repeat (num 1) n |}.

(** Two elements with two dofs each and one equation.  Shape functions
    at two quadrature points: [(1, 0)] and [(1/2, 1/2)].  Each element has
    two boundaries with one face dof: boundary 0 carries dof 0, boundary 1
    carries dof 1.  Element 0 has the domain boundary (attribute -1) on
    its boundary 0 and dof 2 of element 1 across its boundary 1; element 1
    has dof 1 of element 0 across its boundary 0 and a dof of another task
    (number 4, the first beyond [xSizeMPI]) across its boundary 1. *)
Definition sample_fe_1D : FE_Evolution (T := T) :=
  {| hyp := {| NumEq := 1; SteadyState := true; TimeDepBC := false;
               EvaluateFlux := fun u _ _ _ => [[nth 0 u zero]];
               GetWaveSpeed := fun _ _ _ _ _ => num 1 |};
     dim := 1; nd := 2; ne := 2;
     z := [zero; zero; zero; zero];
     uOld := [zero; zero; zero; zero];
     MassMat := fun x _ => Some x;
     LumpedMassMat := [num 1; num 1; num 1; num 1];
     Flux := [[zero]];
     FluxNbr := [[zero]] |}.

Definition sample_dofs_1D : DofInfo := {| NumBdrs := 2; NumFaceDofs := 1 |}.

(** Two equations on 65536 elements of 65536 dofs: more entries than an
    [int] counts. *)
Definition sample_fe_large : FE_Evolution (T := T) :=
  {| hyp := {| NumEq := 2; SteadyState := true; TimeDepBC := false;
               EvaluateFlux := fun u _ _ _ => [[nth 0 u zero]];
               GetWaveSpeed := fun _ _ _ _ _ => num 1 |};
     dim := 1; nd := Z.to_nat 65536; ne := Z.to_nat 65536;
     z := [];
     uOld := [];
     MassMat := fun x _ => Some x;
     LumpedMassMat := [];
     Flux := [[zero]];
     FluxNbr := [[zero]] |}.

Definition sample_tables : Tables (T := T) :=
  {| ShapeEval := [[num 1; s_half]; [num 0; s_half]];
     ShapeEvalFace := [[[num 1]]; [[num 1]]];
     NbrDofs := [[[(-1)%Z; 1%Z]]; [[2%Z; 4%Z]]];
     BdrDofs := [[0%Z; 1%Z]];
     inflow := [num 7; num 7; num 7; num 7];
     xSizeMPI := 4;
     nbr := 0;
     SetBdrCond := fun y1 y2 _ _ => (y1, y2) |}.

(** A face with two face dofs, the first on the domain boundary and the
    second facing dof 1; the boundary condition of this sample replaces
    the outer values by 100. *)
Definition sample_dofs_mixed : DofInfo := {| NumBdrs := 1; NumFaceDofs := 2 |}.

Definition sample_tables_mixed : Tables (T := T) :=
  {| ShapeEval := [[num 1]; [num 0]];
     ShapeEvalFace := [[[num 1]; [num 1]]];
     NbrDofs := [[[(-1)%Z]; [1%Z]]];
     BdrDofs := [[0%Z]; [1%Z]];
     inflow := [num 7; num 7; num 7; num 7];
     xSizeMPI := 4;
     nbr := 0;
     SetBdrCond := fun y1 y2 _ _ => (y1, map (fun _ => num 100) y2) |}.

End MoreSamples.

End Hypsys.

(** * The driver ([exNDH1.cpp]) *)

Module ExNDH1.

(** ** Library calls *)

(** The objects [main] creates, by the name of the variable. *)
Inductive Space : Type := ND | H1.
Inductive Form : Type := form_a | form_a_NDH1.
Inductive GridFn : Type := gf_x | gf_p | gf_diag_pa | gf_rhs.
Inductive Vec : Type := vec_B | vec_X | vec_P | vec_tdiag_pa.
Inductive Matrix : Type := mat_NDH1 | mat_Amat.
Inductive Coef : Type := coef_p | coef_gradp | coef_muinv | coef_sigma.
Inductive Solver : Type := cg | pcg.
Inductive Heap : Type :=
| heap_a | heap_a_NDH1 | heap_sigma | heap_muinv | heap_fespace
| heap_H1fespace | heap_fec | heap_H1fec | heap_pmesh.

(** The target and the flags of one [args.AddOption] call. *)
Inductive OptTarget : Type :=
| opt_mesh_file | opt_order | opt_static_cond | opt_pa | opt_visualization.

Record CmdOption : Type := {
  target : OptTarget;
  short_name : string;
  long_name : string;
  disable_names : option (string * string);
  description : string
}.

(** One constructor per call that [main] makes into MPI, the library or
    the standard streams. *)
Inductive Event : Type :=
| MPI_Init | MPI_Comm_size | MPI_Comm_rank | MPI_Finalize
| OptionsParser_new
| AddOption (o : CmdOption)
| Parse | PrintUsage | PrintOptions
| Mesh_new (file : string)
| Mesh_UniformRefinement
| ParMesh_new
| Mesh_delete
| ParMesh_UniformRefinement
| ReorientTetMesh
| FECollection_new (s : Space) (order dim : Z)
| ParFiniteElementSpace_new (s : Space)
| GlobalTrueVSize
| cout_unknowns
| ParGridFunction_new (g : GridFn) (s : Space)
| Coefficient_new (c : Coef)
| ProjectCoefficient (g : GridFn) (c : Coef)
| Form_new (f : Form)
| SetAssemblyLevel_PARTIAL (f : Form)
| AddDomainIntegrator (f : Form) (c : Coef)
| EnableStaticCondensation
| Assemble (f : Form)
| Finalize (f : Form)
| Vector_new (v : Vec)
| Form_Mult (f : Form) (src dst : GridFn)
| GetTrueDofs (g : GridFn) (v : Vec)
| ParallelAssemble (f : Form) (m : Matrix)
| Matrix_Mult (m : Matrix) (src dst : Vec)
| Matrix_delete (m : Matrix)
| GridFn_fill_zero (g : GridFn)
| AssembleDiagonal (g : GridFn)
| OperatorJacobiSmoother_new
| Solver_new (s : Solver)
| Solver_set (s : Solver) (setting : string)
| GridFn_assign (dst src : GridFn)
| CG_Mult (src dst : GridFn)
| PCG_Mult (src dst : Vec)
| Solver_delete (s : Solver)
| SetFromTrueDofs (g : GridFn) (v : Vec)
| ComputeL2Error (g : GridFn) (c : Coef)
| cout_error
| ofstream_open (name : string)
| ofstream_precision (name : string) (p : Z)
| pmesh_Print (name : string)
| x_Save (name : string)
| socketstream_open (host : string) (port : Z)
| sock_header (num_procs myid : Z)
| sock_precision (p : Z)
| sock_solution
| delete (h : Heap).

(** ** Inputs of a run *)

(** What a run of [main] on one rank depends on: the answers of MPI, the
    outcome of parsing with the values the options have afterwards, and the
    mesh quantities that steer the control flow.  [ref_levels] is the value
    of [(int)floor(log(1000./mesh->GetNE())/log(2.)/dim)]. *)
Record Env : Type := {
  num_procs : Z;
  myid : Z;
  args_Good : bool;
  mesh_file : string;
  order : Z;
  static_cond : bool;
  pa : bool;
  visualization : bool;
  dim : Z;
  sdim : Z;
  ref_levels : Z
}.

(** ** Formatting of the file names *)

Fixpoint fill (c : ascii) (n : nat) (s : string) : string :=
  match n with
  | O => s
  | S n' => String c (fill c n' s)
  end.

(** The character of a decimal digit. *)
Definition digit (d : Z) : ascii := ascii_of_nat (48 + Z.to_nat d).

(** The digits of [n], least significant first, put in front of [acc];
    [fuel] bounds the number of digits. *)
Fixpoint digits_of (fuel : nat) (n : Z) (acc : string) : string :=
  match fuel with
  | O => acc
  | S fuel' =>
      let acc' := String (digit (n mod 10)) acc in
      if (n / 10 =? 0)%Z then acc' else digits_of fuel' (n / 10) acc'
  end.

(** [os << n] for an [int]: a minus sign for a negative number, then the
    decimal digits without leading zeros. *)
Definition decimal (n : Z) : string :=
  if (n <? 0)%Z
  then String "-" (digits_of (S (Z.to_nat (Z.log2 (- n)))) (- n) "")
  else digits_of (S (Z.to_nat (Z.log2 n))) n "".

(** [os << setfill('0') << setw(6) << n]: the decimal form of [n], filled
    on the left up to six characters and never cut. *)

Definition setfill0_setw6 (n : Z) : string :=
  let s := decimal n in fill "0"%char (6 - String.length s) s.

Definition mesh_name (env : Env) : string :=
  ("mesh." ++ setfill0_setw6 (myid env))%string.
Definition sol_name (env : Env) : string :=
  ("sol." ++ setfill0_setw6 (myid env))%string.

(** ** [main] *)

Definition on_root (env : Env) (evs : list Event) : list Event :=
  if (myid env =? 0)%Z then evs else [].

Definition when (b : bool) (evs : list Event) : list Event :=
  if b then evs else [].

(** A loop [for (l = 0; l < n; l++) ev]. *)
Definition times (n : Z) (ev : Event) : list Event := repeat ev (Z.to_nat n).

Definition option_mesh : CmdOption :=
  {| target := opt_mesh_file; short_name := "-m"; long_name := "--mesh";
     disable_names := None; description := "Mesh file to use." |}.

Definition option_order : CmdOption :=
  {| target := opt_order; short_name := "-o"; long_name := "--order";
     disable_names := None;
     description := "Finite element order (polynomial degree)." |}.

Definition option_static_cond : CmdOption :=
  {| target := opt_static_cond; short_name := "-sc";
     long_name := "--static-condensation";
     disable_names := Some ("-no-sc"%string, "--no-static-condensation"%string);
     description := "Enable static condensation." |}.

Definition option_pa : CmdOption :=
  {| target := opt_pa; short_name := "-pa"; long_name := "--partial-assembly";
     disable_names := Some ("-no-pa"%string, "--no-partial-assembly"%string);
     description := "Enable Partial Assembly." |}.

Definition option_visualization : CmdOption :=
  {| target := opt_visualization; short_name := "-vis";
     long_name := "--visualization";
     disable_names := Some ("-no-vis"%string, "--no-visualization"%string);
     description := "Enable or disable GLVis visualization." |}.

(** 1. Initialize MPI. *)
Definition step_1 : list Event := [MPI_Init; MPI_Comm_size; MPI_Comm_rank].

(** 2. Parse command-line options, up to and including [args.Parse()]. *)
Definition step_2 : list Event :=
  [OptionsParser_new;
   AddOption option_mesh;
   AddOption option_order;
   AddOption option_static_cond;
   AddOption option_pa;
   AddOption option_visualization;
   Parse].

(** 3.-5. Read the serial mesh, refine it, build and refine the parallel
    mesh. *)
Definition step_3_5 (env : Env) : list Event :=
  [Mesh_new (mesh_file env)]
  ++ times (ref_levels env) Mesh_UniformRefinement
  ++ [ParMesh_new; Mesh_delete]
  ++ times 1 ParMesh_UniformRefinement
  ++ [ReorientTetMesh].

(** 6. The Nedelec and the H1 space. *)
Definition step_6 (env : Env) : list Event :=
  [FECollection_new ND (order env) (dim env);
   FECollection_new H1 (order env) (dim env);
   ParFiniteElementSpace_new ND;
   ParFiniteElementSpace_new H1;
   GlobalTrueVSize]
  ++ on_root env [cout_unknowns].

(** 7. The grid functions and the coefficients of the exact solution. *)
Definition step_7 : list Event :=
  [ParGridFunction_new gf_x ND;
   Coefficient_new coef_p;
   ParGridFunction_new gf_p H1;
   ProjectCoefficient gf_p coef_p;
   Coefficient_new coef_gradp].

(** 8. The bilinear forms and their integrators. *)
Definition step_8 (env : Env) : list Event :=
  [Coefficient_new coef_muinv;
   Coefficient_new coef_sigma;
   Form_new form_a;
   Form_new form_a_NDH1]
  ++ when (pa env) [SetAssemblyLevel_PARTIAL form_a;
                    SetAssemblyLevel_PARTIAL form_a_NDH1]
  ++ [AddDomainIntegrator form_a coef_sigma;
      AddDomainIntegrator form_a_NDH1 coef_muinv].

(** 9. Assembly and the right-hand side. *)
Definition step_9 (env : Env) : list Event :=
  when (static_cond env) [EnableStaticCondensation]
  ++ [Assemble form_a]
  ++ when (negb (pa env)) [Finalize form_a]
  ++ [Assemble form_a_NDH1]
  ++ when (negb (pa env)) [Finalize form_a_NDH1]
  ++ [Vector_new vec_B; Vector_new vec_X]
  ++ (if pa env
      then [Form_Mult form_a_NDH1 gf_p gf_x; GetTrueDofs gf_x vec_B]
      else [ParallelAssemble form_a_NDH1 mat_NDH1;
            Vector_new vec_P;
            GetTrueDofs gf_p vec_P;
            Matrix_Mult mat_NDH1 vec_P vec_B;
            Matrix_delete mat_NDH1]).

(** 10. The solver: CG with a Jacobi smoother under partial assembly,
    hypre's PCG otherwise. *)
Definition step_10 (env : Env) : list Event :=
  if pa env
  then [ParGridFunction_new gf_diag_pa ND;
        GridFn_fill_zero gf_diag_pa;
        AssembleDiagonal gf_diag_pa;
        Vector_new vec_tdiag_pa;
        GetTrueDofs gf_diag_pa vec_tdiag_pa;
        OperatorJacobiSmoother_new;
        Solver_new cg;
        Solver_set cg "SetRelTol(1e-12)";
        Solver_set cg "SetMaxIter(1000)";
        Solver_set cg "SetPrintLevel(1)";
        Solver_set cg "SetOperator(*a)";
        Solver_set cg "SetPreconditioner(Jacobi)";
        ParGridFunction_new gf_rhs ND;
        GridFn_assign gf_rhs gf_x;
        CG_Mult gf_rhs gf_x]
  else [ParallelAssemble form_a mat_Amat;
        Solver_new pcg;
        Solver_set pcg "SetTol(1e-12)";
        Solver_set pcg "SetMaxIter(500)";
        Solver_set pcg "SetPrintLevel(2)";
        PCG_Mult vec_B vec_X;
        Solver_delete pcg;
        Matrix_delete mat_Amat;
        SetFromTrueDofs gf_x vec_X].

(** 11. The L2 norm of the error. *)
Definition step_11 (env : Env) : list Event :=
  [ComputeL2Error gf_x coef_gradp] ++ on_root env [cout_error].

(** 12. Save the refined mesh and the solution. *)
Definition step_12 (env : Env) : list Event :=
  [ofstream_open (mesh_name env);
   ofstream_precision (mesh_name env) 8;
   pmesh_Print (mesh_name env);
   ofstream_open (sol_name env);
   ofstream_precision (sol_name env) 8;
   x_Save (sol_name env)].

(** 13. Send the solution by socket to a GLVis server. *)
Definition step_13 (env : Env) : list Event :=
  when (visualization env)
    [socketstream_open "localhost" 19916;
     sock_header (num_procs env) (myid env);
     sock_precision 8;
     sock_solution].

(** 14. Free the used memory. *)
Definition step_14 : list Event :=
  [delete heap_a; delete heap_a_NDH1; delete heap_sigma; delete heap_muinv;
   delete heap_fespace; delete heap_H1fespace; delete heap_fec;
   delete heap_H1fec; delete heap_pmesh].

(** The calls of one run, in order, and the value [main] returns. *)
Definition main (env : Env) : list Event * Z :=
  let start := step_1 ++ step_2 in
  if negb (args_Good env)
  then (start ++ on_root env [PrintUsage] ++ [MPI_Finalize], 1%Z)
  else (start
        ++ on_root env [PrintOptions]
        ++ step_3_5 env
        ++ step_6 env
        ++ step_7
        ++ step_8 env
        ++ step_9 env
        ++ step_10 env
        ++ step_11 env
        ++ step_12 env
        ++ step_13 env
        ++ step_14
        ++ [MPI_Finalize], 0%Z).

(** What a run with well-formed arguments does before and after the loop
    of serial refinements. *)
Definition before_mesh (env : Env) : list Event :=
  step_1 ++ step_2 ++ on_root env [PrintOptions].

Definition after_serial_refinement (env : Env) : list Event :=
  [ParMesh_new; Mesh_delete; ParMesh_UniformRefinement; ReorientTetMesh]
  ++ step_6 env ++ step_7 ++ step_8 env ++ step_9 env ++ step_10 env
  ++ step_11 env ++ step_12 env ++ step_13 env ++ step_14 ++ [MPI_Finalize].

Definition trace (env : Env) : list Event := fst (main env).
Definition exit_code (env : Env) : Z := snd (main env).

(** ** Reading a trace *)




(** The values [f] finds in a trace, in order. *)
Fixpoint collect {A : Type} (f : Event -> option A) (tr : list Event)
    : list A :=
  match tr with
  | [] => []
  | ev :: tr' =>
      match f ev with
      | Some a => a :: collect f tr'
      | None => collect f tr'
      end
  end.





(** Calls that create a mesh, a finite element collection or space, a
    form, a matrix, a smoother or a solver. *)
Definition builds (ev : Event) : bool :=
  match ev with
  | Mesh_new _ | ParMesh_new | FECollection_new _ _ _
  | ParFiniteElementSpace_new _ | Form_new _ | ParallelAssemble _ _
  | OperatorJacobiSmoother_new | Solver_new _ => true
  | _ => false
  end.

Definition is_PrintUsage (ev : Event) : bool :=
  match ev with PrintUsage => true | _ => false end.

Definition is_MPI_Finalize (ev : Event) : bool :=
  match ev with MPI_Finalize => true | _ => false end.

(** The options registered, in the order of registration. *)
Definition registered (tr : list Event) : list CmdOption :=
  collect (fun ev => match ev with AddOption o => Some o | _ => None end) tr.

(** The files opened for writing. *)
Definition files_opened (tr : list Event) : list string :=
  collect (fun ev => match ev with ofstream_open name => Some name | _ => None end)
    tr.

(** What is written into files: the mesh and the solution. *)
Definition is_file_write (ev : Event) : bool :=
  match ev with pmesh_Print _ | x_Save _ => true | _ => false end.

(** Traffic on the socket to the visualization server. *)
Definition is_socket (ev : Event) : bool :=
  match ev with
  | socketstream_open _ _ | sock_header _ _ | sock_precision _
  | sock_solution => true
  | _ => false
  end.

(** A string of decimal digits, and the number it denotes after [acc]. *)
Definition is_digit (c : ascii) : bool :=
  ((48 <=? nat_of_ascii c) && (nat_of_ascii c <=? 57))%nat.

Fixpoint all_digits (s : string) : bool :=
  match s with
  | EmptyString => true
  | String c s' => is_digit c && all_digits s'
  end.

Fixpoint value (s : string) (acc : Z) : Z :=
  match s with
  | EmptyString => acc
  | String c s' => value s' (10 * acc + (Z.of_nat (nat_of_ascii c) - 48))
  end.

(** ** A sample run *)

Definition sample_env (good vis : bool) (rank_ : Z) : Env :=
  {| num_procs := 4; myid := rank_; args_Good := good;
     mesh_file := "../data/beam-hex.mesh"; order := 1;
     static_cond := false; pa := false; visualization := vis;
     dim := 3; sdim := 3; ref_levels := 2 |}.

(** ** Further readings of a trace *)


(** What is printed on [cout]. *)
Definition is_cout (ev : Event) : bool :=
  match ev with
  | PrintUsage | PrintOptions | cout_unknowns | cout_error => true
  | _ => false
  end.

Definition is_serial_refinement (ev : Event) : bool :=
  match ev with Mesh_UniformRefinement => true | _ => false end.

Definition is_parallel_refinement (ev : Event) : bool :=
  match ev with ParMesh_UniformRefinement => true | _ => false end.

Definition is_EnableStaticCondensation (ev : Event) : bool :=
  match ev with EnableStaticCondensation => true | _ => false end.

(** Calls on an assembled matrix or on hypre's solver: they belong to full
    assembly. *)
Definition is_full_assembly (ev : Event) : bool :=
  match ev with
  | Finalize _ | ParallelAssemble _ _ | Matrix_Mult _ _ _ | Matrix_delete _
  | Solver_new pcg | Solver_set pcg _ | PCG_Mult _ _ | Solver_delete _
  | SetFromTrueDofs _ _ => true
  | _ => false
  end.

(** Calls that belong to partial assembly. *)
Definition is_partial_assembly (ev : Event) : bool :=
  match ev with
  | SetAssemblyLevel_PARTIAL _ | Form_Mult _ _ _ | AssembleDiagonal _
  | OperatorJacobiSmoother_new | Solver_new cg | Solver_set cg _
  | CG_Mult _ _ => true
  | _ => false
  end.

(** The calls that solve the linear system. *)
Definition is_solve (ev : Event) : bool :=
  match ev with CG_Mult _ _ | PCG_Mult _ _ => true | _ => false end.

(** The objects on the heap that [main] brings about: those it creates
    with [new], the two integrators among them, which it creates in the
    argument of [AddDomainIntegrator], and the matrices that
    [ParallelAssemble] hands over. *)
Inductive Owned : Type :=
| own_mesh | own_pmesh | own_fec | own_H1fec | own_fespace | own_H1fespace
| own_muinv | own_sigma | own_a | own_a_NDH1 | own_NDH1 | own_Amat | own_pcg
| own_integ_a | own_integ_a_NDH1.

Definition Owned_code (o : Owned) : nat :=
  match o with
  | own_mesh => 0 | own_pmesh => 1 | own_fec => 2 | own_H1fec => 3
  | own_fespace => 4 | own_H1fespace => 5 | own_muinv => 6 | own_sigma => 7
  | own_a => 8 | own_a_NDH1 => 9 | own_NDH1 => 10 | own_Amat => 11
  | own_pcg => 12 | own_integ_a => 13 | own_integ_a_NDH1 => 14
  end.

Definition Owned_eqb (o1 o2 : Owned) : bool :=
  (Owned_code o1 =? Owned_code o2)%nat.

(** The object a call allocates.  The coefficients [p_coef] and
    [gradp_coef], the grid functions, the vectors and the CG solver live on
    the stack. *)
Definition allocates (ev : Event) : option Owned :=
  match ev with
  | Mesh_new _ => Some own_mesh
  | ParMesh_new => Some own_pmesh
  | FECollection_new ND _ _ => Some own_fec
  | FECollection_new H1 _ _ => Some own_H1fec
  | ParFiniteElementSpace_new ND => Some own_fespace
  | ParFiniteElementSpace_new H1 => Some own_H1fespace
  | Coefficient_new coef_muinv => Some own_muinv
  | Coefficient_new coef_sigma => Some own_sigma
  | Form_new form_a => Some own_a
  | Form_new form_a_NDH1 => Some own_a_NDH1
  | AddDomainIntegrator form_a _ => Some own_integ_a
  | AddDomainIntegrator form_a_NDH1 _ => Some own_integ_a_NDH1
  | ParallelAssemble _ mat_NDH1 => Some own_NDH1
  | ParallelAssemble _ mat_Amat => Some own_Amat
  | Solver_new pcg => Some own_pcg
  | _ => None
  end.

(** The object a call of [main] deletes.  No statement of [main] deletes
    an integrator: they are handed to the forms. *)
Definition frees (ev : Event) : option Owned :=
  match ev with
  | Mesh_delete => Some own_mesh
  | Matrix_delete mat_NDH1 => Some own_NDH1
  | Matrix_delete mat_Amat => Some own_Amat
  | Solver_delete pcg => Some own_pcg
  | delete heap_a => Some own_a
  | delete heap_a_NDH1 => Some own_a_NDH1
  | delete heap_sigma => Some own_sigma
  | delete heap_muinv => Some own_muinv
  | delete heap_fespace => Some own_fespace
  | delete heap_H1fespace => Some own_H1fespace
  | delete heap_fec => Some own_fec
  | delete heap_H1fec => Some own_H1fec
  | delete heap_pmesh => Some own_pmesh
  | _ => None
  end.

Definition is_live (o : Owned) (live : list Owned) : bool :=
  existsb (Owned_eqb o) live.

Definition drop (o : Owned) (live : list Owned) : list Owned :=
  filter (fun o' => negb (Owned_eqb o o')) live.

(** The objects alive after a trace, from those alive before it; [None]
    when the trace allocates an object that is alive or deletes one that
    is not. *)
Fixpoint heap_after (live : list Owned) (tr : list Event)
    : option (list Owned) :=
  match tr with
  | [] => Some live
  | ev :: tr' =>
      match allocates ev, frees ev with
      | Some o, _ =>
          if is_live o live then None else heap_after (o :: live) tr'
      | None, Some o =>
          if is_live o live then heap_after (drop o live) tr' else None
      | None, None => heap_after live tr'
      end
  end.





(** A run with another value of one flag. *)
Definition with_visualization (env : Env) (b : bool) : Env :=
  {| num_procs := num_procs env; myid := myid env;
     args_Good := args_Good env; mesh_file := mesh_file env;
     order := order env; static_cond := static_cond env; pa := pa env;
     visualization := b; dim := dim env; sdim := sdim env;
     ref_levels := ref_levels env |}.

Definition with_static_cond (env : Env) (b : bool) : Env :=
  {| num_procs := num_procs env; myid := myid env;
     args_Good := args_Good env; mesh_file := mesh_file env;
     order := order env; static_cond := b; pa := pa env;
     visualization := visualization env; dim := dim env; sdim := sdim env;
     ref_levels := ref_levels env |}.

Definition sample_env_pa (use_pa : bool) (levels : Z) : Env :=
  {| num_procs := 4; myid := 1; args_Good := true;
     mesh_file := "../data/star.mesh"; order := 2;
     static_cond := true; pa := use_pa; visualization := true;
     dim := 2; sdim := 2; ref_levels := levels |}.

(** ** The exact solution *)

Definition entry (x : list R) (i : Z) : option R := Hypsys.at_int x i.

Definition set_entry (f : list R) (i : nat) (v : R) : option (list R) :=
  Hypsys.list_set f i v.

(** [p_exact(x)]; [dim_] is the global variable [dim], which [main] sets
    to the dimension of the mesh.  The trigonometric functions are those
    of the real numbers. *)
Definition p_exact (dim_ : Z) (x : list R) : option R :=
  if (dim_ =? 3)%Z then
    x0 <- entry x 0 ;; x1 <- entry x 1 ;; x2 <- entry x 2 ;;
    Some (sin x0 * sin x1 * sin x2)%R
  else if (dim_ =? 2)%Z then
    x0 <- entry x 0 ;; x1 <- entry x 1 ;;
    Some (sin x0 * sin x1)%R
  else Some 0%R.

(** [gradp_exact(x, f)]: the entries of [f] that are written, in the
    order of the source. *)
Definition gradp_exact (dim_ : Z) (x f : list R) : option (list R) :=
  if (dim_ =? 3)%Z then
    x0 <- entry x 0 ;; x1 <- entry x 1 ;; x2 <- entry x 2 ;;
    f1 <- set_entry f 0 (cos x0 * sin x1 * sin x2)%R ;;
    f2 <- set_entry f1 1 (sin x0 * cos x1 * sin x2)%R ;;
    set_entry f2 2 (sin x0 * sin x1 * cos x2)%R
  else
    x0 <- entry x 0 ;; x1 <- entry x 1 ;;
    f1 <- set_entry f 0 (cos x0 * sin x1)%R ;;
    f2 <- set_entry f1 1 (sin x0 * cos x1)%R ;;
    if (length x =? 3)%nat then set_entry f2 2 0%R else Some f2.

(** The value of [p_exact] at a point with all the coordinates it
    reads. *)
Definition p_exact_value (dim_ : Z) (x : list R) : R :=
  match p_exact dim_ x with
  | Some v => v
  | None => 0%R
  end.

End ExNDH1.

(** * Properties of the evolution operator *)

Unset Implicit Arguments.

Section ConstructorGuards.

Import Hypsys.

(** Two characters with the same code are the same character. *)
Lemma c_char_String_inj (a b : ascii) (s t : string) :
  c_char (String a s) = c_char (String b t) -> a = b.
Proof.
  simpl; intros H.
  apply Nat2Z.inj in H.
  rewrite <- (ascii_nat_embedding a), <- (ascii_nat_embedding b).
  now rewrite H.
Qed.

(** Against a literal without NUL, [strncmp] over the length of the
    literal is zero exactly when the literal is a prefix. *)
Lemma strncmp_prefix (p s : string) :
  nul_free p = true ->
  c_true (strncmp s p (String.length p)) = negb (prefix p s).
Proof.
  revert s; induction p as [|c p IH]; intros s Hp.
  - destruct s; reflexivity.
  - simpl in Hp. apply andb_true_iff in Hp as [Hc Hp].
    apply negb_true_iff in Hc.
    cbn [String.length strncmp].
    destruct (c_char s =? c_char (String c p))%Z eqn:E.
    + apply Z.eqb_eq in E. cbn [negb].
      assert (Hs : (c_char s =? 0)%Z = false) by (rewrite E; exact Hc).
      rewrite Hs.
      destruct s as [|a s'].
      * simpl in Hs. discriminate.
      * apply c_char_String_inj in E. subst a.
        cbn [c_next prefix].
        destruct (ascii_dec c c) as [_|N]; [|contradiction].
        apply IH, Hp.
    + cbn [negb].
      assert (Hd : c_true (c_char s - c_char (String c p)) = true).
      { unfold c_true. apply negb_true_iff, Z.eqb_neq.
        apply Z.eqb_neq in E. lia. }
      rewrite Hd.
      destruct s as [|a s']; cbn [prefix]; [reflexivity|].
      destruct (ascii_dec c a) as [->|N]; [|reflexivity].
      rewrite Z.eqb_refl in E. discriminate.
Qed.

Section Guards.

Context {T : Type} `{ST : Scalar T}.

Variables (fes : FiniteElementSpace (T := T))
          (hyp_ : HyperbolicSystem (T := T)) (dofs : DofInfo).

(** The first guard as a test on the name. *)
Lemma guard_L2 :
  c_true (strncmp (FEColl_Name fes) "L2" 2) = negb (prefix "L2" (FEColl_Name fes)).
Proof. exact (strncmp_prefix "L2" (FEColl_Name fes) eq_refl). Qed.

(** The second guard as a test on the name. *)
Lemma guard_L2_T2 :
  c_true (strncmp (FEColl_Name fes) "L2_T2" 5)
  = negb (prefix "L2_T2" (FEColl_Name fes)).
Proof. exact (strncmp_prefix "L2_T2" (FEColl_Name fes) eq_refl). Qed.

(** C2: a space whose collection name does not begin with "L2" makes the
    constructor abort with the message of the DG guard; no object is
    constructed. *)
Theorem ctor_rejects_non_DG :
  prefix "L2" (FEColl_Name fes) = false ->
  FE_Evolution_ctor fes hyp_ dofs
  = Aborted "FiniteElementSpace must be L2 conforming (DG)."
  /\ forall obj, FE_Evolution_ctor fes hyp_ dofs <> Constructed obj.
Proof.
  intros Hname.
  assert (E : FE_Evolution_ctor fes hyp_ dofs
              = Aborted "FiniteElementSpace must be L2 conforming (DG).").
  { unfold FE_Evolution_ctor. cbv zeta. rewrite guard_L2, Hname. reflexivity. }
  split; [exact E|].
  intros obj. rewrite E. discriminate.
Qed.

(** C8: a space whose collection name does not begin with "L2_T2" makes
    the constructor abort: with the message of the DG guard when the name
    does not begin with "L2", and with the message of the Bernstein guard
    when it does.  No object is constructed. *)
Theorem ctor_rejects_non_Bernstein :
  prefix "L2_T2" (FEColl_Name fes) = false ->
  FE_Evolution_ctor fes hyp_ dofs
  = Aborted (if prefix "L2" (FEColl_Name fes)
             then "Shape functions must be represented in Bernstein basis."
             else "FiniteElementSpace must be L2 conforming (DG).")
  /\ forall obj, FE_Evolution_ctor fes hyp_ dofs <> Constructed obj.
Proof.
  intros Hname.
  assert (E : FE_Evolution_ctor fes hyp_ dofs
              = Aborted (if prefix "L2" (FEColl_Name fes)
                         then "Shape functions must be represented in Bernstein basis."
                         else "FiniteElementSpace must be L2 conforming (DG).")).
  { unfold FE_Evolution_ctor. cbv zeta. rewrite guard_L2, guard_L2_T2, Hname.
    destruct (prefix "L2" (FEColl_Name fes)); reflexivity. }
  split; [exact E|].
  intros obj. rewrite E. discriminate.
Qed.

End Guards.

(** A collection of H1 elements is rejected by the DG guard. *)
Lemma ctor_rejects_non_DG_witness :
  prefix "L2" (FEColl_Name (sample_fes (T := R) "H1_2D_P1")) = false
  /\ FE_Evolution_ctor (sample_fes (T := R) "H1_2D_P1") (sample_hyp false) sample_dofs
     = Aborted "FiniteElementSpace must be L2 conforming (DG).".
Proof.
  split; [reflexivity|].
  apply (ctor_rejects_non_DG (sample_fes (T := R) "H1_2D_P1") (sample_hyp false)
           sample_dofs).
  reflexivity.
Defined.

(** A DG collection in the default nodal basis is rejected by the
    Bernstein guard. *)
Lemma ctor_rejects_non_Bernstein_witness :
  prefix "L2_T2" (FEColl_Name (sample_fes (T := R) "L2_2D_P1")) = false
  /\ FE_Evolution_ctor (sample_fes (T := R) "L2_2D_P1") (sample_hyp false) sample_dofs
     = Aborted "Shape functions must be represented in Bernstein basis.".
Proof.
  split; [reflexivity|].
  apply (ctor_rejects_non_Bernstein (sample_fes (T := R) "L2_2D_P1") (sample_hyp false)
           sample_dofs).
  reflexivity.
Defined.

(** The guards let a Bernstein DG collection through. *)
Example ctor_accepts_Bernstein :
  exists obj,
    FE_Evolution_ctor (sample_fes (T := R) "L2_T2_2D_P1") (sample_hyp false) sample_dofs
    = Constructed obj.
Proof. eexists. reflexivity. Qed.

End ConstructorGuards.

Section LaxFriedrichsProofs.

Import Hypsys.
Local Open Scope R_scope.

(** *** Sums and entries *)

Lemma Rsum_ext (m : nat) (f g : nat -> R) :
  (forall l, (l < m)%nat -> f l = g l) -> Rsum m f = Rsum m g.
Proof.
  induction m as [|m IH]; intros H; simpl; [reflexivity|].
  rewrite IH, H by (intros; try apply H; lia). reflexivity.
Qed.

Lemma Rsum_shift (m : nat) (f : nat -> R) :
  Rsum (S m) f = f 0%nat + Rsum m (fun l => f (S l)).
Proof.
  induction m as [|m IH].
  - simpl. ring.
  - change (Rsum (S (S m)) f) with (Rsum (S m) f + f (S m)).
    rewrite IH. simpl. ring.
Qed.

Lemma Rsum_scale (m : nat) (c : R) (f : nat -> R) :
  Rsum m (fun l => c * f l) = c * Rsum m f.
Proof.
  induction m as [|m IH]; simpl; [ring|]. rewrite IH. ring.
Qed.

(** The accumulation loop of the matrix-vector product is a sum. *)
Lemma row_dot_Rsum (r x : list R) (acc : R) :
  length r = length x ->
  row_dot acc r x = acc + Rsum (length x) (fun l => nth l r 0 * nth l x 0).
Proof.
  revert x acc; induction r as [|a r IH]; intros [|b x] acc Hlen;
    try discriminate.
  - simpl. ring.
  - cbn [row_dot]. rewrite IH by (simpl in Hlen; lia).
    cbn [length]. rewrite Rsum_shift. cbn [nth s_add s_mul Scalar_R]. ring.
Qed.

Lemma map2_length (f : R -> R -> R) (x y : list R) :
  length x = length y -> length (map2 f x y) = length x.
Proof.
  revert y; induction x as [|a x IH]; intros [|b y] H; try discriminate.
  - reflexivity.
  - simpl. f_equal. apply IH. simpl in H. lia.
Qed.

Lemma map2_nth (f : R -> R -> R) (x y : list R) (n : nat) :
  length x = length y -> (n < length x)%nat ->
  nth n (map2 f x y) 0 = f (nth n x 0) (nth n y 0).
Proof.
  revert y n; induction x as [|a x IH]; intros [|b y] n H Hn;
    try discriminate; simpl in Hn; try lia.
  destruct n as [|n]; simpl; [reflexivity|].
  apply IH; simpl in H; lia.
Qed.

(** *** Sizes of matrices *)

Lemma has_size_length (h w : nat) (A : list (list R)) :
  has_size h w A = true -> length A = h.
Proof.
  unfold has_size. intros H. apply andb_true_iff in H as [H _].
  now apply Nat.eqb_eq.
Qed.

Lemma has_size_row (h w : nat) (A : list (list R)) (n : nat) :
  has_size h w A = true -> (n < h)%nat -> length (nth n A []) = w.
Proof.
  unfold has_size. intros H Hn. apply andb_true_iff in H as [Hh Hr].
  apply Nat.eqb_eq in Hh. rewrite forallb_forall in Hr.
  apply Nat.eqb_eq, Hr, nth_In. lia.
Qed.

Lemma has_size_cons (h w : nat) (r : list R) (A : list (list R)) :
  has_size (S h) w (r :: A) = true <-> length r = w /\ has_size h w A = true.
Proof.
  unfold has_size. cbn [length forallb].
  rewrite !andb_true_iff, !Nat.eqb_eq. intuition lia.
Qed.

(** [Flux += FluxNbr] succeeds on matrices of one size and adds entry by
    entry. *)
Lemma DenseMatrix_add_assign_ok (h w : nat) (A M : list (list R)) :
  has_size h w A = true -> has_size h w M = true ->
  exists S, DenseMatrix_add_assign A M = Some S
            /\ has_size h w S = true
            /\ forall n l, (n < h)%nat -> (l < w)%nat ->
                 mat_at S n l = mat_at A n l + mat_at M n l.
Proof.
  revert h M; induction A as [|r A IH]; intros h M HA HM.
  - pose proof (has_size_length _ _ _ HA) as Hh. simpl in Hh. subst h.
    destruct M as [|m M]; [|apply has_size_length in HM; discriminate].
    exists []. repeat split; trivial. intros; lia.
  - pose proof (has_size_length _ _ _ HA) as Hh. simpl in Hh. subst h.
    destruct M as [|m M]; [apply has_size_length in HM; discriminate|].
    assert (HlM : length M = length A)
      by (apply has_size_length in HM; simpl in HM; lia).
    rewrite <- HlM in HM.
    apply has_size_cons in HA as [Hr HA], HM as [Hm HM].
    rewrite HlM in HM.
    destruct (IH _ M HA HM) as (S & ES & HS & Hent).
    exists (map2 Rplus r m :: S).
    cbn [DenseMatrix_add_assign]. unfold row_add_assign.
    replace (length r =? length m)%nat with true
      by (symmetry; apply Nat.eqb_eq; lia).
    cbn [bind]. rewrite ES. cbn [bind].
    split; [reflexivity|]. split.
    + apply has_size_cons. split; [|exact HS].
      rewrite map2_length; lia.
    + intros n l Hn Hl. destruct n as [|n].
      * unfold mat_at. cbn [nth]. apply map2_nth; lia.
      * unfold mat_at in *. cbn [nth]. apply Hent; lia.
Qed.

Lemma nth_map_lt (A : Type) (f : A -> R) (l : list A) (d : A) (n : nat) :
  (n < length l)%nat -> nth n (map f l) 0 = f (nth n l d).
Proof.
  intros Hn. rewrite (nth_indep _ 0 (f d)) by (rewrite length_map; exact Hn).
  apply map_nth.
Qed.

(** *** What [LaxFriedrichs] computes *)

(** The value of every entry of the result, in the order in which the code
    forms it: the product of the summed fluxes with the normal, plus the
    scaled difference of the states, and the whole halved. *)
Lemma LaxFriedrichs_value (fe : FE_Evolution) (x1 x2 normal y : list R)
    (e k i : Z) :
  conformal fe x1 x2 normal y e k i = true ->
  exists y' S,
    LaxFriedrichs fe x1 x2 normal y e k i
    = Some (y', set_Flux fe S (EvaluateFlux (hyp fe) x2 e k i))
    /\ length y' = NumEq (hyp fe)
    /\ forall n, (n < NumEq (hyp fe))%nat ->
         vec_at y' n
         = (Rsum (length normal)
              (fun l => (mat_at (EvaluateFlux (hyp fe) x1 e k i) n l
                         + mat_at (EvaluateFlux (hyp fe) x2 e k i) n l)
                        * vec_at normal l)
            + s_max (GetWaveSpeed (hyp fe) x1 normal e k i)
                    (GetWaveSpeed (hyp fe) x2 normal e k i)
              * (vec_at x1 n - vec_at x2 n)) * (1 / 2).
Proof.
  unfold conformal. intros H.
  apply andb_true_iff in H as [H Hy]. apply andb_true_iff in H as [H Hx2].
  apply andb_true_iff in H as [H Hx1]. apply andb_true_iff in H as [H Hn].
  apply andb_true_iff in H as [HF1 HF2].
  apply Nat.eqb_eq in Hy, Hx2, Hx1, Hn.
  set (F1 := EvaluateFlux (hyp fe) x1 e k i) in *.
  set (F2 := EvaluateFlux (hyp fe) x2 e k i) in *.
  set (ws := s_max _ _).
  set (h := NumEq (hyp fe)) in *.
  destruct (DenseMatrix_add_assign_ok h (dim fe) F1 F2 HF1 HF2)
    as (S & ES & HS & Hent).
  pose proof (has_size_length _ _ _ HS) as HlS.
  set (y1 := map (fun r => row_dot zero r normal) S).
  assert (Hy1 : length y1 = h) by (unfold y1; rewrite length_map; exact HlS).
  set (d1 := map2 (fun xi yi => ws * (xi - yi)) x1 x2).
  assert (Hd1 : length d1 = h) by (unfold d1; rewrite map2_length; lia).
  exists (map (fun yi => yi * (1 / 2)) (map2 Rplus y1 d1)), S.
  split; [|split].
  - unfold LaxFriedrichs. cbv zeta. fold F1 F2. rewrite ES. cbn [bind].
    unfold DenseMatrix_Mult.
    replace ((length S =? length y)%nat
             && forallb (fun r => (length r =? length normal)%nat) S)%bool
      with (has_size h (dim fe) S)
      by (unfold has_size; rewrite Hy, Hn; reflexivity).
    rewrite HS. cbn [bind]. fold y1.
    unfold subtract, Vector_new. rewrite repeat_length, Hy1.
    replace (length x1 =? length x2)%nat with true
      by (symmetry; apply Nat.eqb_eq; lia).
    replace (length x1 =? h)%nat with true
      by (symmetry; apply Nat.eqb_eq; lia).
    cbn [andb bind]. unfold Vector_add_assign.
    change (map2 (fun xi yi => s_mul _ (s_sub xi yi)) x1 x2) with d1.
    replace (length y1 =? length d1)%nat with true
      by (symmetry; apply Nat.eqb_eq; lia).
    reflexivity.
  - rewrite length_map, map2_length; lia.
  - intros n Hlt. unfold vec_at at 1.
    rewrite (nth_map_lt _ _ _ 0) by (rewrite map2_length; lia).
    rewrite map2_nth by lia.
    f_equal. f_equal.
    + unfold y1. rewrite (nth_map_lt _ _ _ []) by lia.
      assert (Hrow : length (nth n S []) = length normal)
        by (rewrite (has_size_row _ _ _ n HS Hlt); lia).
      rewrite row_dot_Rsum by exact Hrow.
      change zero with 0. rewrite Rplus_0_l.
      apply Rsum_ext. intros l Hl.
      change (nth l (nth n S []) 0) with (mat_at S n l).
      rewrite Hent by lia. reflexivity.
    + unfold d1. rewrite map2_nth by lia. reflexivity.
Qed.

(** [std::max] on the real numbers is the maximum. *)
Lemma s_max_Rmax (a b : R) : s_max a b = Rmax a b.
Proof.
  unfold s_max, Rmax. cbn [s_ltb Scalar_R]. unfold Rltb.
  destruct (Rlt_dec a b), (Rle_dec a b); try reflexivity; lra.
Qed.

(** C1: on arguments of the sizes the operator is used with, the call
    returns, and every entry of the result is
    [0.5*(F(x1)+F(x2)).normal + 0.5*ws*(x1-x2)] with [ws] the maximum of
    the two wave speeds.  The normal need not have unit length. *)
Theorem LaxFriedrichs_formula (fe : FE_Evolution) (x1 x2 normal y : list R)
    (e k i : Z) :
  conformal fe x1 x2 normal y e k i = true ->
  exists y' fe',
    LaxFriedrichs fe x1 x2 normal y e k i = Some (y', fe')
    /\ length y' = NumEq (hyp fe)
    /\ forall n, (n < NumEq (hyp fe))%nat ->
         vec_at y' n
         = LaxFriedrichs_spec
             (EvaluateFlux (hyp fe) x1 e k i)
             (EvaluateFlux (hyp fe) x2 e k i)
             (Rmax (GetWaveSpeed (hyp fe) x1 normal e k i)
                   (GetWaveSpeed (hyp fe) x2 normal e k i))
             normal x1 x2 n.
Proof.
  intros H.
  destruct (LaxFriedrichs_value fe x1 x2 normal y e k i H)
    as (y' & S & E & Hlen & Hval).
  exists y', (set_Flux fe S (EvaluateFlux (hyp fe) x2 e k i)).
  split; [exact E|]. split; [exact Hlen|].
  intros n Hn. rewrite (Hval n Hn), s_max_Rmax.
  unfold LaxFriedrichs_spec. lra.
Qed.

(** C9: with the same state [u] on both sides the call returns the flux
    of [u] applied to the normal, entry by entry; the wave speed has no
    influence. *)
Theorem LaxFriedrichs_consistent (fe : FE_Evolution) (u normal y : list R)
    (e k i : Z) :
  conformal fe u u normal y e k i = true ->
  exists y' fe',
    LaxFriedrichs fe u u normal y e k i = Some (y', fe')
    /\ length y' = NumEq (hyp fe)
    /\ forall n, (n < NumEq (hyp fe))%nat ->
         vec_at y' n
         = flux_dot_normal (EvaluateFlux (hyp fe) u e k i) normal n.
Proof.
  intros H.
  destruct (LaxFriedrichs_value fe u u normal y e k i H)
    as (y' & S & E & Hlen & Hval).
  exists y', (set_Flux fe S (EvaluateFlux (hyp fe) u e k i)).
  split; [exact E|]. split; [exact Hlen|].
  intros n Hn. rewrite (Hval n Hn).
  unfold flux_dot_normal.
  set (F := EvaluateFlux (hyp fe) u e k i).
  rewrite (Rsum_ext _ _ (fun l => 2 * (mat_at F n l * vec_at normal l)))
    by (intros; ring).
  rewrite Rsum_scale. lra.
Qed.

End LaxFriedrichsProofs.

Section LaxFriedrichsRuns.

Import Hypsys.
Local Open Scope R_scope.

(** The states [(1, 2)] and [(3, 4)] across a face with normal [(1, 0)]. *)
Lemma LaxFriedrichs_formula_witness :
  conformal (sample_fe false) [1; 2] [3; 4] [1; 0] [0; 0] 0 0 0 = true
  /\ exists y' fe',
       LaxFriedrichs (sample_fe false) [1; 2] [3; 4] [1; 0] [0; 0] 0 0 0
       = Some (y', fe')
       /\ length y' = 2%nat
       /\ forall n, (n < 2)%nat ->
            vec_at y' n
            = LaxFriedrichs_spec [[1; 0]; [0; 2]] [[3; 0]; [0; 4]]
                (Rmax 1 3) [1; 0] [1; 2] [3; 4] n.
Proof.
  split; [reflexivity|].
  exact (LaxFriedrichs_formula (sample_fe false) [1; 2] [3; 4] [1; 0] [0; 0]
           0 0 0 eq_refl).
Defined.

(** The state [(3, 4)] on both sides of a face with normal [(1, 0)]. *)
Lemma LaxFriedrichs_consistent_witness :
  conformal (sample_fe false) [3; 4] [3; 4] [1; 0] [0; 0] 0 0 0 = true
  /\ exists y' fe',
       LaxFriedrichs (sample_fe false) [3; 4] [3; 4] [1; 0] [0; 0] 0 0 0
       = Some (y', fe')
       /\ length y' = 2%nat
       /\ forall n, (n < 2)%nat ->
            vec_at y' n = flux_dot_normal [[3; 0]; [0; 4]] [1; 0] n.
Proof.
  split; [reflexivity|].
  exact (LaxFriedrichs_consistent (sample_fe false) [3; 4] [1; 0] [0; 0]
           0 0 0 eq_refl).
Defined.

(** The same call on binary64 numbers: the fluxes sum to [diag(4, 6)],
    the wave speed is 3 and the result is [(-1, -3)]. *)
Example LaxFriedrichs_run_float :
  option_map fst
    (LaxFriedrichs (T := PrimFloat.float) (sample_fe false)
       [num 1; num 2] [num 3; num 4] [num 1; num 0] [num 0; num 0] 0 0 0)
  = Some [num (-1); num (-3)].
Proof. vm_compute. reflexivity. Qed.

(** On the real numbers the call yields the same two entries. *)
Example LaxFriedrichs_run_R :
  exists y' fe',
    LaxFriedrichs (sample_fe false) [1; 2] [3; 4] [1; 0] [0; 0] 0 0 0
    = Some (y', fe')
    /\ vec_at y' 0 = -1 /\ vec_at y' 1 = -3.
Proof.
  destruct (LaxFriedrichs_value (sample_fe false) [1; 2] [3; 4] [1; 0] [0; 0]
              0 0 0 eq_refl) as (y' & S & E & _ & Hval).
  exists y', (set_Flux (sample_fe false) S
                (EvaluateFlux (hyp (sample_fe false)) [3; 4] 0 0 0)).
  split; [exact E|].
  assert (Hws : s_max (1 : R) 3 = 3) by (rewrite s_max_Rmax; apply Rmax_right; lra).
  split.
  - rewrite (Hval 0%nat) by (cbn; lia).
    change (s_max _ _) with (s_max (1 : R) 3). rewrite Hws.
    cbn. unfold mat_at, vec_at. cbn. lra.
  - rewrite (Hval 1%nat) by (cbn; lia).
    change (s_max _ _) with (s_max (1 : R) 3). rewrite Hws.
    cbn. unfold mat_at, vec_at. cbn. lra.
Qed.

End LaxFriedrichsRuns.

Section ConvergenceCheckProofs.

Import Hypsys.

Context {T : Type} `{ST : Scalar T}.

(** The loop over the lumped mass matrix ends when both vectors have an
    entry for each index it visits. *)
Lemma lumped_sum_defined (L zv : list T) (n i : nat) (res : T) :
  i + n <= length L -> i + n <= length zv ->
  exists r, lumped_sum L zv n i res = Some r.
Proof.
  revert i res; induction n as [|n IH]; intros i res HL Hz.
  - exists res. reflexivity.
  - cbn [lumped_sum]. unfold Vector_at.
    destruct (nth_error L i) as [Li|] eqn:EL;
      [|apply nth_error_None in EL; lia].
    destruct (nth_error zv i) as [zi|] eqn:Ez;
      [|apply nth_error_None in Ez; lia].
    cbn [bind]. apply IH; lia.
Qed.

Lemma Vector_sub_assign_length (y v w : list T) :
  Vector_sub_assign y v = Some w -> length w = length y.
Proof.
  unfold Vector_sub_assign.
  destruct (length y =? length v) eqn:E; [|discriminate].
  apply Nat.eqb_eq in E. intros [= <-].
  clear - E. revert v E; induction y as [|a y IH]; intros [|b v] E;
    try discriminate; [reflexivity|].
  simpl. f_equal. apply IH. simpl in E. lia.
Qed.

(** A call that returns stores its argument in [uOld]. *)
Lemma ConvergenceCheck_uOld (fe fe' : FE_Evolution) (dt tol res : T)
    (u : list T) :
  ConvergenceCheck fe dt tol u = Some (res, fe') -> uOld fe' = u.
Proof.
  unfold ConvergenceCheck. cbv zeta.
  destruct (Vector_sub_assign u (uOld fe)) as [z1|]; [|discriminate].
  cbn [bind].
  match goal with
  | |- bind ?m _ = _ -> _ => destruct m as [r|]; [|discriminate]
  end.
  cbn [bind]. intros [= _ <-]. reflexivity.
Qed.

(** A call on which the library checks pass returns. *)
Lemma ConvergenceCheck_defined (fe : FE_Evolution) (dt tol : T) (u : list T) :
  checkable fe u = true ->
  exists res fe', ConvergenceCheck fe dt tol u = Some (res, fe').
Proof.
  unfold checkable, ConvergenceCheck. cbv zeta.
  destruct (Vector_sub_assign u (uOld fe)) as [z1|] eqn:Ez; [|discriminate].
  cbn [bind].
  destruct (negb (SteadyState (hyp fe))).
  - destruct (MassMat fe z1 (uOld fe)) as [w|]; [|discriminate].
    intros _. cbn [bind]. eauto.
  - intros H. apply Nat.leb_le in H.
    apply Vector_sub_assign_length in Ez.
    destruct (lumped_sum_defined (LumpedMassMat fe) z1 (length u) 0 zero)
      as [r Er]; [simpl; lia | simpl; lia |].
    rewrite Er. cbn [bind]. eauto.
Qed.

(** C10: the tolerance is not read.  Two calls that differ only in [tol]
    have the same outcome, residual and state alike; a call that returns
    leaves its argument in [uOld]; and a call whose sizes pass the library
    checks does return. *)
Theorem ConvergenceCheck_ignores_tol (fe : FE_Evolution) (dt tol1 tol2 : T)
    (u : list T) :
  ConvergenceCheck fe dt tol1 u = ConvergenceCheck fe dt tol2 u
  /\ (forall res fe',
        ConvergenceCheck fe dt tol1 u = Some (res, fe') -> uOld fe' = u)
  /\ (checkable fe u = true ->
      exists res fe',
        ConvergenceCheck fe dt tol1 u = Some (res, fe')
        /\ ConvergenceCheck fe dt tol2 u = Some (res, fe')
        /\ uOld fe' = u).
Proof.
  split; [reflexivity|]. split.
  - intros res fe' E. exact (ConvergenceCheck_uOld fe fe' dt tol1 res u E).
  - intros Hc.
    destruct (ConvergenceCheck_defined fe dt tol1 u Hc) as (res & fe' & E).
    exists res, fe'. split; [exact E|]. split; [exact E|].
    exact (ConvergenceCheck_uOld fe fe' dt tol1 res u E).
Qed.

End ConvergenceCheckProofs.

Section ConvergenceCheckRuns.

Import Hypsys.

(** The state [(4, 6)] after [(1, 2)], with the tolerances 1 and 0. *)
Lemma ConvergenceCheck_ignores_tol_witness :
  checkable (T := R) (sample_fe false) [4; 6]%R = true
  /\ exists res fe',
       ConvergenceCheck (sample_fe false) 1%R 1%R [4; 6]%R = Some (res, fe')
       /\ ConvergenceCheck (sample_fe false) 1%R 0%R [4; 6]%R = Some (res, fe')
       /\ uOld fe' = [4; 6]%R.
Proof.
  split; [reflexivity|].
  exact (proj2 (proj2 (ConvergenceCheck_ignores_tol (sample_fe false)
                         1%R 1%R 0%R [4; 6]%R)) eq_refl).
Defined.

(** On binary64 numbers, in the steady-state branch: the difference is
    [(3, 4)], its lumped norm is 5, and with [dt = 0.5] the residual is 10
    whatever the tolerance. *)
Example ConvergenceCheck_run_float :
  option_map fst
    (ConvergenceCheck (T := PrimFloat.float) (sample_fe true)
       s_half (num 7) [num 4; num 6]) = Some (num 10)
  /\ option_map (fun r => uOld (snd r))
       (ConvergenceCheck (T := PrimFloat.float) (sample_fe true)
          s_half (num 0) [num 4; num 6]) = Some [num 4; num 6].
Proof. split; vm_compute; reflexivity. Qed.

End ConvergenceCheckRuns.

(** * Properties of the driver *)

Section TraceLemmas.

Import ExNDH1.

Lemma collect_app (A : Type) (f : Event -> option A) (t1 t2 : list Event) :
  collect f (t1 ++ t2) = collect f t1 ++ collect f t2.
Proof.
  induction t1 as [|ev t1 IH]; simpl; [reflexivity|].
  destruct (f ev); rewrite IH; reflexivity.
Qed.

Lemma collect_repeat (A : Type) (f : Event -> option A) (ev : Event) (n : nat) :
  collect f (repeat ev n)
  = match f ev with Some a => repeat a n | None => [] end.
Proof.
  induction n as [|n IH]; simpl.
  - destruct (f ev); reflexivity.
  - rewrite IH. destruct (f ev); reflexivity.
Qed.

Lemma filter_repeat_false (p : Event -> bool) (ev : Event) (n : nat) :
  p ev = false -> filter p (repeat ev n) = [].
Proof.
  intros H. induction n as [|n IH]; simpl; [reflexivity|].
  rewrite H. exact IH.
Qed.

Lemma forallb_repeat (p : Event -> bool) (ev : Event) (n : nat) :
  p ev = true -> forallb p (repeat ev n) = true.
Proof.
  intros H. induction n as [|n IH]; simpl; [reflexivity|].
  rewrite H. exact IH.
Qed.










(** A run with well-formed arguments, split at the loop of serial
    refinements. *)
Lemma trace_good (env : Env) :
  args_Good env = true ->
  trace env
  = before_mesh env
    ++ Mesh_new (mesh_file env)
       :: repeat Mesh_UniformRefinement (Z.to_nat (ref_levels env))
    ++ after_serial_refinement env.
Proof.
  intros Hg. unfold trace, main. rewrite Hg. cbn [negb fst].
  unfold step_3_5, after_serial_refinement, before_mesh, times.
  change (Z.to_nat 1) with 1%nat. cbn [repeat].
  repeat rewrite <- app_assoc. reflexivity.
Qed.

(** A run with malformed arguments. *)
Lemma trace_bad (env : Env) :
  args_Good env = false ->
  trace env = step_1 ++ step_2 ++ on_root env [PrintUsage] ++ [MPI_Finalize].
Proof.
  intros Hg. unfold trace, main. rewrite Hg. cbn [negb fst].
  repeat rewrite <- app_assoc. reflexivity.
Qed.

Lemma collect_trace_good (A : Type) (f : Event -> option A) (env : Env) :
  args_Good env = true ->
  collect f (trace env)
  = collect f (before_mesh env)
    ++ collect f [Mesh_new (mesh_file env)]
    ++ match f Mesh_UniformRefinement with
       | Some a => repeat a (Z.to_nat (ref_levels env))
       | None => []
       end
    ++ collect f (after_serial_refinement env).
Proof.
  intros Hg. rewrite (trace_good env Hg).
  rewrite collect_app.
  change (Mesh_new (mesh_file env)
          :: repeat Mesh_UniformRefinement (Z.to_nat (ref_levels env))
          ++ after_serial_refinement env)
    with ([Mesh_new (mesh_file env)]
          ++ repeat Mesh_UniformRefinement (Z.to_nat (ref_levels env))
          ++ after_serial_refinement env).
  rewrite !collect_app, collect_repeat. reflexivity.
Qed.

Lemma filter_trace_good (p : Event -> bool) (env : Env) :
  args_Good env = true ->
  p Mesh_UniformRefinement = false ->
  filter p (trace env)
  = filter p (before_mesh env)
    ++ filter p [Mesh_new (mesh_file env)]
    ++ filter p (after_serial_refinement env).
Proof.
  intros Hg Hp. rewrite (trace_good env Hg).
  rewrite filter_app.
  change (Mesh_new (mesh_file env)
          :: repeat Mesh_UniformRefinement (Z.to_nat (ref_levels env))
          ++ after_serial_refinement env)
    with ([Mesh_new (mesh_file env)]
          ++ repeat Mesh_UniformRefinement (Z.to_nat (ref_levels env))
          ++ after_serial_refinement env).
  rewrite !filter_app, (filter_repeat_false p _ _ Hp). reflexivity.
Qed.

Lemma existsb_filter (p : Event -> bool) (tr : list Event) :
  existsb p tr = match filter p tr with [] => false | _ :: _ => true end.
Proof.
  induction tr as [|ev tr IH]; simpl; [reflexivity|].
  destruct (p ev); [reflexivity|exact IH].
Qed.


End TraceLemmas.

(** ** The names of the output files *)

Section FileNames.

Import ExNDH1.
Local Open Scope Z_scope.

Lemma digit_code (d : Z) :
  0 <= d < 10 -> Z.of_nat (nat_of_ascii (digit d)) = 48 + d.
Proof.
  intros Hd. unfold digit. rewrite nat_ascii_embedding by lia. lia.
Qed.

Lemma digit_is_digit (d : Z) : 0 <= d < 10 -> is_digit (digit d) = true.
Proof.
  intros Hd. pose proof (digit_code d Hd) as E. unfold is_digit.
  apply andb_true_iff. split; apply Nat.leb_le; lia.
Qed.

(** Reading back what [digits_of] prints gives the number. *)
Lemma value_digits_of (fuel : nat) (n : Z) (acc : string) :
  0 <= n < 2 ^ Z.of_nat fuel ->
  value (digits_of fuel n acc) 0 = value acc n.
Proof.
  revert n acc; induction fuel as [|fuel IH]; intros n acc Hn.
  - change (2 ^ Z.of_nat 0) with 1 in Hn. replace n with 0 by lia.
    reflexivity.
  - rewrite Nat2Z.inj_succ, Z.pow_succ_r in Hn by lia.
    pose proof (Z.mod_pos_bound n 10 ltac:(lia)) as Hm.
    pose proof (Z.div_mod n 10 ltac:(lia)) as Hdm.
    cbn [digits_of]. destruct (n / 10 =? 0) eqn:E.
    + apply Z.eqb_eq in E. cbn [value]. rewrite digit_code by exact Hm.
      f_equal. lia.
    + rewrite IH by (split; [apply Z.div_pos; lia|
                             apply Z.div_lt_upper_bound; lia]).
      cbn [value]. rewrite digit_code by exact Hm. f_equal. lia.
Qed.

Lemma all_digits_digits_of (fuel : nat) (n : Z) (acc : string) :
  all_digits acc = true -> all_digits (digits_of fuel n acc) = true.
Proof.
  revert n acc; induction fuel as [|fuel IH]; intros n acc Hacc;
    [exact Hacc|].
  assert (H' : all_digits (String (digit (n mod 10)) acc) = true).
  { cbn [all_digits]. rewrite digit_is_digit, Hacc; [reflexivity|].
    apply Z.mod_pos_bound. lia. }
  cbn [digits_of]. destruct (n / 10 =? 0); [exact H'|].
  apply IH, H'.
Qed.

(** A number below [10 ^ k] has at most [k] digits. *)
Lemma length_digits_of (fuel : nat) (n : Z) (acc : string) (k : nat) :
  0 <= n < 10 ^ Z.of_nat k -> (1 <= k)%nat ->
  (String.length (digits_of fuel n acc) <= k + String.length acc)%nat.
Proof.
  revert n acc k; induction fuel as [|fuel IH]; intros n acc k Hn Hk.
  - cbn [digits_of]. lia.
  - cbn [digits_of]. destruct (n / 10 =? 0) eqn:E.
    + cbn [String.length]. lia.
    + apply Z.eqb_neq in E.
      destruct k as [|k]; [lia|].
      rewrite Nat2Z.inj_succ, Z.pow_succ_r in Hn by lia.
      assert (Hq : 0 <= n / 10 < 10 ^ Z.of_nat k)
        by (split; [apply Z.div_pos; lia|apply Z.div_lt_upper_bound; lia]).
      destruct k as [|k].
      * change (10 ^ Z.of_nat 0) with 1 in Hq. lia.
      * specialize (IH (n / 10) (String (digit (n mod 10)) acc) (S k) Hq
                      ltac:(lia)).
        cbn [String.length] in IH. lia.
Qed.

Lemma fuel_enough (n : Z) :
  0 <= n -> n < 2 ^ Z.of_nat (S (Z.to_nat (Z.log2 n))).
Proof.
  intros Hn. pose proof (Z.log2_nonneg n) as Hl.
  rewrite Nat2Z.inj_succ, Z2Nat.id by exact Hl.
  destruct (Z.eq_dec n 0) as [->|Hz].
  - reflexivity.
  - apply Z.log2_spec. lia.
Qed.

Lemma fill_length (c : ascii) (k : nat) (s : string) :
  String.length (fill c k s) = (k + String.length s)%nat.
Proof. induction k as [|k IH]; simpl; [reflexivity|]. now rewrite IH. Qed.

Lemma value_fill (k : nat) (s : string) :
  value (fill "0"%char k s) 0 = value s 0.
Proof. induction k as [|k IH]; [reflexivity|]. exact IH. Qed.

Lemma all_digits_fill (k : nat) (s : string) :
  all_digits s = true -> all_digits (fill "0"%char k s) = true.
Proof. intros H. induction k as [|k IH]; [exact H|]. exact IH. Qed.

Lemma decimal_nonneg (n : Z) :
  0 <= n -> decimal n = digits_of (S (Z.to_nat (Z.log2 n))) n "".
Proof.
  intros Hn. unfold decimal.
  destruct (n <? 0) eqn:E; [apply Z.ltb_lt in E; lia|reflexivity].
Qed.

(** The suffix of a file name denotes the rank. *)
Lemma setfill0_setw6_value (n : Z) :
  0 <= n -> value (setfill0_setw6 n) 0 = n.
Proof.
  intros Hn. unfold setfill0_setw6. rewrite value_fill, decimal_nonneg by exact Hn.
  rewrite value_digits_of by (split; [exact Hn|apply fuel_enough, Hn]).
  reflexivity.
Qed.

(** A rank below one million is printed on six characters. *)
Lemma setfill0_setw6_length (n : Z) :
  0 <= n < 1000000 -> String.length (setfill0_setw6 n) = 6%nat.
Proof.
  intros Hn. unfold setfill0_setw6.
  rewrite fill_length, decimal_nonneg by lia.
  pose proof (length_digits_of (S (Z.to_nat (Z.log2 n))) n "" 6
                ltac:(change (10 ^ Z.of_nat 6) with 1000000; lia)
                ltac:(lia)) as H.
  cbn [String.length] in H. lia.
Qed.

(** A rank that is not negative is printed with digits only. *)
Lemma setfill0_setw6_all_digits (n : Z) :
  0 <= n -> all_digits (setfill0_setw6 n) = true.
Proof.
  intros Hn. unfold setfill0_setw6.
  apply all_digits_fill. rewrite decimal_nonneg by lia.
  apply all_digits_digits_of. reflexivity.
Qed.

(** Different ranks are printed differently. *)
Lemma setfill0_setw6_inj (n m : Z) :
  0 <= n -> 0 <= m -> setfill0_setw6 n = setfill0_setw6 m -> n = m.
Proof.
  intros Hn Hm E.
  rewrite <- (setfill0_setw6_value n Hn), <- (setfill0_setw6_value m Hm), E.
  reflexivity.
Qed.

(** X1: For a rank below one million the suffix is six decimal digits. *)
Lemma setfill0_setw6_six_digits (n : Z) :
  0 <= n < 1000000 ->
  String.length (setfill0_setw6 n) = 6%nat
  /\ all_digits (setfill0_setw6 n) = true.
Proof.
  intros Hn. split.
  - apply setfill0_setw6_length, Hn.
  - apply setfill0_setw6_all_digits. lia.
Qed.

(** X2: Two ranks do not write to the same files. *)
Lemma file_names_distinct (env1 env2 : Env) :
  0 <= myid env1 -> 0 <= myid env2 -> myid env1 <> myid env2 ->
  mesh_name env1 <> mesh_name env2 /\ sol_name env1 <> sol_name env2.
Proof.
  intros H1 H2 Hne. unfold mesh_name, sol_name.
  split; intros E; cbn [append] in E; injection E as E; apply Hne;
    rewrite <- (setfill0_setw6_value (myid env1) H1),
            <- (setfill0_setw6_value (myid env2) H2), E; reflexivity.
Qed.

End FileNames.

Ltac unfold_steps :=
  unfold ExNDH1.before_mesh, ExNDH1.after_serial_refinement,
    ExNDH1.step_1, ExNDH1.step_2, ExNDH1.step_6, ExNDH1.step_7,
    ExNDH1.step_8, ExNDH1.step_9, ExNDH1.step_10, ExNDH1.step_11,
    ExNDH1.step_12, ExNDH1.step_13, ExNDH1.step_14,
    ExNDH1.on_root, ExNDH1.when.

Ltac split_on_flags env :=
  destruct (ExNDH1.myid env =? 0)%Z, (ExNDH1.pa env),
    (ExNDH1.static_cond env), (ExNDH1.visualization env).

Section DriverProofs.

Import ExNDH1.


(** C3: when parsing fails the run returns 1; the usage message is
    printed once on rank 0 and not at all on the other ranks; the last
    call finalizes MPI, and nothing before it does; no mesh, finite
    element collection or space, form, matrix or solver is created. *)
Theorem main_rejects_bad_arguments (env : Env) :
  args_Good env = false ->
  exit_code env = 1%Z
  /\ filter is_PrintUsage (trace env)
     = (if (myid env =? 0)%Z then [PrintUsage] else [])
  /\ (exists pre, trace env = pre ++ [MPI_Finalize]
                  /\ filter is_MPI_Finalize pre = [])
  /\ forallb (fun ev => negb (builds ev)) (trace env) = true.
Proof.
  intros Hg. split; [|split; [|split]].
  - unfold exit_code, main. rewrite Hg. reflexivity.
  - rewrite (trace_bad env Hg). unfold step_1, step_2, on_root.
    destruct (myid env =? 0)%Z; reflexivity.
  - exists (step_1 ++ step_2 ++ on_root env [PrintUsage]). split.
    + rewrite (trace_bad env Hg). repeat rewrite <- app_assoc. reflexivity.
    + unfold step_1, step_2, on_root.
      destruct (myid env =? 0)%Z; reflexivity.
  - rewrite (trace_bad env Hg). unfold step_1, step_2, on_root.
    destruct (myid env =? 0)%Z; reflexivity.
Qed.

(** C4: whatever the arguments, the run registers five options and no
    other: the mesh file as -m, the order as -o, and the three toggles
    -sc/-no-sc, -pa/-no-pa and -vis/-no-vis, in this order. *)
Theorem main_registers_five_options (env : Env) :
  registered (trace env)
  = [option_mesh; option_order; option_static_cond; option_pa;
     option_visualization]
  /\ map (fun o => (target o, short_name o, option_map fst (disable_names o)))
       (registered (trace env))
     = [(opt_mesh_file, "-m"%string, None);
        (opt_order, "-o"%string, None);
        (opt_static_cond, "-sc"%string, Some "-no-sc"%string);
        (opt_pa, "-pa"%string, Some "-no-pa"%string);
        (opt_visualization, "-vis"%string, Some "-no-vis"%string)].
Proof.
  assert (E : registered (trace env)
              = [option_mesh; option_order; option_static_cond; option_pa;
                 option_visualization]).
  { unfold registered. destruct (args_Good env) eqn:Hg.
    - rewrite (collect_trace_good _ _ env Hg). unfold_steps.
      split_on_flags env; reflexivity.
    - rewrite (trace_bad env Hg). unfold step_1, step_2, on_root.
      destruct (myid env =? 0)%Z; reflexivity. }
  split; [exact E|]. rewrite E. reflexivity.
Qed.

(** C5: a run with well-formed arguments returns 0, opens two files,
    named "mesh." and "sol." followed by one suffix, prints the mesh into
    the first and saves the solution into the second, whatever the flags.
    For a rank that is not negative the suffix consists of decimal digits
    and denotes the rank; for a rank below one million it has six
    characters.  Runs of different ranks open different files.  The run
    opens the socket and sends the mesh and the solution over it when the
    visualization flag is set, and makes no call on a socket when it is
    not. *)
Theorem main_writes_outputs (env : Env) :
  args_Good env = true ->
  exit_code env = 0%Z
  /\ files_opened (trace env) = [mesh_name env; sol_name env]
  /\ filter is_file_write (trace env)
     = [pmesh_Print (mesh_name env); x_Save (sol_name env)]
  /\ (exists suffix : string,
        files_opened (trace env)
        = [("mesh." ++ suffix)%string; ("sol." ++ suffix)%string]
        /\ filter is_file_write (trace env)
           = [pmesh_Print ("mesh." ++ suffix); x_Save ("sol." ++ suffix)]
        /\ ((0 <= myid env)%Z ->
            all_digits suffix = true /\ value suffix 0 = myid env)
        /\ ((0 <= myid env < 1000000)%Z -> String.length suffix = 6))
  /\ (forall env' : Env,
        args_Good env' = true ->
        (0 <= myid env)%Z -> (0 <= myid env')%Z -> myid env <> myid env' ->
        forall name, In name (files_opened (trace env)) ->
                     ~ In name (files_opened (trace env')))
  /\ filter is_socket (trace env)
     = (if visualization env
        then [socketstream_open "localhost" 19916;
              sock_header (num_procs env) (myid env);
              sock_precision 8;
              sock_solution]
        else [])
  /\ existsb is_socket (trace env) = visualization env.
Proof.
  intros Hg.
  assert (Es : filter is_socket (trace env)
               = (if visualization env
                  then [socketstream_open "localhost" 19916;
                        sock_header (num_procs env) (myid env);
                        sock_precision 8;
                        sock_solution]
                  else [])).
  { rewrite (filter_trace_good _ env Hg eq_refl). unfold_steps.
    split_on_flags env; reflexivity. }
  assert (Ef : forall e, args_Good e = true ->
                 files_opened (trace e) = [mesh_name e; sol_name e]).
  { intros e He. unfold files_opened. rewrite (collect_trace_good _ _ e He).
    unfold_steps. split_on_flags e; reflexivity. }
  assert (Ew : filter is_file_write (trace env)
               = [pmesh_Print (mesh_name env); x_Save (sol_name env)]).
  { rewrite (filter_trace_good _ env Hg eq_refl). unfold_steps.
    split_on_flags env; reflexivity. }
  split; [|split; [|split; [|split; [|split; [|split]]]]].
  - unfold exit_code, main. rewrite Hg. reflexivity.
  - exact (Ef env Hg).
  - exact Ew.
  - exists (setfill0_setw6 (myid env)).
    split; [exact (Ef env Hg)|]. split; [exact Ew|]. split.
    + intros H0. split.
      * apply setfill0_setw6_all_digits, H0.
      * apply setfill0_setw6_value, H0.
    + intros H0. apply setfill0_setw6_length, H0.
  - intros env' Hg' H0 H0' Hne name Hin Hin'.
    rewrite (Ef env Hg) in Hin. rewrite (Ef env' Hg') in Hin'.
    unfold mesh_name, sol_name in Hin, Hin'. cbn [In append] in Hin, Hin'.
    destruct Hin as [<-|[<-|[]]]; destruct Hin' as [E|[E|[]]];
      try discriminate E; injection E as E;
      apply Hne, (setfill0_setw6_inj _ _ H0 H0'); symmetry; exact E.
  - exact Es.
  - rewrite existsb_filter, Es. destruct (visualization env); reflexivity.
Qed.

End DriverProofs.

Section DriverRuns.

Import ExNDH1.

(** Rank 2 of a run whose arguments do not parse. *)
Lemma main_rejects_bad_arguments_witness :
  args_Good (sample_env false true 2) = false
  /\ exit_code (sample_env false true 2) = 1%Z
  /\ filter is_PrintUsage (trace (sample_env false true 2)) = [].
Proof.
  split; [reflexivity|].
  pose proof (main_rejects_bad_arguments (sample_env false true 2) eq_refl)
    as (Hc & Hu & _).
  split; [exact Hc|exact Hu].
Defined.

(** Rank 17 of a run without visualization. *)
Lemma main_writes_outputs_witness :
  args_Good (sample_env true false 17) = true
  /\ files_opened (trace (sample_env true false 17))
     = ["mesh.000017"%string; "sol.000017"%string]
  /\ existsb is_socket (trace (sample_env true false 17)) = false.
Proof.
  split; [reflexivity|].
  pose proof (main_writes_outputs (sample_env true false 17) eq_refl)
    as (_ & Hf & _ & _ & _ & _ & Hs).
  split; [exact Hf|exact Hs].
Defined.


(** The printing of some numbers; the fill goes in front of a sign. *)
Example decimal_runs :
  decimal 0 = "0"%string /\ decimal 42 = "42"%string
  /\ decimal (-5) = "-5"%string /\ setfill0_setw6 (-5) = "0000-5"%string.
Proof. repeat split. Qed.

(** The file names of some ranks; a rank of more than six digits is
    printed in full. *)
Example file_names :
  mesh_name (sample_env true true 0) = "mesh.000000"%string
  /\ sol_name (sample_env true true 0) = "sol.000000"%string
  /\ mesh_name (sample_env true true 123456) = "mesh.123456"%string
  /\ sol_name (sample_env true true 1234567) = "sol.1234567"%string.
Proof. repeat split. Qed.

(** The calls of rank 1 when the arguments do not parse. *)
Example main_bad_arguments_run :
  main (sample_env false true 1)
  = ([MPI_Init; MPI_Comm_size; MPI_Comm_rank; OptionsParser_new;
      AddOption option_mesh; AddOption option_order;
      AddOption option_static_cond; AddOption option_pa;
      AddOption option_visualization; Parse; MPI_Finalize], 1%Z).
Proof. reflexivity. Qed.

End DriverRuns.

(** * Further properties of the driver *)

Section DriverFurther.

Import ExNDH1.

Lemma filter_repeat_true (p : Event -> bool) (ev : Event) (n : nat) :
  p ev = true -> filter p (repeat ev n) = repeat ev n.
Proof.
  intros H. induction n as [|n IH]; simpl; [reflexivity|].
  rewrite H, IH. reflexivity.
Qed.

Lemma heap_after_app (live : list Owned) (t1 t2 : list Event) :
  heap_after live (t1 ++ t2)
  = match heap_after live t1 with
    | Some live' => heap_after live' t2
    | None => None
    end.
Proof.
  revert live; induction t1 as [|ev t1 IH]; intros live; [reflexivity|].
  cbn [app heap_after].
  destruct (allocates ev) as [o|], (frees ev) as [o'|];
    try destruct (is_live _ live); try reflexivity; apply IH.
Qed.

Lemma heap_after_repeat (live : list Owned) (ev : Event) (n : nat) :
  allocates ev = None -> frees ev = None ->
  heap_after live (repeat ev n) = Some live.
Proof.
  intros Ha Hf. induction n as [|n IH]; [reflexivity|].
  cbn [repeat heap_after]. rewrite Ha, Hf. exact IH.
Qed.

Lemma filter_trace_split (p : Event -> bool) (env : Env) :
  args_Good env = true ->
  filter p (trace env)
  = filter p (before_mesh env)
    ++ filter p [Mesh_new (mesh_file env)]
    ++ filter p (repeat Mesh_UniformRefinement (Z.to_nat (ref_levels env)))
    ++ filter p (after_serial_refinement env).
Proof.
  intros Hg. rewrite (trace_good env Hg).
  rewrite filter_app.
  change (Mesh_new (mesh_file env)
          :: repeat Mesh_UniformRefinement (Z.to_nat (ref_levels env))
          ++ after_serial_refinement env)
    with ([Mesh_new (mesh_file env)]
          ++ repeat Mesh_UniformRefinement (Z.to_nat (ref_levels env))
          ++ after_serial_refinement env).
  rewrite !filter_app. reflexivity.
Qed.



(** X4: Only rank 0 prints: the options, the number of unknowns and the error
    on a run with well-formed arguments, the usage message otherwise.  The
    other ranks print nothing. *)
Theorem main_prints_on_root_only (env : Env) :
  filter is_cout (trace env)
  = if (myid env =? 0)%Z
    then (if args_Good env
          then [PrintOptions; cout_unknowns; cout_error]
          else [PrintUsage])
    else [].
Proof.
  destruct (args_Good env) eqn:Hg.
  - rewrite (filter_trace_good _ env Hg eq_refl). unfold_steps.
    split_on_flags env; reflexivity.
  - rewrite (trace_bad env Hg). unfold step_1, step_2, on_root.
    destruct (myid env =? 0)%Z; reflexivity.
Qed.

(** X5: Every object that [main] creates with [new] or receives from
    [ParallelAssemble] is deleted by [main], once and after its creation,
    by the end of the run, the two integrators excepted: [main] creates
    them in the arguments of [AddDomainIntegrator] and deletes neither.
    Nothing is deleted that is not alive.  This holds for every
    combination of the flags; on the early return nothing has been
    created. *)
Theorem main_frees_what_it_allocates (env : Env) :
  heap_after [] (trace env)
  = Some (if args_Good env then [own_integ_a_NDH1; own_integ_a] else []).
Proof.
  destruct (args_Good env) eqn:Hg.
  - rewrite (trace_good env Hg).
    rewrite heap_after_app.
    assert (Hb : heap_after [] (before_mesh env) = Some []).
    { unfold_steps. destruct (myid env =? 0)%Z; reflexivity. }
    rewrite Hb.
    change (heap_after [] (Mesh_new (mesh_file env) :: ?l))
      with (heap_after [own_mesh] l).
    rewrite heap_after_app, heap_after_repeat by reflexivity.
    unfold_steps. split_on_flags env; reflexivity.
  - rewrite (trace_bad env Hg). unfold step_1, step_2, on_root.
    destruct (myid env =? 0)%Z; reflexivity.
Qed.

(** X6: The visualization flag has no influence on anything but the traffic
    on the socket: with the socket calls removed, the runs with and
    without the flag make the same calls. *)
Theorem main_visualization_only_socket (env : Env) (b : bool) :
  filter (fun ev => negb (is_socket ev)) (trace (with_visualization env b))
  = filter (fun ev => negb (is_socket ev)) (trace env)
  /\ exit_code (with_visualization env b) = exit_code env.
Proof.
  split;
    [|unfold exit_code, main; cbn [with_visualization args_Good];
      destruct (args_Good env); reflexivity].
  destruct (args_Good env) eqn:Hg.
  - rewrite (filter_trace_split (fun ev => negb (is_socket ev))
               (with_visualization env b) Hg).
    rewrite (filter_trace_split (fun ev => negb (is_socket ev)) env Hg).
    unfold_steps.
    change (mesh_name (with_visualization env b)) with (mesh_name env).
    change (sol_name (with_visualization env b)) with (sol_name env).
    cbn [with_visualization myid pa static_cond visualization mesh_file
         order dim num_procs ref_levels].
    generalize (mesh_name env), (sol_name env),
      (Z.to_nat (ref_levels env)).
    intros mn sn levels.
    split_on_flags env; destruct b; cbn [filter app negb is_socket];
      reflexivity.
  - rewrite (trace_bad (with_visualization env b) Hg), (trace_bad env Hg).
    reflexivity.
Qed.

(** X7: The static-condensation flag adds one call,
    [a->EnableStaticCondensation()], and changes nothing else. *)
Theorem main_static_cond_one_call (env : Env) (b : bool) :
  filter (fun ev => negb (is_EnableStaticCondensation ev))
    (trace (with_static_cond env b))
  = trace (with_static_cond env false)
  /\ (args_Good env = true ->
      filter is_EnableStaticCondensation (trace (with_static_cond env b))
      = if b then [EnableStaticCondensation] else []).
Proof.
  destruct (args_Good env) eqn:Hg.
  - assert (E : forall c,
               trace (with_static_cond env c)
               = (before_mesh env
                  ++ Mesh_new (mesh_file env)
                     :: repeat Mesh_UniformRefinement
                          (Z.to_nat (ref_levels env)))
                 ++ after_serial_refinement (with_static_cond env c)).
    { intros c. rewrite (trace_good (with_static_cond env c) Hg).
      rewrite <- app_assoc. reflexivity. }
    split.
    + rewrite (E b), (E false), filter_app. f_equal.
      * rewrite filter_app. cbn [filter is_EnableStaticCondensation negb].
        rewrite filter_repeat_true by reflexivity.
        f_equal. unfold_steps. destruct (myid env =? 0)%Z; reflexivity.
      * unfold_steps.
        change (mesh_name (with_static_cond env b)) with (mesh_name env).
        change (sol_name (with_static_cond env b)) with (sol_name env).
        change (mesh_name (with_static_cond env false)) with (mesh_name env).
        change (sol_name (with_static_cond env false)) with (sol_name env).
        cbn [with_static_cond myid pa static_cond visualization mesh_file
             order dim num_procs].
        generalize (mesh_name env), (sol_name env). intros mn sn.
        destruct (myid env =? 0)%Z, (pa env), (visualization env), b;
          reflexivity.
    + intros _.
      rewrite (filter_trace_good _ (with_static_cond env b) Hg eq_refl).
      unfold_steps.
      change (mesh_name (with_static_cond env b)) with (mesh_name env).
      change (sol_name (with_static_cond env b)) with (sol_name env).
      cbn [with_static_cond myid pa static_cond visualization mesh_file
           order dim num_procs].
      generalize (mesh_name env), (sol_name env). intros mn sn.
      destruct (myid env =? 0)%Z, (pa env), (visualization env), b;
        reflexivity.
  - split; [|discriminate].
    rewrite (trace_bad (with_static_cond env b) Hg),
            (trace_bad (with_static_cond env false) Hg).
    unfold step_1, step_2, on_root. cbn [with_static_cond myid].
    destruct (myid env =? 0)%Z; reflexivity.
Qed.

(** X8: With partial assembly no matrix is assembled and hypre's solver is
    not used: the system is solved by one call of CG.  With full assembly
    none of the calls of partial assembly is made and the system is solved
    by one call of hypre's PCG. *)
Theorem main_assembly_paths (env : Env) :
  args_Good env = true ->
  if pa env
  then filter is_full_assembly (trace env) = []
       /\ filter is_solve (trace env) = [CG_Mult gf_rhs gf_x]
  else filter is_partial_assembly (trace env) = []
       /\ filter is_solve (trace env) = [PCG_Mult vec_B vec_X].
Proof.
  intros Hg.
  pose proof (filter_trace_good is_full_assembly env Hg eq_refl) as E1.
  pose proof (filter_trace_good is_partial_assembly env Hg eq_refl) as E2.
  pose proof (filter_trace_good is_solve env Hg eq_refl) as E3.
  rewrite E1, E2, E3. unfold_steps.
  split_on_flags env; split; reflexivity.
Qed.

(** X9: The loop of serial refinements makes [ref_levels] calls, for the
    value that [ref_levels] has when the loop starts, and none when that
    value is zero or negative; the parallel mesh is refined once. *)
Theorem main_refinements (env : Env) :
  args_Good env = true ->
  filter is_serial_refinement (trace env)
  = repeat Mesh_UniformRefinement (Z.to_nat (ref_levels env))
  /\ ((ref_levels env <= 0)%Z ->
      filter is_serial_refinement (trace env) = [])
  /\ filter is_parallel_refinement (trace env) = [ParMesh_UniformRefinement].
Proof.
  intros Hg.
  assert (E : filter is_serial_refinement (trace env)
              = repeat Mesh_UniformRefinement (Z.to_nat (ref_levels env))).
  { rewrite (trace_good env Hg), filter_app.
    cbn [filter is_serial_refinement].
    rewrite filter_app, filter_repeat_true by reflexivity.
    assert (Ha : filter is_serial_refinement (after_serial_refinement env) = [])
      by (unfold_steps; split_on_flags env; reflexivity).
    assert (Hb : filter is_serial_refinement (before_mesh env) = [])
      by (unfold_steps; destruct (myid env =? 0)%Z; reflexivity).
    rewrite Ha, Hb, app_nil_r. reflexivity. }
  split; [exact E|]. split.
  - intros Hle. rewrite E.
    replace (Z.to_nat (ref_levels env)) with 0%nat by lia. reflexivity.
  - rewrite (filter_trace_good _ env Hg eq_refl). unfold_steps.
    split_on_flags env; reflexivity.
Qed.

End DriverFurther.

Section DriverFurtherRuns.

Import ExNDH1.

(** A run with partial assembly on rank 1. *)
Lemma main_assembly_paths_witness :
  args_Good (sample_env_pa true 1) = true
  /\ filter is_full_assembly (trace (sample_env_pa true 1)) = []
  /\ filter is_solve (trace (sample_env_pa true 1)) = [CG_Mult gf_rhs gf_x].
Proof.
  split; [reflexivity|].
  exact (main_assembly_paths (sample_env_pa true 1) eq_refl).
Defined.

(** A run in which [ref_levels] is negative. *)
Lemma main_refinements_witness :
  args_Good (sample_env_pa false (-1)) = true
  /\ (ref_levels (sample_env_pa false (-1)) <= 0)%Z
  /\ filter is_serial_refinement (trace (sample_env_pa false (-1))) = []
  /\ filter is_parallel_refinement (trace (sample_env_pa false (-1)))
     = [ParMesh_UniformRefinement].
Proof.
  split; [reflexivity|]. split; [cbn; lia|].
  pose proof (main_refinements (sample_env_pa false (-1)) eq_refl)
    as (_ & Hz & Hp).
  split; [apply Hz; cbn; lia|exact Hp].
Defined.

(** The flag of static condensation on a run with well-formed
    arguments. *)
Lemma main_static_cond_one_call_witness :
  args_Good (sample_env_pa false 1) = true
  /\ filter is_EnableStaticCondensation
       (trace (with_static_cond (sample_env_pa false 1) true))
     = [EnableStaticCondensation].
Proof.
  split; [reflexivity|].
  exact (proj2 (main_static_cond_one_call (sample_env_pa false 1) true)
           eq_refl).
Defined.

End DriverFurtherRuns.

(** * Further properties of the evolution operator *)

Section ConstructorFurther.

Import Hypsys.

Context {T : Type} `{ST : Scalar T}.

Variables (fes : FiniteElementSpace (T := T))
          (hyp_ : HyperbolicSystem (T := T)) (dofs : DofInfo).

Lemma prefix_L2_T2_L2 (s : string) :
  prefix "L2_T2" s = true -> prefix "L2" s = true.
Proof.
  destruct s as [|a [|b s]]; cbn [prefix]; try discriminate.
  - destruct (ascii_dec "L" a); discriminate.
  - destruct (ascii_dec "L" a); [|discriminate].
    destruct (ascii_dec "2" b); [|discriminate].
    destruct s; reflexivity.
Qed.

Lemma first_element_inward_false :
  first_element_inward fes dofs = false
  <-> forall i, i < NumBdrs dofs -> bdr_Elem1No fes i = 0%Z.
Proof.
  unfold first_element_inward. split.
  - intros H i Hi.
    destruct (Z.eq_dec (bdr_Elem1No fes i) 0) as [E|N]; [exact E|].
    assert (Ht : existsb (fun i => negb (bdr_Elem1No fes i =? 0)%Z)
                   (seq 0 (NumBdrs dofs)) = true).
    { apply existsb_exists. exists i. split.
      - apply in_seq. lia.
      - apply negb_true_iff, Z.eqb_neq, N. }
    rewrite H in Ht. discriminate.
  - intros H. apply not_true_is_false. intros Ht.
    apply existsb_exists in Ht as (i & Hin & Hi).
    apply in_seq in Hin. apply negb_true_iff, Z.eqb_neq in Hi.
    apply Hi, H. lia.
Qed.

(** X10: The third guard: on a Bernstein DG space the constructor aborts when a
    boundary of element 0 has another element as its first element. *)
Theorem ctor_rejects_inward_normal :
  prefix "L2_T2" (FEColl_Name fes) = true ->
  (exists i, i < NumBdrs dofs /\ bdr_Elem1No fes i <> 0%Z) ->
  FE_Evolution_ctor fes hyp_ dofs
  = Aborted "First element has inward pointing normal.".
Proof.
  intros Hname (i & Hi & Hne).
  unfold FE_Evolution_ctor. cbv zeta.
  rewrite guard_L2, guard_L2_T2, Hname, (prefix_L2_T2_L2 _ Hname).
  cbn [negb].
  destruct (first_element_inward fes dofs) eqn:E; [reflexivity|].
  elim Hne. exact (proj1 first_element_inward_false E i Hi).
Qed.

(** X11: The constructor yields an object exactly when the name of the
    collection begins with "L2_T2" and every boundary of element 0 has
    element 0 first.  The object then has [z] of the size of the space,
    an empty [uOld], and [Flux] and [FluxNbr] of [NumEq] rows and [dim]
    columns for the dimension of the mesh. *)
Theorem ctor_succeeds_iff :
  ((exists obj, FE_Evolution_ctor fes hyp_ dofs = Constructed obj)
   <-> (prefix "L2_T2" (FEColl_Name fes) = true
        /\ forall i, i < NumBdrs dofs -> bdr_Elem1No fes i = 0%Z))
  /\ forall obj,
       FE_Evolution_ctor fes hyp_ dofs = Constructed obj ->
       hyp obj = hyp_
       /\ dim obj = mesh_Dimension fes
       /\ length (z obj) = GetVSize fes
       /\ uOld obj = []
       /\ has_size (NumEq hyp_) (dim obj) (Flux obj) = true
       /\ has_size (NumEq hyp_) (dim obj) (FluxNbr obj) = true.
Proof.
  assert (Hsz : forall h w,
             has_size h w (repeat (repeat (zero (T := T)) w) h) = true).
  { intros h w. unfold has_size. rewrite repeat_length, Nat.eqb_refl.
    apply forallb_forall. intros r Hr. apply repeat_spec in Hr. subst r.
    rewrite repeat_length. apply Nat.eqb_refl. }
  unfold FE_Evolution_ctor. cbv zeta.
  rewrite guard_L2, guard_L2_T2.
  destruct (prefix "L2_T2" (FEColl_Name fes)) eqn:Hname.
  - rewrite (prefix_L2_T2_L2 _ Hname). cbn [negb].
    destruct (first_element_inward fes dofs) eqn:E.
    + split.
      * split; [intros (obj & H); discriminate|].
        intros (_ & H). rewrite (proj2 first_element_inward_false H) in E.
        discriminate.
      * intros obj H. discriminate.
    + split.
      * split; [|eauto].
        intros _. split; [reflexivity|].
        exact (proj1 first_element_inward_false E).
      * intros obj [= <-]. cbn.
        repeat split; try reflexivity; try apply Hsz.
        unfold Vector_new. apply repeat_length.
  - split.
    + split; [|intros (H & _); discriminate].
      destruct (prefix "L2" (FEColl_Name fes)); intros (obj & H);
        discriminate.
    + intros obj H.
      destruct (prefix "L2" (FEColl_Name fes)); discriminate.
Qed.

End ConstructorFurther.

Section ConstructorFurtherRuns.

Import Hypsys.

(** Boundary 2 of element 0 belongs first to element 5. *)
Lemma ctor_rejects_inward_normal_witness :
  prefix "L2_T2" (FEColl_Name (sample_fes_inward (T := R))) = true
  /\ (exists i, i < NumBdrs sample_dofs
                /\ bdr_Elem1No (sample_fes_inward (T := R)) i <> 0%Z)
  /\ FE_Evolution_ctor (sample_fes_inward (T := R)) (sample_hyp false)
       sample_dofs
     = Aborted "First element has inward pointing normal.".
Proof.
  assert (H : exists i, i < NumBdrs sample_dofs
                        /\ bdr_Elem1No (sample_fes_inward (T := R)) i <> 0%Z)
    by (exists 2; split; [cbn; lia|cbn; discriminate]).
  split; [reflexivity|]. split; [exact H|].
  exact (ctor_rejects_inward_normal (sample_fes_inward (T := R))
           (sample_hyp false) sample_dofs eq_refl H).
Defined.

(** The Bernstein DG space of the samples is accepted. *)
Lemma ctor_succeeds_iff_witness :
  exists obj,
    FE_Evolution_ctor (sample_fes (T := R) "L2_T2_2D_P1") (sample_hyp false)
      sample_dofs = Constructed obj
    /\ length (z obj) = 2 /\ uOld obj = [].
Proof.
  destruct (ctor_succeeds_iff (sample_fes (T := R) "L2_T2_2D_P1")
              (sample_hyp false) sample_dofs) as ((_ & Hex) & Hobj).
  destruct Hex as (obj & E).
  - split; [reflexivity|]. intros i _. reflexivity.
  - exists obj. split; [exact E|].
    destruct (Hobj obj E) as (_ & _ & Hz & Hu & _).
    split; [exact Hz|exact Hu].
Defined.

End ConstructorFurtherRuns.

Section ConvergenceCheckFurther.

Import Hypsys.
Local Open Scope R_scope.

Lemma Rsum_nonneg (n : nat) (f : nat -> R) :
  (forall t, 0 <= f t) -> 0 <= Rsum n f.
Proof.
  intros Hf. induction n as [|n IH]; simpl; [lra|].
  specialize (Hf n). lra.
Qed.

Lemma Rsum_zero_iff (n : nat) (f : nat -> R) :
  (forall t, 0 <= f t) ->
  Rsum n f = 0 <-> forall t, (t < n)%nat -> f t = 0.
Proof.
  intros Hf. induction n as [|n IH]; simpl.
  - split; [intros _ t Ht; lia|reflexivity].
  - pose proof (Rsum_nonneg n f Hf) as Hs. pose proof (Hf n) as Hn.
    split.
    + intros H t Ht. assert (Hz : Rsum n f = 0) by lra.
      destruct (Nat.eq_dec t n) as [->|Hne]; [lra|].
      apply (proj1 IH Hz). lia.
    + intros H. rewrite (proj2 IH) by (intros; apply H; lia).
      rewrite H by lia. lra.
Qed.

(** The loop over the lumped mass matrix adds up the squares of the
    products. *)
Lemma lumped_sum_value (L zv : list R) (n i : nat) (res r : R) :
  lumped_sum L zv n i res = Some r ->
  r = res + Rsum n (fun t => (nth (i + t) L 0 * nth (i + t) zv 0)
                             * (nth (i + t) L 0 * nth (i + t) zv 0)).
Proof.
  revert i res; induction n as [|n IH]; intros i res H.
  - injection H as <-. simpl. lra.
  - cbn [lumped_sum] in H. unfold Vector_at in H.
    destruct (nth_error L i) as [Li|] eqn:EL; [|discriminate].
    destruct (nth_error zv i) as [zi|] eqn:Ez; [|discriminate].
    cbn [bind] in H. apply IH in H. rewrite H, Rsum_shift.
    rewrite Nat.add_0_r.
    rewrite (nth_error_nth L i 0 EL), (nth_error_nth zv i 0 Ez).
    unfold s_pow2. cbn [s_add s_mul Scalar_R].
    rewrite (Rsum_ext n _ (fun t =>
               (nth (i + S t) L 0 * nth (i + S t) zv 0)
               * (nth (i + S t) L 0 * nth (i + S t) zv 0)))
      by (intros t _; rewrite Nat.add_succ_r; reflexivity).
    lra.
Qed.

(** The loop fails unless the lumped mass matrix has an entry for every
    index it visits. *)
Lemma lumped_sum_Some_length (L zv : list R) (n i : nat) (res r : R) :
  lumped_sum L zv n i res = Some r -> (0 < n)%nat ->
  (i + n <= length L)%nat.
Proof.
  revert i res; induction n as [|n IH]; intros i res H Hn; [lia|].
  cbn [lumped_sum] in H. unfold Vector_at in H.
  destruct (nth_error L i) as [Li|] eqn:EL; [|discriminate].
  destruct (nth_error zv i) as [zi|] eqn:Ez; [|discriminate].
  cbn [bind] in H.
  assert (Hi : (i < length L)%nat) by (apply nth_error_Some; congruence).
  destruct n as [|n]; [lia|].
  apply IH in H; lia.
Qed.

(** What a call computes in the steady-state branch. *)
Lemma ConvergenceCheck_steady (fe fe' : FE_Evolution) (dt tol res : R)
    (u : list R) :
  SteadyState (hyp fe) = true ->
  ConvergenceCheck fe dt tol u = Some (res, fe') ->
  length u = length (uOld fe)
  /\ (0 < length u -> length u <= length (LumpedMassMat fe))%nat
  /\ fe' = set_z_uOld fe (map2 Rminus u (uOld fe)) u
  /\ res = sqrt (Rsum (length u)
                   (fun t => (nth t (LumpedMassMat fe) 0
                              * (nth t u 0 - nth t (uOld fe) 0))
                             * (nth t (LumpedMassMat fe) 0
                                * (nth t u 0 - nth t (uOld fe) 0)))) / dt.
Proof.
  intros Hs. unfold ConvergenceCheck. cbv zeta. rewrite Hs. cbn [negb].
  unfold Vector_sub_assign.
  destruct (length u =? length (uOld fe))%nat eqn:El; [|discriminate].
  apply Nat.eqb_eq in El. cbn [bind].
  change (map2 s_sub u (uOld fe)) with (map2 Rminus u (uOld fe)).
  destruct (lumped_sum (LumpedMassMat fe) (map2 Rminus u (uOld fe))
              (length u) 0 zero) as [r|] eqn:Er; [|discriminate].
  cbn [bind]. intros [= <- <-].
  split; [exact El|]. split.
  - intros Hpos. apply (lumped_sum_Some_length _ _ _ 0 _ _ Er Hpos).
  - split; [reflexivity|].
    apply lumped_sum_value in Er. rewrite Er.
    change zero with 0. rewrite Rplus_0_l.
    cbn [s_div s_sqrt Scalar_R]. f_equal. f_equal.
    apply Rsum_ext. intros t Ht. cbn [Nat.add].
    rewrite map2_nth by lia. reflexivity.
Qed.

(** X12: The residual is never negative for a positive time step, in either
    branch. *)
Theorem ConvergenceCheck_nonneg (fe fe' : FE_Evolution) (dt tol res : R)
    (u : list R) :
  0 < dt ->
  ConvergenceCheck fe dt tol u = Some (res, fe') ->
  0 <= res.
Proof.
  intros Hdt. unfold ConvergenceCheck. cbv zeta.
  destruct (Vector_sub_assign u (uOld fe)) as [z1|]; [|discriminate].
  cbn [bind].
  assert (Hq : forall a, 0 <= sqrt a / dt).
  { intros a. apply Rmult_le_pos; [apply sqrt_pos|].
    apply Rlt_le, Rinv_0_lt_compat, Hdt. }
  destruct (negb (SteadyState (hyp fe))).
  - destruct (MassMat fe z1 (uOld fe)) as [w|]; [|discriminate].
    cbn [bind]. intros [= <- _]. apply Hq.
  - destruct (lumped_sum (LumpedMassMat fe) z1 (length u) 0 zero) as [r|];
      [|discriminate].
    cbn [bind]. intros [= <- _]. apply Hq.
Qed.

(** X13: In the steady-state branch, with a positive time step, the residual is
    zero exactly when the state has not changed at any index where the
    lumped mass matrix is not zero. *)
Theorem ConvergenceCheck_zero_iff (fe fe' : FE_Evolution) (dt tol res : R)
    (u : list R) :
  SteadyState (hyp fe) = true -> 0 < dt ->
  ConvergenceCheck fe dt tol u = Some (res, fe') ->
  (res = 0
   <-> forall t, (t < length u)%nat ->
         nth t (LumpedMassMat fe) 0 = 0 \/ nth t u 0 = nth t (uOld fe) 0).
Proof.
  intros Hs Hdt H.
  destruct (ConvergenceCheck_steady fe fe' dt tol res u Hs H)
    as (_ & _ & _ & ->).
  set (f := fun t : nat => _).
  assert (Hf : forall t, 0 <= f t) by (intros t; unfold f; apply Rle_0_sqr).
  pose proof (Rsum_nonneg (length u) f Hf) as Hsum.
  assert (E1 : sqrt (Rsum (length u) f) / dt = 0 <-> Rsum (length u) f = 0).
  { split.
    - intros Hq. apply sqrt_eq_0; [exact Hsum|].
      assert (Hm : sqrt (Rsum (length u) f) = sqrt (Rsum (length u) f) / dt * dt)
        by (field; lra).
      rewrite Hm, Hq. ring.
    - intros ->. rewrite sqrt_0. unfold Rdiv. ring. }
  rewrite E1, (Rsum_zero_iff (length u) f Hf).
  split; intros Hall t Ht; specialize (Hall t Ht); unfold f in *.
  - destruct (Req_dec (nth t (LumpedMassMat fe) 0) 0) as [E|N];
      [left; exact E|right].
    assert (Hp : nth t (LumpedMassMat fe) 0
                 * (nth t u 0 - nth t (uOld fe) 0) = 0) by nra.
    apply Rmult_integral in Hp. destruct Hp; [contradiction|lra].
  - destruct Hall as [E|E]; rewrite E; ring.
Qed.

(** X14: In the steady-state branch a second check of the same state, after a
    first one that returned, returns the residual zero. *)
Theorem ConvergenceCheck_twice (fe fe' : FE_Evolution)
    (dt tol res dt2 tol2 : R) (u : list R) :
  SteadyState (hyp fe) = true -> dt2 <> 0 ->
  ConvergenceCheck fe dt tol u = Some (res, fe') ->
  exists fe'', ConvergenceCheck fe' dt2 tol2 u = Some (0, fe'')
               /\ uOld fe'' = u.
Proof.
  intros Hs Hdt H.
  destruct (ConvergenceCheck_steady fe fe' dt tol res u Hs H)
    as (_ & HL & -> & _).
  assert (Hc : checkable (set_z_uOld fe (map2 Rminus u (uOld fe)) u) u = true).
  { unfold checkable, Vector_sub_assign. cbn [uOld set_z_uOld].
    rewrite Nat.eqb_refl. cbn [hyp set_z_uOld]. rewrite Hs. cbn [negb].
    cbn [LumpedMassMat]. apply Nat.leb_le.
    destruct u as [|a u]; [simpl; lia|]. apply HL. simpl. lia. }
  destruct (ConvergenceCheck_defined _ dt2 tol2 u Hc) as (r2 & fe2 & E2).
  exists fe2.
  destruct (ConvergenceCheck_steady
              (set_z_uOld fe (map2 Rminus u (uOld fe)) u) fe2 dt2 tol2 r2 u
              Hs E2) as (_ & _ & Hfe & Hr).
  split.
  - rewrite E2. f_equal. f_equal. rewrite Hr. cbn [uOld set_z_uOld].
    rewrite (Rsum_ext _ _ (fun _ => 0)) by (intros; ring).
    assert (Hz : forall n, Rsum n (fun _ => 0) = 0)
      by (induction n as [|n IH]; simpl; [reflexivity|rewrite IH; ring]).
    rewrite Hz, sqrt_0. unfold Rdiv. ring.
  - rewrite Hfe. reflexivity.
Qed.

End ConvergenceCheckFurther.

Section ConvergenceCheckFurtherRuns.

Import Hypsys.
Local Open Scope R_scope.

(** The state [(1, 6)] after [(1, 2)] with the time step 1. *)
Lemma ConvergenceCheck_nonneg_witness :
  0 < 1
  /\ exists res fe',
       ConvergenceCheck (sample_fe true) 1 0 [1; 6] = Some (res, fe')
       /\ 0 <= res.
Proof.
  split; [exact Rlt_0_1|].
  eexists. eexists. split; [reflexivity|].
  eapply (ConvergenceCheck_nonneg (sample_fe true) _ 1 0 _ [1; 6] Rlt_0_1).
  reflexivity.
Defined.

Lemma ConvergenceCheck_zero_iff_witness :
  SteadyState (hyp (sample_fe (T := R) true)) = true /\ 0 < 1
  /\ exists res fe',
       ConvergenceCheck (sample_fe true) 1 0 [1; 6] = Some (res, fe')
       /\ (res = 0
           <-> forall t, (t < 2)%nat ->
                 nth t (LumpedMassMat (sample_fe true)) 0 = 0
                 \/ nth t [1; 6] 0 = nth t (uOld (sample_fe true)) 0).
Proof.
  split; [reflexivity|]. split; [exact Rlt_0_1|].
  eexists. eexists. split; [reflexivity|].
  eapply (ConvergenceCheck_zero_iff (sample_fe true) _ 1 0 _ [1; 6]
            eq_refl Rlt_0_1).
  reflexivity.
Defined.

Lemma ConvergenceCheck_twice_witness :
  SteadyState (hyp (sample_fe (T := R) true)) = true /\ 1 <> 0
  /\ exists res fe' fe'',
       ConvergenceCheck (sample_fe true) 1 0 [1; 6] = Some (res, fe')
       /\ ConvergenceCheck fe' 1 0 [1; 6] = Some (0, fe'')
       /\ uOld fe'' = [1; 6].
Proof.
  split; [reflexivity|]. split; [exact R1_neq_R0|].
  eexists. eexists.
  assert (E : ConvergenceCheck (sample_fe true) 1 0 [1; 6]
              = Some (_, _)) by reflexivity.
  destruct (ConvergenceCheck_twice (sample_fe true) _ 1 0 _ 1 0 [1; 6]
              eq_refl R1_neq_R0 E) as (fe'' & E2 & Hu).
  exists fe''. split; [exact E|]. split; [exact E2|exact Hu].
Defined.

End ConvergenceCheckFurtherRuns.

Section LaxFriedrichsFurther.

Import Hypsys.
Local Open Scope R_scope.

Lemma conformal_swap (fe : FE_Evolution) (x1 x2 normal y : list R)
    (e k i : Z) :
  conformal fe x1 x2 normal y e k i = true ->
  conformal fe x2 x1 (map Ropp normal) y e k i = true.
Proof.
  unfold conformal. rewrite length_map. intros H.
  apply andb_true_iff in H as [H Hy]. apply andb_true_iff in H as [H Hx2].
  apply andb_true_iff in H as [H Hx1]. apply andb_true_iff in H as [H Hn].
  apply andb_true_iff in H as [HF1 HF2].
  rewrite HF1, HF2, Hy, Hx2, Hx1, Hn. reflexivity.
Qed.

Lemma conformal_normal (fe : FE_Evolution) (x1 x2 normal y : list R)
    (e k i : Z) :
  conformal fe x1 x2 normal y e k i = true -> length normal = dim fe.
Proof.
  unfold conformal. intros H.
  apply andb_true_iff in H as [H _]. apply andb_true_iff in H as [H _].
  apply andb_true_iff in H as [H _]. apply andb_true_iff in H as [_ Hn].
  apply Nat.eqb_eq, Hn.
Qed.

(** X15: The flux is conservative: with the two states exchanged and the
    normal reversed the call returns the opposite flux, provided the wave
    speed of the system does not depend on the orientation of the
    normal. *)
Theorem LaxFriedrichs_conservative (fe : FE_Evolution)
    (x1 x2 normal y : list R) (e k i : Z) :
  conformal fe x1 x2 normal y e k i = true ->
  GetWaveSpeed (hyp fe) x1 (map Ropp normal) e k i
  = GetWaveSpeed (hyp fe) x1 normal e k i ->
  GetWaveSpeed (hyp fe) x2 (map Ropp normal) e k i
  = GetWaveSpeed (hyp fe) x2 normal e k i ->
  exists y12 fe12 y21 fe21,
    LaxFriedrichs fe x1 x2 normal y e k i = Some (y12, fe12)
    /\ LaxFriedrichs fe x2 x1 (map Ropp normal) y e k i = Some (y21, fe21)
    /\ forall n, (n < NumEq (hyp fe))%nat -> vec_at y21 n = - vec_at y12 n.
Proof.
  intros Hc Hw1 Hw2.
  destruct (LaxFriedrichs_value fe x1 x2 normal y e k i Hc)
    as (y12 & S12 & E12 & _ & V12).
  destruct (LaxFriedrichs_value fe x2 x1 (map Ropp normal) y e k i
              (conformal_swap fe x1 x2 normal y e k i Hc))
    as (y21 & S21 & E21 & _ & V21).
  exists y12, (set_Flux fe S12 (EvaluateFlux (hyp fe) x2 e k i)),
         y21, (set_Flux fe S21 (EvaluateFlux (hyp fe) x1 e k i)).
  split; [exact E12|]. split; [exact E21|].
  intros n Hn. rewrite (V12 n Hn), (V21 n Hn), Hw1, Hw2.
  rewrite !s_max_Rmax, (Rmax_comm (GetWaveSpeed (hyp fe) x2 normal e k i)).
  rewrite length_map.
  rewrite (Rsum_ext (length normal) _
             (fun l => (-1) * ((mat_at (EvaluateFlux (hyp fe) x1 e k i) n l
                                + mat_at (EvaluateFlux (hyp fe) x2 e k i) n l)
                               * vec_at normal l))).
  - rewrite Rsum_scale. lra.
  - intros l Hl. unfold vec_at at 1.
    rewrite (nth_map_lt _ Ropp normal 0 l Hl). fold (vec_at normal l). ring.
Qed.

(** X16: The call leaves the sum of the two fluxes in the member [Flux] and
    the flux of the second state in [FluxNbr]; the other members keep
    their values. *)
Theorem LaxFriedrichs_overwrites_Flux (fe : FE_Evolution)
    (x1 x2 normal y : list R) (e k i : Z) :
  conformal fe x1 x2 normal y e k i = true ->
  exists y' fe',
    LaxFriedrichs fe x1 x2 normal y e k i = Some (y', fe')
    /\ FluxNbr fe' = EvaluateFlux (hyp fe) x2 e k i
    /\ has_size (NumEq (hyp fe)) (dim fe) (Flux fe') = true
    /\ (forall n l, (n < NumEq (hyp fe))%nat -> (l < dim fe)%nat ->
          mat_at (Flux fe') n l
          = mat_at (EvaluateFlux (hyp fe) x1 e k i) n l
            + mat_at (EvaluateFlux (hyp fe) x2 e k i) n l)
    /\ hyp fe' = hyp fe /\ z fe' = z fe /\ uOld fe' = uOld fe.
Proof.
  intros Hc.
  destruct (LaxFriedrichs_value fe x1 x2 normal y e k i Hc)
    as (y' & S & E & _ & _).
  exists y', (set_Flux fe S (EvaluateFlux (hyp fe) x2 e k i)).
  split; [exact E|]. split; [reflexivity|].
  cbn [Flux set_Flux hyp z uOld].
  assert (HS : DenseMatrix_add_assign (EvaluateFlux (hyp fe) x1 e k i)
                 (EvaluateFlux (hyp fe) x2 e k i) = Some S).
  { unfold LaxFriedrichs in E. cbv zeta in E.
    destruct (DenseMatrix_add_assign _ _) as [S'|]; [|discriminate].
    cbn [bind] in E.
    destruct (DenseMatrix_Mult S' normal y) as [y1|]; [|discriminate].
    cbn [bind] in E.
    destruct (subtract _ x1 x2 _) as [d1|]; [|discriminate].
    cbn [bind] in E.
    destruct (Vector_add_assign y1 d1) as [y2|]; [|discriminate].
    cbn [bind] in E. injection E as _ E. rewrite E. reflexivity. }
  unfold conformal in Hc.
  apply andb_true_iff in Hc as [Hc _]. apply andb_true_iff in Hc as [Hc _].
  apply andb_true_iff in Hc as [Hc _]. apply andb_true_iff in Hc as [Hc _].
  apply andb_true_iff in Hc as [HF1 HF2].
  destruct (DenseMatrix_add_assign_ok _ _ _ _ HF1 HF2) as (S' & ES' & Hsz & Hent).
  rewrite HS in ES'. injection ES' as <-.
  split; [exact Hsz|]. split; [exact Hent|]. repeat split.
Qed.

End LaxFriedrichsFurther.

Section LaxFriedrichsFurtherRuns.

Import Hypsys.
Local Open Scope R_scope.

(** The wave speed of the sample system does not look at the normal. *)
Lemma LaxFriedrichs_conservative_witness :
  conformal (sample_fe false) [1; 2] [3; 4] [1; 0] [0; 0] 0 0 0 = true
  /\ exists y12 fe12 y21 fe21,
       LaxFriedrichs (sample_fe false) [1; 2] [3; 4] [1; 0] [0; 0] 0 0 0
       = Some (y12, fe12)
       /\ LaxFriedrichs (sample_fe false) [3; 4] [1; 2] (map Ropp [1; 0])
            [0; 0] 0 0 0 = Some (y21, fe21)
       /\ forall n, (n < 2)%nat -> vec_at y21 n = - vec_at y12 n.
Proof.
  split; [reflexivity|].
  exact (LaxFriedrichs_conservative (sample_fe false) [1; 2] [3; 4] [1; 0]
           [0; 0] 0 0 0 eq_refl eq_refl eq_refl).
Defined.

Lemma LaxFriedrichs_overwrites_Flux_witness :
  conformal (sample_fe false) [1; 2] [3; 4] [1; 0] [0; 0] 0 0 0 = true
  /\ exists y' fe',
       LaxFriedrichs (sample_fe false) [1; 2] [3; 4] [1; 0] [0; 0] 0 0 0
       = Some (y', fe')
       /\ FluxNbr fe' = [[3; 0]; [0; 4]]
       /\ mat_at (Flux fe') 0 0 = 1 + 3.
Proof.
  split; [reflexivity|].
  destruct (LaxFriedrichs_overwrites_Flux (sample_fe false) [1; 2] [3; 4]
              [1; 0] [0; 0] 0 0 0 eq_refl)
    as (y' & fe' & E & HN & _ & HF & _).
  exists y', fe'. split; [exact E|]. split; [exact HN|].
  apply (HF 0%nat 0%nat); cbn; lia.
Defined.

End LaxFriedrichsFurtherRuns.

Section Normals.

Import Hypsys.
Local Open Scope R_scope.

Lemma fold_sum_sq (v : list R) (acc : R) :
  fold_left (fun a vi => s_add a (s_mul vi vi)) v acc = acc + sum_sq v.
Proof.
  revert acc; induction v as [|a v IH]; intros acc; simpl; [ring|].
  rewrite IH. ring.
Qed.

Lemma Norml2_sum_sq (v : list R) : Norml2 v = sqrt (sum_sq v).
Proof.
  unfold Norml2. rewrite fold_sum_sq. change zero with 0.
  rewrite Rplus_0_l. reflexivity.
Qed.

Lemma sum_sq_nonneg (v : list R) : 0 <= sum_sq v.
Proof.
  induction v as [|a v IH]; simpl; [lra|].
  pose proof (Rle_0_sqr a) as Ha. unfold Rsqr in Ha. lra.
Qed.

Lemma sum_sq_scale (v : list R) (c : R) :
  sum_sq (map (fun vi => vi * c) v) = c * c * sum_sq v.
Proof. induction v as [|a v IH]; simpl; [ring|]. rewrite IH. ring. Qed.

(** Dividing a vector by its norm gives a vector of norm one. *)
Lemma Norml2_normalized (v : list R) :
  Norml2 v <> 0 -> Norml2 (Vector_div_assign v (Norml2 v)) = 1.
Proof.
  intros Hn. rewrite (Norml2_sum_sq (Vector_div_assign _ _)).
  unfold Vector_div_assign. cbn [s_mul s_div s_of_Z Scalar_R].
  rewrite sum_sq_scale.
  pose proof (sum_sq_nonneg v) as Hs.
  rewrite Norml2_sum_sq in *.
  pose proof (sqrt_pos (sum_sq v)) as Hp.
  rewrite sqrt_mult by (try exact Hs; apply Rle_0_sqr).
  rewrite sqrt_square
    by (apply Rlt_le, Rdiv_lt_0_compat; lra).
  field. exact Hn.
Qed.

Lemma Norml2_opposite (v : list R) :
  Norml2 (Vector_scale_assign v (s_of_Z (-1))) = Norml2 v.
Proof.
  rewrite !Norml2_sum_sq. unfold Vector_scale_assign.
  cbn [s_mul s_of_Z Scalar_R]. rewrite sum_sq_scale. f_equal. ring.
Qed.

(** X17: The normal stored by the constructor has length one, in any
    dimension and whichever element comes first on the face, as long as
    the normal it starts from is not zero. *)
Theorem outer_unit_normal_unit (dim_ : nat) (aux_x : R) (ortho : list R)
    (Elem1No e : Z) :
  Norml2 (if (dim_ =? 1)%nat then [2 * aux_x - 1] else ortho) <> 0 ->
  Norml2 (outer_unit_normal dim_ aux_x ortho Elem1No e) = 1.
Proof.
  unfold outer_unit_normal. cbv zeta.
  cbn [s_sub s_mul s_of_Z Scalar_R].
  set (raw := if (dim_ =? 1)%nat then [2 * aux_x - 1] else ortho).
  intros Hn.
  destruct (negb (Elem1No =? e)%Z).
  - apply Norml2_normalized. rewrite Norml2_opposite. exact Hn.
  - apply Norml2_normalized. exact Hn.
Qed.

(** X18: In one dimension the stored normal is -1 at the left end of the
    reference element and +1 at its right end when the element comes
    first on the face, and the opposite otherwise. *)
Theorem outer_unit_normal_1D (ortho : list R) (Elem1No e : Z) :
  outer_unit_normal 1 0 ortho Elem1No e
  = [if (Elem1No =? e)%Z then -1 else 1]
  /\ outer_unit_normal 1 1 ortho Elem1No e
     = [if (Elem1No =? e)%Z then 1 else -1].
Proof.
  assert (Hm : sqrt (-1 * -1 + 0) = 1)
    by (replace (-1 * -1 + 0) with (1 * 1) by ring; apply sqrt_square; lra).
  assert (Hp : sqrt (1 * 1 + 0) = 1)
    by (replace (1 * 1 + 0) with (1 * 1) by ring; apply sqrt_square; lra).
  unfold outer_unit_normal. cbv zeta. cbn [Nat.eqb].
  cbn [s_sub s_mul s_of_Z Scalar_R].
  replace (2 * 0 - 1) with (-1) by ring.
  replace (2 * 1 - 1) with 1 by ring.
  destruct (Elem1No =? e)%Z; cbn [negb]; unfold Vector_scale_assign;
    cbn [map s_mul s_of_Z Scalar_R]; rewrite !Norml2_sum_sq;
    cbn [sum_sq]; unfold Vector_div_assign;
    cbn [map s_mul s_div s_of_Z Scalar_R];
    repeat match goal with
           | |- context [sqrt ?a] =>
               replace (sqrt a) with 1
                 by (symmetry;
                     first [exact Hm | exact Hp
                           | replace a with (1 * 1) by ring;
                             apply sqrt_square; lra])
           end;
    split; f_equal; field.
Qed.

End Normals.

Section NormalsRuns.

Import Hypsys.
Local Open Scope R_scope.

(** The face normal [(3, 4)] of a face that belongs first to another
    element. *)
Lemma outer_unit_normal_unit_witness :
  Norml2 (if (2 =? 1)%nat then [2 * 0 - 1] else [3; 4]) <> 0
  /\ Norml2 (outer_unit_normal 2 0 [3; 4] 1 0) = 1.
Proof.
  assert (H : Norml2 (if (2 =? 1)%nat then [2 * 0 - 1] else [3; 4]) <> 0).
  { cbn [Nat.eqb]. rewrite Norml2_sum_sq. cbn [sum_sq].
    replace (3 * 3 + (4 * 4 + 0)) with (5 * 5) by ring.
    rewrite sqrt_square; lra. }
  split; [exact H|].
  exact (outer_unit_normal_unit 2 0 [3; 4] 1 0 H).
Defined.

End NormalsRuns.

(** ** Loops and indexed updates *)

Section Loops.

Import Hypsys.

Lemma for_loop_total (St : Type) (P : nat -> St -> Prop)
    (body : nat -> St -> option St) (count start : nat) (s : St) :
  P start s ->
  (forall n t, start <= n < start + count -> P n t ->
     exists t', body n t = Some t' /\ P (S n) t') ->
  exists s', for_loop count start body s = Some s' /\ P (start + count) s'.
Proof.
  revert start s; induction count as [|count IH]; intros start s H0 Hstep.
  - exists s. rewrite Nat.add_0_r. split; [reflexivity|exact H0].
  - destruct (Hstep start s ltac:(lia) H0) as (t' & Et & Ht).
    cbn [for_loop]. rewrite Et.
    destruct (IH (S start) t' Ht) as (s' & Es & Hs).
    + intros n t Hn. apply Hstep. lia.
    + exists s'. split; [exact Es|].
      replace (start + S count) with (S start + count) by lia. exact Hs.
Qed.

Lemma for_loop_inv (St : Type) (P : nat -> St -> Prop)
    (body : nat -> St -> option St) (count start : nat) (s s' : St) :
  P start s ->
  (forall n t t', start <= n < start + count -> P n t ->
     body n t = Some t' -> P (S n) t') ->
  for_loop count start body s = Some s' ->
  P (start + count) s'.
Proof.
  revert start s; induction count as [|count IH]; intros start s H0 Hstep E.
  - injection E as <-. rewrite Nat.add_0_r. exact H0.
  - cbn [for_loop] in E. destruct (body start s) as [t|] eqn:Et;
      [|discriminate].
    replace (start + S count) with (S start + count) by lia.
    apply (IH (S start) t).
    + apply (Hstep start s t); [lia|exact H0|exact Et].
    + intros n u u' Hn. apply Hstep. lia.
    + exact E.
Qed.

Lemma for_loop_ext (St : Type) (body body' : nat -> St -> option St)
    (count start : nat) (s : St) :
  (forall n t, start <= n < start + count -> body n t = body' n t) ->
  for_loop count start body s = for_loop count start body' s.
Proof.
  revert start s; induction count as [|count IH]; intros start s H;
    [reflexivity|].
  cbn [for_loop]. rewrite <- (H start s) by lia.
  destruct (body start s) as [t|]; [|reflexivity].
  apply IH. intros n u Hn. apply H. lia.
Qed.

Lemma at_int_of_nat (A : Type) (l : list A) (n : nat) :
  at_int l (Z.of_nat n) = nth_error l n.
Proof.
  unfold at_int. destruct (Z.of_nat n <? 0)%Z eqn:E.
  - apply Z.ltb_lt in E. lia.
  - rewrite Nat2Z.id. reflexivity.
Qed.

Lemma list_set_spec (A : Type) (l : list A) (n : nat) (a d : A) :
  n < length l ->
  exists l', list_set l n a = Some l'
             /\ length l' = length l
             /\ forall m, nth m l' d = if m =? n then a else nth m l d.
Proof.
  revert n; induction l as [|b l IH]; intros n Hn; [simpl in Hn; lia|].
  destruct n as [|n].
  - exists (a :: l). repeat split. intros [|m]; reflexivity.
  - destruct (IH n) as (l' & E & Hl & Hv); [simpl in Hn; lia|].
    exists (b :: l'). cbn [list_set]. rewrite E.
    split; [reflexivity|]. split; [simpl; lia|].
    intros [|m]; [reflexivity|]. cbn [nth Nat.eqb]. apply Hv.
Qed.

Lemma list_set_length (A : Type) (l l' : list A) (n : nat) (a : A) :
  list_set l n a = Some l' -> length l' = length l /\ n < length l.
Proof.
  revert n l'; induction l as [|b l IH]; intros n l' E; [discriminate|].
  destruct n as [|n].
  - injection E as <-. simpl. lia.
  - cbn [list_set] in E. destruct (list_set l n a) as [l''|] eqn:E';
      [|discriminate].
    injection E as <-. apply IH in E'. simpl. lia.
Qed.

End Loops.

Section ElemEvalProofs.

Import Hypsys.
Local Open Scope R_scope.

Lemma Vector_add_at_spec (v : list R) (n : nat) (a : R) :
  (n < length v)%nat ->
  exists v', Vector_add_at v (Z.of_nat n) a = Some v'
             /\ length v' = length v
             /\ forall m, nth m v' 0
                          = if (m =? n)%nat then nth n v 0 + a else nth m v 0.
Proof.
  intros Hn. unfold Vector_add_at.
  rewrite at_int_of_nat, (nth_error_nth' v 0 Hn). cbn [bind].
  rewrite Nat2Z.id.
  exact (list_set_spec R v n (nth n v 0 + a) 0 Hn).
Qed.

Lemma Rsum_le (m : nat) (f g : nat -> R) :
  (forall l, (l < m)%nat -> f l <= g l) -> Rsum m f <= Rsum m g.
Proof.
  induction m as [|m IH]; intros H; simpl; [lra|].
  specialize (IH ltac:(intros; apply H; lia)). specialize (H m ltac:(lia)).
  lra.
Qed.

Lemma Rsum_plus (m : nat) (f g : nat -> R) :
  Rsum m (fun l => f l + g l) = Rsum m f + Rsum m g.
Proof. induction m as [|m IH]; simpl; [ring|]. rewrite IH. ring. Qed.

Section Fixed.

Variables (fe : FE_Evolution (T := R)) (tb : Tables (T := R))
          (uElem uEval : list R) (k : Z).

Hypothesis Hsizes : ElemEval_sizes fe tb uElem uEval k = true.

Local Abbreviation term := (ElemEval_term fe tb uElem k).

Lemma ElemEval_sizes_inv :
  length uEval = NumEq (hyp fe)
  /\ (NumEq (hyp fe) * nd fe <= length uElem)%nat
  /\ (nd fe <= length (ShapeEval tb))%nat
  /\ (0 <= k)%Z
  /\ forall j, (j < nd fe)%nat ->
       (Z.to_nat k < length (nth j (ShapeEval tb) []))%nat.
Proof.
  unfold ElemEval_sizes in Hsizes.
  apply andb_true_iff in Hsizes as [H H5].
  apply andb_true_iff in H as [H H4]. apply andb_true_iff in H as [H H3].
  apply andb_true_iff in H as [H1 H2].
  apply Nat.eqb_eq in H1. apply Nat.leb_le in H2, H3. apply Z.leb_le in H4.
  repeat split; trivial.
  intros j Hj. rewrite forallb_forall in H5.
  apply Nat.ltb_lt, H5, nth_In. lia.
Qed.

(** One pass of the inner loop adds one product to entry [n]. *)
Lemma ElemEval_body_spec (n j : nat) (uE : list R) :
  (n < NumEq (hyp fe))%nat -> (j < nd fe)%nat ->
  length uE = NumEq (hyp fe) ->
  exists uE', ElemEval_body fe tb uElem k n j uE = Some uE'
              /\ length uE' = NumEq (hyp fe)
              /\ forall m, nth m uE' 0
                           = if (m =? n)%nat then nth n uE 0 + term n j
                             else nth m uE 0.
Proof.
  intros Hn Hj Hl.
  destruct ElemEval_sizes_inv as (_ & Hu & Hrows & Hk & Hcols).
  unfold ElemEval_body.
  replace (Z.of_nat n * Z.of_nat (nd fe) + Z.of_nat j)%Z
    with (Z.of_nat (n * nd fe + j)) by lia.
  assert (Hidx : (n * nd fe + j < length uElem)%nat) by nia.
  rewrite at_int_of_nat, (nth_error_nth' uElem 0 Hidx). cbn [bind].
  unfold at_int2. rewrite at_int_of_nat.
  rewrite (nth_error_nth' (ShapeEval tb) [] (Nat.lt_le_trans _ _ _ Hj Hrows)).
  cbn [bind]. unfold at_int.
  replace (k <? 0)%Z with false by (symmetry; apply Z.ltb_ge; lia).
  rewrite (nth_error_nth' _ 0 (Hcols j Hj)).
  destruct (Vector_add_at_spec uE n
              (nth (n * nd fe + j) uElem 0 * shape_at tb j k))
    as (uE' & E & Hl' & Hv); [lia|].
  exists uE'. split; [exact E|]. split; [lia|exact Hv].
Qed.

(** The inner loop adds the products of all dofs to entry [n]. *)
Lemma ElemEval_inner (n : nat) (uE : list R) :
  (n < NumEq (hyp fe))%nat -> length uE = NumEq (hyp fe) ->
  exists uE', for_loop (nd fe) 0 (ElemEval_body fe tb uElem k n) uE = Some uE'
              /\ length uE' = NumEq (hyp fe)
              /\ forall m, nth m uE' 0
                           = if (m =? n)%nat
                             then nth n uE 0 + Rsum (nd fe) (term n)
                             else nth m uE 0.
Proof.
  intros Hn Hl.
  destruct (for_loop_total (list R)
              (fun j t => length t = NumEq (hyp fe)
                          /\ forall m, nth m t 0
                                       = if (m =? n)%nat
                                         then nth n uE 0 + Rsum j (term n)
                                         else nth m uE 0)
              (ElemEval_body fe tb uElem k n) (nd fe) 0 uE)
    as (uE' & E & Hl' & Hv).
  - split; [exact Hl|]. intros m. destruct (m =? n)%nat eqn:Em.
    + apply Nat.eqb_eq in Em. subst m. simpl. ring.
    + reflexivity.
  - intros j t Hj (Hlt & Hvt).
    destruct (ElemEval_body_spec n j t Hn ltac:(lia) Hlt)
      as (t' & Et & Hlt' & Hvt').
    exists t'. split; [exact Et|]. split; [exact Hlt'|].
    intros m. rewrite Hvt'. destruct (m =? n)%nat eqn:Em.
    + rewrite (Hvt n), Nat.eqb_refl. simpl. ring.
    + rewrite Hvt, Em. reflexivity.
  - exists uE'. split; [exact E|]. split; [exact Hl'|exact Hv].
Qed.

(** Every entry of the result is the sum, over the dofs of the element,
    of the coefficient times the shape function at the point; what
    [uEval] held before is overwritten. *)
Lemma ElemEval_value :
  exists out, ElemEval fe tb uElem uEval k = Some out
              /\ length out = NumEq (hyp fe)
              /\ forall n, (n < NumEq (hyp fe))%nat ->
                           nth n out 0 = Rsum (nd fe) (term n).
Proof.
  destruct ElemEval_sizes_inv as (Hl & _).
  destruct (for_loop_total (list R)
              (fun n t => length t = NumEq (hyp fe)
                          /\ forall m, nth m t 0
                                       = if (m <? n)%nat
                                         then Rsum (nd fe) (term m)
                                         else 0)
              (fun n uE =>
                 for_loop (nd fe) 0 (ElemEval_body fe tb uElem k n) uE)
              (NumEq (hyp fe)) 0 (Vector_fill_zero uEval))
    as (out & E & Hlo & Hv).
  - unfold Vector_fill_zero. rewrite length_map. split; [exact Hl|].
    intros m. cbn [Nat.ltb Nat.leb].
    destruct (Nat.lt_ge_cases m (length uEval)) as [Hm|Hm].
    + exact (nth_map_lt R (fun _ => 0) uEval 0 m Hm).
    + apply nth_overflow. rewrite length_map. exact Hm.
  - intros n t Hn (Hlt & Hvt).
    destruct (ElemEval_inner n t ltac:(lia) Hlt) as (t' & Et & Hlt' & Hvt').
    exists t'. split; [exact Et|]. split; [exact Hlt'|].
    intros m. rewrite Hvt'. destruct (m =? n)%nat eqn:Em.
    + apply Nat.eqb_eq in Em. subst m.
      rewrite Hvt, Nat.ltb_irrefl.
      replace (n <? S n)%nat with true by (symmetry; apply Nat.ltb_lt; lia).
      ring.
    + apply Nat.eqb_neq in Em. rewrite Hvt.
      destruct (m <? n)%nat eqn:E1.
      * apply Nat.ltb_lt in E1.
        replace (m <? S n)%nat with true by (symmetry; apply Nat.ltb_lt; lia).
        reflexivity.
      * apply Nat.ltb_ge in E1.
        replace (m <? S n)%nat with false by (symmetry; apply Nat.ltb_ge; lia).
        reflexivity.
  - exists out. split; [exact E|]. split; [exact Hlo|].
    intros n Hn. rewrite Hv.
    replace (n <? 0 + NumEq (hyp fe))%nat with true
      by (symmetry; apply Nat.ltb_lt; lia).
    reflexivity.
Qed.

End Fixed.

Lemma ElemEval_sizes_uElem (fe : FE_Evolution (T := R)) (tb : Tables (T := R))
    (u v uEval : list R) (k : Z) :
  length v = length u ->
  ElemEval_sizes fe tb u uEval k = ElemEval_sizes fe tb v uEval k.
Proof. intros H. unfold ElemEval_sizes. rewrite H. reflexivity. Qed.

(** X19: [ElemEval] returns, for every equation, the sum over the dofs of the
    element of the coefficient times the shape function at the quadrature
    point.  What [uEval] held before the call has no influence. *)
Theorem ElemEval_formula (fe : FE_Evolution (T := R)) (tb : Tables (T := R))
    (uElem uEval : list R) (k : Z) :
  ElemEval_sizes fe tb uElem uEval k = true ->
  (exists out,
     ElemEval fe tb uElem uEval k = Some out
     /\ length out = NumEq (hyp fe)
     /\ forall n, (n < NumEq (hyp fe))%nat ->
          nth n out 0
          = Rsum (nd fe)
              (fun j => nth (n * nd fe + j) uElem 0 * shape_at tb j k))
  /\ forall uEval', length uEval' = length uEval ->
       ElemEval fe tb uElem uEval' k = ElemEval fe tb uElem uEval k.
Proof.
  intros Hs. split.
  - exact (ElemEval_value fe tb uElem uEval k Hs).
  - intros uEval' Hl. unfold ElemEval, Vector_fill_zero.
    replace (map (fun _ : R => zero (T := R)) uEval')
      with (map (fun _ : R => zero (T := R)) uEval); [reflexivity|].
    clear - Hl. revert uEval' Hl.
    induction uEval as [|a l IH]; intros [|b l'] Hl; try discriminate;
      [reflexivity|].
    simpl. f_equal. apply IH. simpl in Hl. lia.
Qed.

(** X20: With shape functions that are not negative and add up to one at the
    quadrature point, as those of the Bernstein basis do, the value of
    every equation lies between the smallest and the largest coefficient
    of the element. *)
Theorem ElemEval_convex (fe : FE_Evolution (T := R)) (tb : Tables (T := R))
    (uElem uEval : list R) (k : Z) (n : nat) (lo hi : R) :
  ElemEval_sizes fe tb uElem uEval k = true ->
  (n < NumEq (hyp fe))%nat ->
  (forall j, (j < nd fe)%nat -> 0 <= shape_at tb j k) ->
  Rsum (nd fe) (fun j => shape_at tb j k) = 1 ->
  (forall j, (j < nd fe)%nat -> lo <= nth (n * nd fe + j) uElem 0 <= hi) ->
  exists out, ElemEval fe tb uElem uEval k = Some out
              /\ lo <= nth n out 0 <= hi.
Proof.
  intros Hs Hn Hpos Hone Hb.
  destruct (ElemEval_value fe tb uElem uEval k Hs) as (out & E & _ & Hv).
  exists out. split; [exact E|]. rewrite (Hv n Hn).
  unfold ElemEval_term.
  assert (Hlo : Rsum (nd fe) (fun j => lo * shape_at tb j k)
                <= Rsum (nd fe) (fun j => nth (n * nd fe + j) uElem 0
                                          * shape_at tb j k)).
  { apply Rsum_le. intros j Hj.
    apply Rmult_le_compat_r; [apply Hpos, Hj|apply Hb, Hj]. }
  assert (Hhi : Rsum (nd fe) (fun j => nth (n * nd fe + j) uElem 0
                                       * shape_at tb j k)
                <= Rsum (nd fe) (fun j => hi * shape_at tb j k)).
  { apply Rsum_le. intros j Hj.
    apply Rmult_le_compat_r; [apply Hpos, Hj|apply Hb, Hj]. }
  rewrite Rsum_scale, Hone in Hlo, Hhi. lra.
Qed.

(** X21: [ElemEval] is linear in the coefficients. *)
Theorem ElemEval_linear (fe : FE_Evolution (T := R)) (tb : Tables (T := R))
    (u v uEval : list R) (k : Z) (a : R) :
  ElemEval_sizes fe tb u uEval k = true ->
  length v = length u ->
  exists ou ov ow,
    ElemEval fe tb u uEval k = Some ou
    /\ ElemEval fe tb v uEval k = Some ov
    /\ ElemEval fe tb (map2 (fun p q => a * p + q) u v) uEval k = Some ow
    /\ forall n, (n < NumEq (hyp fe))%nat ->
         nth n ow 0 = a * nth n ou 0 + nth n ov 0.
Proof.
  intros Hs Hl.
  assert (Hsv : ElemEval_sizes fe tb v uEval k = true)
    by (rewrite <- (ElemEval_sizes_uElem fe tb u v uEval k Hl); exact Hs).
  assert (Hlw : length (map2 (fun p q => a * p + q) u v) = length u)
    by (apply map2_length; lia).
  assert (Hsw : ElemEval_sizes fe tb (map2 (fun p q => a * p + q) u v)
                  uEval k = true)
    by (rewrite <- (ElemEval_sizes_uElem fe tb u _ uEval k Hlw); exact Hs).
  destruct (ElemEval_value fe tb u uEval k Hs) as (ou & Eu & _ & Hu).
  destruct (ElemEval_value fe tb v uEval k Hsv) as (ov & Ev & _ & Hv).
  destruct (ElemEval_value fe tb _ uEval k Hsw) as (ow & Ew & _ & Hw).
  exists ou, ov, ow. repeat (split; [assumption|]).
  intros n Hn. rewrite (Hu n Hn), (Hv n Hn), (Hw n Hn).
  rewrite <- Rsum_scale, <- Rsum_plus. apply Rsum_ext. intros j Hj.
  unfold ElemEval_term.
  destruct (ElemEval_sizes_inv fe tb u uEval k Hs) as (_ & Hlen & _).
  rewrite map2_nth by (try lia; nia). ring.
Qed.

End ElemEvalProofs.

Section ElemEvalRuns.

Import Hypsys.
Local Open Scope R_scope.

(** The element with the coefficients 3 and 5, at the quadrature point
    where both shape functions are one half. *)
Lemma ElemEval_formula_witness :
  ElemEval_sizes sample_fe_1D sample_tables [3; 5] [9] 1 = true
  /\ exists out,
       ElemEval sample_fe_1D sample_tables [3; 5] [9] 1 = Some out
       /\ length out = 1%nat.
Proof.
  split; [reflexivity|].
  destruct (proj1 (ElemEval_formula sample_fe_1D sample_tables [3; 5] [9] 1
                     eq_refl)) as (out & E & Hl & _).
  exists out. split; [exact E|exact Hl].
Defined.

Lemma sample_shape_nonneg :
  forall j, (j < nd (sample_fe_1D (T := R)))%nat
            -> 0 <= shape_at sample_tables j 1.
Proof.
  intros j Hj. cbn in Hj.
  destruct j as [|[|j]]; [| |lia]; unfold shape_at;
    change (Z.to_nat 1) with 1%nat; cbn; lra.
Qed.

Lemma sample_shape_sum :
  Rsum (nd (sample_fe_1D (T := R))) (fun j => shape_at sample_tables j 1) = 1.
Proof. unfold shape_at. change (Z.to_nat 1) with 1%nat. cbn. lra. Qed.

Lemma sample_coefficients_bounded :
  forall j, (j < nd (sample_fe_1D (T := R)))%nat ->
            3 <= nth (0 * nd (sample_fe_1D (T := R)) + j) [3; 5] 0 <= 5.
Proof.
  intros j Hj. cbn in Hj. destruct j as [|[|j]]; [| |lia]; cbn; lra.
Qed.

Lemma ElemEval_convex_witness :
  ElemEval_sizes sample_fe_1D sample_tables [3; 5] [9] 1 = true
  /\ exists out,
       ElemEval sample_fe_1D sample_tables [3; 5] [9] 1 = Some out
       /\ 3 <= nth 0 out 0 <= 5.
Proof.
  split; [reflexivity|].
  apply (ElemEval_convex sample_fe_1D sample_tables [3; 5] [9] 1 0 3 5).
  - reflexivity.
  - cbn. lia.
  - exact sample_shape_nonneg.
  - exact sample_shape_sum.
  - exact sample_coefficients_bounded.
Defined.

Lemma ElemEval_linear_witness :
  ElemEval_sizes sample_fe_1D sample_tables [3; 5] [9] 1 = true
  /\ length [1; 1] = length [3; 5]
  /\ exists ou ov ow,
       ElemEval sample_fe_1D sample_tables [3; 5] [9] 1 = Some ou
       /\ ElemEval sample_fe_1D sample_tables [1; 1] [9] 1 = Some ov
       /\ ElemEval sample_fe_1D sample_tables
            (map2 (fun p q => 2 * p + q) [3; 5] [1; 1]) [9] 1 = Some ow
       /\ forall n, (n < 1)%nat -> nth n ow 0 = 2 * nth n ou 0 + nth n ov 0.
Proof.
  split; [reflexivity|]. split; [reflexivity|].
  exact (ElemEval_linear sample_fe_1D sample_tables [3; 5] [1; 1] [9] 1 2
           eq_refl eq_refl).
Defined.

(** On binary64 numbers: the coefficients 3 and 5 give 3 at the first
    quadrature point and 4 at the second. *)
Example ElemEval_run_float :
  ElemEval (T := PrimFloat.float) sample_fe_1D sample_tables
    [num 3; num 5] [num 9] 0 = Some [num 3]
  /\ ElemEval (T := PrimFloat.float) sample_fe_1D sample_tables
       [num 3; num 5] [num 9] 1 = Some [num 4].
Proof. split; vm_compute; reflexivity. Qed.

End ElemEvalRuns.

Section FaceEvalProofs.

Import Hypsys.

Context {T : Type} `{ST : Scalar T}.

Variables (fe : FE_Evolution (T := T)) (dofs : DofInfo)
          (tb : Tables (T := T)).
Variables (x y1 y2 xMPI normal : list T) (e i k : Z).

(** What one pass of the inner loop that succeeds has read and done. *)
Lemma FaceEval_body_inv (xM : list T) (tb' : Tables (T := T)) (n j : nat)
    (a1 a2 b1 b2 : list T) (nb0 nb : Z) :
  FaceEval_body fe tb' x xM e i k n j (a1, a2, nb0) = Some (b1, b2, nb) ->
  at_int3 (NbrDofs tb') i (Z.of_nat j) e = Some nb
  /\ exists b uNbr xd w,
       at_int2 (BdrDofs tb') (Z.of_nat j) i = Some b
       /\ uNbr_of fe tb' x xM (Z.of_nat n) nb (DofInd_of fe (Z.of_nat n) e b)
          = Some uNbr
       /\ at_int x (DofInd_of fe (Z.of_nat n) e b) = Some xd
       /\ at_int3 (ShapeEvalFace tb') i (Z.of_nat j) k = Some w
       /\ Vector_add_at a1 (Z.of_nat n) (s_mul xd w) = Some b1
       /\ Vector_add_at a2 (Z.of_nat n) (s_mul uNbr w) = Some b2.
Proof.
  unfold FaceEval_body. cbv zeta.
  destruct (at_int3 (NbrDofs tb') i (Z.of_nat j) e) as [nb'|];
    [|discriminate]. cbn [bind].
  destruct (at_int2 (BdrDofs tb') (Z.of_nat j) i) as [b|]; [|discriminate].
  cbn [bind].
  destruct (uNbr_of fe tb' x xM (Z.of_nat n) nb' _) as [uNbr|] eqn:Eu;
    [|discriminate]. cbn [bind].
  destruct (at_int x _) as [xd|] eqn:Ex; [|discriminate]. cbn [bind].
  destruct (at_int3 (ShapeEvalFace tb') i (Z.of_nat j) k) as [w|];
    [|discriminate]. cbn [bind].
  destruct (Vector_add_at a1 _ _) as [c1|] eqn:E1; [|discriminate].
  cbn [bind].
  destruct (Vector_add_at a2 _ _) as [c2|] eqn:E2; [|discriminate].
  cbn [bind]. intros [= <- <- <-].
  split; [reflexivity|]. exists b, uNbr, xd, w. repeat split; assumption.
Qed.

Lemma Vector_add_at_length (v v' : list T) (n : Z) (a : T) :
  Vector_add_at v n a = Some v' -> length v' = length v.
Proof.
  unfold Vector_add_at. destruct (at_int v n) as [c|]; [|discriminate].
  cbn [bind]. intros H. apply list_set_length in H. tauto.
Qed.

(** X22: [y1 = y2 = 0.] makes [y1] a copy of [y2]: whatever [y1] held and
    whatever size it had, both results of the loops have the size of
    [y2]. *)
Theorem FaceEval_sizes (r1 r2 : list T) (nb : Z) :
  FaceEval_loops fe dofs tb x y1 y2 xMPI e i k = Some (r1, r2, nb) ->
  length r1 = length y2 /\ length r2 = length y2
  /\ forall y1', FaceEval_loops fe dofs tb x y1' y2 xMPI e i k
                 = Some (r1, r2, nb).
Proof.
  intros E. split; [|split; [|intros y1'; exact E]].
  - unfold FaceEval_loops in E. cbv zeta in E.
    apply (for_loop_inv _ (fun _ st => length (fst (fst st)) = length y2))
      in E; [exact E| |].
    + unfold Vector_fill_zero. apply length_map.
    + intros n t t' _ Ht Et.
      apply (for_loop_inv _
               (fun _ st => length (fst (fst st)) = length y2)) in Et;
        [exact Et|exact Ht|].
      intros j [[a1 a2] nb0] [[b1 b2] nb1] _ Ha Eb.
      apply FaceEval_body_inv in Eb as (_ & b & uN & xd & w & _ & _ & _ & _
                                        & E1 & _).
      cbn [fst] in *. rewrite (Vector_add_at_length _ _ _ _ E1). exact Ha.
  - unfold FaceEval_loops in E. cbv zeta in E.
    apply (for_loop_inv _ (fun _ st => length (snd (fst st)) = length y2))
      in E; [exact E| |].
    + unfold Vector_fill_zero. apply length_map.
    + intros n t t' _ Ht Et.
      apply (for_loop_inv _
               (fun _ st => length (snd (fst st)) = length y2)) in Et;
        [exact Et|exact Ht|].
      intros j [[a1 a2] nb0] [[b1 b2] nb1] _ Ha Eb.
      apply FaceEval_body_inv in Eb as (_ & b & uN & xd & w & _ & _ & _ & _
                                        & _ & E2).
      cbn [fst snd] in *. rewrite (Vector_add_at_length _ _ _ _ E2). exact Ha.
Qed.

(** X23: On a face all of whose neighbours are dofs of this task, neither the
    inflow values nor the data of the other tasks have any influence on
    the result. *)
Theorem FaceEval_local (inflow' xMPI' : list T) :
  (forall j nb, j < NumFaceDofs dofs ->
     at_int3 (NbrDofs tb) i (Z.of_nat j) e = Some nb ->
     (0 <= nb < xSizeMPI tb)%Z) ->
  FaceEval fe dofs (with_inflow tb inflow') x y1 y2 xMPI' normal e i k
  = FaceEval fe dofs tb x y1 y2 xMPI normal e i k.
Proof.
  intros Hloc. unfold FaceEval, FaceEval_loops. cbv zeta.
  cbn [with_inflow nbr SetBdrCond].
  rewrite (for_loop_ext _
             (fun n st =>
                for_loop (NumFaceDofs dofs) 0
                  (FaceEval_body fe (with_inflow tb inflow') x xMPI' e i k n)
                  st)
             (fun n st =>
                for_loop (NumFaceDofs dofs) 0
                  (FaceEval_body fe tb x xMPI e i k n) st));
    [reflexivity|].
  intros n st _. apply for_loop_ext. intros j [[a1 a2] nb0] Hj.
  unfold FaceEval_body. cbv zeta. cbn [with_inflow NbrDofs BdrDofs].
  destruct (at_int3 (NbrDofs tb) i (Z.of_nat j) e) as [nb|] eqn:En;
    [|reflexivity]. cbn [bind].
  destruct (at_int2 (BdrDofs tb) (Z.of_nat j) i) as [b|]; [|reflexivity].
  cbn [bind].
  assert (Hnb : (0 <= nb < xSizeMPI tb)%Z) by (apply (Hloc j); [lia|exact En]).
  unfold uNbr_of. cbn [with_inflow xSizeMPI inflow ShapeEvalFace].
  replace (nb <? 0)%Z with false by (symmetry; apply Z.ltb_ge; lia).
  replace (nb <? xSizeMPI tb)%Z with true by (symmetry; apply Z.ltb_lt; lia).
  reflexivity.
Qed.

(** X24: Where the solution is continuous across a face inside the task, the
    two one-sided values agree: if every neighbour dof carries the value of
    the dof it faces, [y1] and [y2] are equal, whatever an earlier call
    left in [nbr], as long as the loops have a dof to visit.  (With no
    equation or no face dof the loops assign nothing to [nbr], and the
    value an earlier call left in it decides on the boundary condition;
    then that value must not be negative.) *)
Theorem FaceEval_continuous (r1 r2 : list T) (nb : Z) :
  (0 < NumEq (hyp fe) /\ 0 < NumFaceDofs dofs) \/ (0 <= nbr tb)%Z ->
  (forall n j nbj b, n < NumEq (hyp fe) -> j < NumFaceDofs dofs ->
     at_int3 (NbrDofs tb) i (Z.of_nat j) e = Some nbj ->
     at_int2 (BdrDofs tb) (Z.of_nat j) i = Some b ->
     (0 <= nbj < xSizeMPI tb)%Z
     /\ at_int x (NbrInd_of fe (Z.of_nat n) nbj)
        = at_int x (DofInd_of fe (Z.of_nat n) e b)) ->
  FaceEval fe dofs tb x y1 y2 xMPI normal e i k = Some (r1, r2, nb) ->
  r1 = r2.
Proof.
  intros Hruns Hcont. unfold FaceEval.
  destruct (FaceEval_loops fe dofs tb x y1 y2 xMPI e i k)
    as [[[l1 l2] nbl]|] eqn:El; [|discriminate].
  cbn [bind].
  set (fresh := fun (n j : nat) =>
         (0 <= nbr tb)%Z \/ (0 < n /\ 0 < NumFaceDofs dofs) \/ 0 < j).
  assert (Hinner : forall n t t', n < NumEq (hyp fe) ->
            (fst (fst t) = snd (fst t) /\ (fresh n 0 -> (0 <= snd t)%Z)) ->
            for_loop (NumFaceDofs dofs) 0
              (FaceEval_body fe tb x xMPI e i k n) t = Some t' ->
            fst (fst t') = snd (fst t')
            /\ (fresh n (NumFaceDofs dofs) -> (0 <= snd t')%Z)).
  { intros n t t' Hn Ht Et.
    refine (for_loop_inv _
              (fun j st => fst (fst st) = snd (fst st)
                           /\ (fresh n j -> (0 <= snd st)%Z))
              _ _ 0 t t' Ht _ Et).
    intros j [[a1 a2] nb0] [[b1 b2] nb1] Hj (Ha & _) Eb.
    cbn [fst snd] in Ha. subst a2.
    apply FaceEval_body_inv in Eb
      as (En & b & uN & xd & w & Eb & Eu & Ex & _ & E1 & E2).
    destruct (Hcont n j nb1 b Hn ltac:(lia) En Eb) as (Hr & Hx).
    unfold uNbr_of in Eu.
    replace (nb1 <? 0)%Z with false in Eu
      by (symmetry; apply Z.ltb_ge; lia).
    replace (nb1 <? xSizeMPI tb)%Z with true in Eu
      by (symmetry; apply Z.ltb_lt; lia).
    rewrite Hx, Ex in Eu. injection Eu as <-.
    rewrite E1 in E2. injection E2 as <-.
    cbn [fst snd]. split; [reflexivity|intros _; lia]. }
  assert (Hinv : l1 = l2 /\ (fresh (NumEq (hyp fe)) 0 -> (0 <= nbl)%Z)).
  { unfold FaceEval_loops in El. cbv zeta in El.
    refine (for_loop_inv _
              (fun n st => fst (fst st) = snd (fst st)
                           /\ (fresh n 0 -> (0 <= snd st)%Z))
              _ _ 0 _ (l1, l2, nbl) _ _ El).
    - split; [reflexivity|]. unfold fresh. cbn [snd]. intros [H|[H|H]]; lia.
    - intros n t t' Hn Ht Et.
      destruct (Hinner n t t' ltac:(lia) Ht Et) as (Heq & Hnb).
      split; [exact Heq|]. intros Hf. apply Hnb.
      unfold fresh in *. destruct Hf as [H|[H|H]]; [left; exact H| |lia].
      right. right. lia. }
  destruct Hinv as (-> & Hnb).
  assert (H0 : (0 <= nbl)%Z).
  { apply Hnb. unfold fresh. destruct Hruns as [[H1 H2]|H]; [|left; exact H].
    right. left. lia. }
  replace (nbl <? 0)%Z with false by (symmetry; apply Z.ltb_ge; lia).
  intros [= <- <- _]. reflexivity.
Qed.

(** X25: Whether the boundary condition is applied is decided by the
    neighbour of the last face dof alone: after the loops [nbr] holds that
    neighbour, and [SetBdrCond] is called exactly when it is negative,
    whatever the neighbours of the other face dofs are. *)
Theorem FaceEval_boundary_by_last_dof (r1 r2 : list T) (nb : Z) :
  0 < NumEq (hyp fe) -> 0 < NumFaceDofs dofs ->
  FaceEval_loops fe dofs tb x y1 y2 xMPI e i k = Some (r1, r2, nb) ->
  at_int3 (NbrDofs tb) i (Z.of_nat (NumFaceDofs dofs - 1)) e = Some nb
  /\ FaceEval fe dofs tb x y1 y2 xMPI normal e i k
     = if (nb <? 0)%Z
       then Some (fst (SetBdrCond tb r1 r2 normal nb),
                  snd (SetBdrCond tb r1 r2 normal nb), nb)
       else Some (r1, r2, nb).
Proof.
  intros HN HF El. split.
  - unfold FaceEval_loops in El. cbv zeta in El.
    set (last := at_int3 (NbrDofs tb) i (Z.of_nat (NumFaceDofs dofs - 1)) e).
    assert (Hinner : forall n t t',
               for_loop (NumFaceDofs dofs) 0
                 (FaceEval_body fe tb x xMPI e i k n) t = Some t' ->
               last = Some (snd t')).
    { intros n t t' Et.
      assert (Hj : 0 < 0 + NumFaceDofs dofs) by lia.
      refine (for_loop_inv _
                (fun j st => 0 < j ->
                   at_int3 (NbrDofs tb) i (Z.of_nat (j - 1)) e
                   = Some (snd st)) _ _ _ _ _ _ _ Et Hj).
      - intros H. lia.
      - intros j [[a1 a2] nb0] [[b1 b2] nb1] _ _ Eb _.
        apply FaceEval_body_inv in Eb as (En & _).
        cbn [snd]. replace (S j - 1) with j by lia. exact En. }
    assert (Hn : 0 < 0 + NumEq (hyp fe)) by lia.
    refine (for_loop_inv _ (fun n st => 0 < n -> last = Some (snd st))
              _ _ _ _ _ _ _ El Hn).
    + intros H. lia.
    + intros n t t' _ _ Et _. exact (Hinner n t t' Et).
  - unfold FaceEval. rewrite El. cbn [bind].
    destruct (nb <? 0)%Z; [|reflexivity].
    destruct (SetBdrCond tb r1 r2 normal nb). reflexivity.
Qed.

End FaceEvalProofs.

Section FaceEvalRuns.

Import Hypsys.
Local Open Scope R_scope.

Lemma sample_face_local :
  forall j nb, (j < NumFaceDofs sample_dofs_1D)%nat ->
    at_int3 (NbrDofs (sample_tables (T := R))) 1 (Z.of_nat j) 0 = Some nb ->
    (0 <= nb < xSizeMPI (sample_tables (T := R)))%Z.
Proof.
  intros j nb Hj H. cbn in Hj. destruct j as [|j]; [|lia].
  cbn in H. injection H as <-. cbn. lia.
Qed.

(** Boundary 1 of element 0 faces dof 2 of element 1, a dof of this
    task. *)
Lemma FaceEval_local_witness :
  FaceEval sample_fe_1D sample_dofs_1D (with_inflow sample_tables [0; 0; 0; 0])
    [1; 2; 2; 5] [0] [0] [9; 9] [1] 0 1 0
  = FaceEval sample_fe_1D sample_dofs_1D sample_tables
      [1; 2; 2; 5] [0] [0] [8] [1] 0 1 0.
Proof.
  exact (FaceEval_local sample_fe_1D sample_dofs_1D sample_tables
           [1; 2; 2; 5] [0] [0] [8] [1] 0 1 0 [0; 0; 0; 0] [9; 9]
           sample_face_local).
Defined.

Lemma sample_face_continuous :
  forall n j nbj b,
    (n < NumEq (hyp (sample_fe_1D (T := R))))%nat ->
    (j < NumFaceDofs sample_dofs_1D)%nat ->
    at_int3 (NbrDofs (with_nbr (sample_tables (T := R)) (-1))) 1 (Z.of_nat j) 0
    = Some nbj ->
    at_int2 (BdrDofs (with_nbr (sample_tables (T := R)) (-1))) (Z.of_nat j) 1
    = Some b ->
    (0 <= nbj < xSizeMPI (with_nbr (sample_tables (T := R)) (-1)))%Z
    /\ at_int [1; 2; 2; 5] (NbrInd_of sample_fe_1D (Z.of_nat n) nbj)
       = at_int [1; 2; 2; 5] (DofInd_of sample_fe_1D (Z.of_nat n) 0 b).
Proof.
  intros n j nbj b Hn Hj H1 H2. cbn in Hn, Hj.
  destruct n as [|n]; [|lia]. destruct j as [|j]; [|lia].
  cbn in H1, H2. injection H1 as <-. injection H2 as <-.
  split; [cbn; lia|reflexivity].
Qed.

(** The solution [(1, 2 | 2, 5)] is continuous between the two elements;
    the call is made with [nbr = -1] left by an earlier call on a boundary
    face. *)
Lemma FaceEval_continuous_witness :
  exists r1 r2 nb,
    FaceEval sample_fe_1D sample_dofs_1D (with_nbr sample_tables (-1))
      [1; 2; 2; 5] [0] [0] [8] [1] 0 1 0 = Some (r1, r2, nb)
    /\ r1 = r2.
Proof.
  eexists. eexists. eexists. split; [reflexivity|].
  eapply (FaceEval_continuous sample_fe_1D sample_dofs_1D
            (with_nbr sample_tables (-1))
            [1; 2; 2; 5] [0] [0] [8] [1] 0 1 0 _ _ _
            (or_introl (conj (le_n 1) (le_n 1))) sample_face_continuous).
  reflexivity.
Defined.

(** A result vector [y1] of three entries against [y2] of one. *)
Lemma FaceEval_sizes_witness :
  exists r1 r2 nb,
    FaceEval_loops sample_fe_1D sample_dofs_1D sample_tables
      [1; 2; 2; 5] [0; 0; 0] [0] [8] 0 1 0 = Some (r1, r2, nb)
    /\ length r1 = 1%nat /\ length r2 = 1%nat.
Proof.
  eexists. eexists. eexists. split; [reflexivity|].
  destruct (FaceEval_sizes sample_fe_1D sample_dofs_1D sample_tables
              [1; 2; 2; 5] [0; 0; 0] [0] [8] 0 1 0 _ _ _ eq_refl)
    as (H1 & H2 & _).
  split; [exact H1|exact H2].
Defined.

(** The face whose first dof lies on the boundary and whose last dof
    does not. *)
Lemma FaceEval_boundary_by_last_dof_witness :
  (0 < NumEq (hyp (sample_fe_1D (T := R))))%nat
  /\ (0 < NumFaceDofs sample_dofs_mixed)%nat
  /\ exists r1 r2 nb,
       FaceEval_loops sample_fe_1D sample_dofs_mixed sample_tables_mixed
         [1; 2; 2; 5] [0] [0] [8] 0 0 0 = Some (r1, r2, nb)
       /\ at_int3 (NbrDofs (sample_tables_mixed (T := R))) 0
            (Z.of_nat (NumFaceDofs sample_dofs_mixed - 1)) 0 = Some nb.
Proof.
  split; [cbn; lia|]. split; [cbn; lia|].
  eexists. eexists. eexists. split; [reflexivity|].
  exact (proj1 (FaceEval_boundary_by_last_dof sample_fe_1D sample_dofs_mixed
                  sample_tables_mixed [1; 2; 2; 5] [0] [0] [8] [1] 0 0 0
                  _ _ _ ltac:(cbn; lia) ltac:(cbn; lia) eq_refl)).
Defined.

(** On binary64 numbers.  At the domain boundary of element 0 the outer
    value is the inflow value 7; across the face to another task it is the
    first entry of [xMPI]; on the face with a boundary dof first and an
    inner dof last the boundary condition, which would give 100, is not
    applied. *)
Example FaceEval_run_float :
  FaceEval (T := PrimFloat.float) sample_fe_1D sample_dofs_1D sample_tables
    [num 1; num 2; num 2; num 5] [num 0] [num 0] [num 8] [num 1] 0 0 0
  = Some ([num 1], [num 7], (-1)%Z)
  /\ FaceEval (T := PrimFloat.float) sample_fe_1D sample_dofs_1D sample_tables
       [num 1; num 2; num 2; num 5] [num 0] [num 0] [num 8] [num 1] 1 1 0
     = Some ([num 5], [num 8], 4%Z)
  /\ FaceEval (T := PrimFloat.float) sample_fe_1D sample_dofs_mixed
       sample_tables_mixed
       [num 1; num 2; num 2; num 5] [num 0] [num 0] [num 8] [num 1] 0 0 0
     = Some ([num 3], [num 9], 1%Z).
Proof. repeat split; vm_compute; reflexivity. Qed.

End FaceEvalRuns.

(** ** The layout of the dofs *)

Section Layout.

Import Hypsys.
Local Open Scope Z_scope.

Context {T : Type} `{ST : Scalar T}.

Variable fe : FE_Evolution (T := T).

Lemma mixed_radix_unique (d q r q' r' : Z) :
  0 <= r < d -> 0 <= r' < d -> q * d + r = q' * d + r' ->
  q = q' /\ r = r'.
Proof.
  intros Hr Hr' E.
  apply (Z.div_mod_unique d q q' r r'); [left; exact Hr|left; exact Hr'|].
  lia.
Qed.

Lemma int_wrap_id (v : Z) :
  - 2147483648 <= v <= INT_MAX -> int_wrap v = v.
Proof.
  unfold int_wrap, INT_MAX. intros Hv.
  rewrite Z.mod_small by lia. lia.
Qed.

(** X26: The index [n * ne * nd + e * nd + b] of dof [b] of element [e] for
    equation [n], computed on [int], lies within the [NumEq * ne * nd]
    entries of the solution vector when that number fits in an [int], and
    different triples then have different indices: the solution is stored
    equation by equation, element by element. *)
Theorem DofInd_layout (n e b : Z) :
  Z.of_nat (NumEq (hyp fe)) * Z.of_nat (ne fe) * Z.of_nat (nd fe) <= INT_MAX ->
  0 <= n < Z.of_nat (NumEq (hyp fe)) ->
  0 <= e < Z.of_nat (ne fe) ->
  0 <= b < Z.of_nat (nd fe) ->
  0 <= DofInd_of fe n e b
     < Z.of_nat (NumEq (hyp fe)) * Z.of_nat (ne fe) * Z.of_nat (nd fe)
  /\ forall n' e' b',
       0 <= n' < Z.of_nat (NumEq (hyp fe)) ->
       0 <= e' < Z.of_nat (ne fe) -> 0 <= b' < Z.of_nat (nd fe) ->
       DofInd_of fe n' e' b' = DofInd_of fe n e b ->
       n' = n /\ e' = e /\ b' = b.
Proof.
  intros Hfit Hn He Hb.
  set (NE := Z.of_nat (ne fe)) in *. set (ND := Z.of_nat (nd fe)) in *.
  set (NQ := Z.of_nat (NumEq (hyp fe))) in *.
  assert (Hexact : forall m c d,
            0 <= m < NQ -> 0 <= c < NE -> 0 <= d < ND ->
            DofInd_of fe m c d = (m * NE + c) * ND + d
            /\ 0 <= (m * NE + c) * ND + d < NQ * NE * ND).
  { intros m c d Hm Hc Hd.
    assert (H1 : 0 <= m * NE + c <= (NQ - 1) * NE + (NE - 1)) by nia.
    assert (H2 : 0 <= (m * NE + c) * ND + d < NQ * NE * ND) by nia.
    assert (H3 : 0 <= m * NE <= m * NE + c) by nia.
    assert (H4 : 0 <= m * NE * ND <= (m * NE + c) * ND) by nia.
    assert (H5 : 0 <= c * ND <= (m * NE + c) * ND) by nia.
    assert (H6 : m * NE <= (m * NE + c) * ND) by nia.
    split; [|exact H2].
    unfold DofInd_of, int_add, int_mul. fold NE ND.
    rewrite (int_wrap_id (m * NE)) by (unfold INT_MAX in *; lia).
    rewrite (int_wrap_id (m * NE * ND)) by (unfold INT_MAX in *; lia).
    rewrite (int_wrap_id (c * ND)) by (unfold INT_MAX in *; lia).
    rewrite (int_wrap_id (m * NE * ND + c * ND))
      by (unfold INT_MAX in *; lia).
    rewrite int_wrap_id by (unfold INT_MAX in *; lia).
    ring. }
  destruct (Hexact n e b Hn He Hb) as (E & Hr).
  split; [rewrite E; exact Hr|].
  intros n' e' b' Hn' He' Hb' E'.
  destruct (Hexact n' e' b' Hn' He' Hb') as (E1 & _).
  rewrite E, E1 in E'.
  apply mixed_radix_unique in E' as (E2 & E3); [|lia|lia].
  apply mixed_radix_unique in E2 as (E4 & E5); [|lia|lia].
  auto.
Qed.

(** X27: The place in [xMPI] of neighbour dof [nb] for equation [n],
    computed on [int]: with [nd] dofs per element and the dofs of [K]
    elements of other tasks numbered from [xSizeMPI] on, the index lies
    within the [K * nd * NumEq] entries when that number fits in an [int],
    and different pairs of equation and neighbour then have different
    indices.  The data of the other tasks is stored element by element,
    equation by equation. *)
Theorem xMPI_index_layout (size_MPI n nb K : Z) :
  K * Z.of_nat (nd fe) * Z.of_nat (NumEq (hyp fe)) <= INT_MAX ->
  0 <= n < Z.of_nat (NumEq (hyp fe)) ->
  size_MPI <= nb < size_MPI + Z.of_nat (nd fe) * K ->
  0 <= xMPI_index fe size_MPI n nb
     < K * Z.of_nat (nd fe) * Z.of_nat (NumEq (hyp fe))
  /\ forall n' nb',
       0 <= n' < Z.of_nat (NumEq (hyp fe)) ->
       size_MPI <= nb' < size_MPI + Z.of_nat (nd fe) * K ->
       xMPI_index fe size_MPI n' nb' = xMPI_index fe size_MPI n nb ->
       n' = n /\ nb' = nb.
Proof.
  intros Hfit Hn Hnb.
  set (ND := Z.of_nat (nd fe)) in *.
  set (NQ := Z.of_nat (NumEq (hyp fe))) in *.
  assert (HND : 0 < ND).
  { pose proof (Nat2Z.is_nonneg (nd fe)) as H0. fold ND in H0.
    destruct (Z.eq_dec ND 0) as [E|E]; [rewrite E in Hnb; lia|lia]. }
  assert (Hexact : forall m c,
            0 <= m < NQ -> size_MPI <= c < size_MPI + ND * K ->
            let q := (c - size_MPI) / ND in
            let r := (c - size_MPI) mod ND in
            xMPI_index fe size_MPI m c = q * (ND * NQ) + (m * ND + r)
            /\ 0 <= m * ND + r < ND * NQ
            /\ 0 <= r < ND /\ 0 <= q < K
            /\ c - size_MPI = q * ND + r).
  { intros m c Hm Hc q r.
    pose proof (Z.div_mod (c - size_MPI) ND ltac:(lia)) as Hdm.
    pose proof (Z.mod_pos_bound (c - size_MPI) ND HND) as Hr.
    pose proof (Z.div_pos (c - size_MPI) ND ltac:(lia) HND) as Hq.
    fold q in Hdm, Hq. fold r in Hdm, Hr.
    assert (HqK : q < K) by nia.
    assert (H1 : 0 <= m * ND + r <= (NQ - 1) * ND + (ND - 1)) by nia.
    assert (H2 : 0 <= q * (ND * NQ) + (m * ND + r) < K * ND * NQ) by nia.
    assert (H3 : 0 <= c - size_MPI < K * ND * NQ) by nia.
    assert (H4 : 0 <= q * ND <= c - size_MPI) by nia.
    assert (H5 : 0 <= q * ND * NQ <= q * (ND * NQ) + (m * ND + r)) by nia.
    assert (H6 : 0 <= m * ND <= m * ND + r) by nia.
    assert (H7 : q <= c - size_MPI) by nia.
    split; [|repeat split; try lia; nia].
    unfold xMPI_index, int_add, int_mul, int_sub, int_div, int_rem.
    fold ND NQ.
    rewrite (int_wrap_id (c - size_MPI)) by (unfold INT_MAX in *; lia).
    rewrite Z.quot_div_nonneg, Z.rem_mod_nonneg by lia. fold q r.
    rewrite (int_wrap_id q) by (unfold INT_MAX in *; lia).
    rewrite (int_wrap_id r) by (unfold INT_MAX in *; lia).
    rewrite (int_wrap_id (q * ND)) by (unfold INT_MAX in *; lia).
    rewrite (int_wrap_id (q * ND * NQ)) by (unfold INT_MAX in *; lia).
    rewrite (int_wrap_id (m * ND)) by (unfold INT_MAX in *; lia).
    rewrite (int_wrap_id (q * ND * NQ + m * ND))
      by (unfold INT_MAX in *; lia).
    rewrite int_wrap_id by (unfold INT_MAX in *; lia).
    ring. }
  destruct (Hexact n nb Hn Hnb) as (E & Hmr & Hr & Hq & Hd).
  split; [rewrite E; nia|].
  intros n' nb' Hn' Hnb' E'.
  destruct (Hexact n' nb' Hn' Hnb') as (E1 & Hmr' & Hr' & Hq' & Hd').
  rewrite E, E1 in E'.
  apply mixed_radix_unique in E' as (E2 & E3); [|lia|lia].
  apply mixed_radix_unique in E3 as (E4 & E5); [|lia|lia].
  split; [exact E4|]. lia.
Qed.

End Layout.

Section LayoutRuns.

Import Hypsys.

(** Dof 1 of element 1 in the sample of two elements with two dofs. *)
Lemma DofInd_layout_witness :
  (Z.of_nat (NumEq (hyp (sample_fe_1D (T := R))))
   * Z.of_nat (ne (sample_fe_1D (T := R)))
   * Z.of_nat (nd (sample_fe_1D (T := R))) <= INT_MAX)%Z
  /\ (0 <= DofInd_of (sample_fe_1D (T := R)) 0 1 1 < 1 * 2 * 2)%Z.
Proof.
  assert (H : (Z.of_nat (NumEq (hyp (sample_fe_1D (T := R))))
               * Z.of_nat (ne (sample_fe_1D (T := R)))
               * Z.of_nat (nd (sample_fe_1D (T := R))) <= INT_MAX)%Z)
    by (vm_compute; discriminate).
  split; [exact H|].
  exact (proj1 (DofInd_layout (sample_fe_1D (T := R)) 0 1 1 H
                  ltac:(cbn; lia) ltac:(cbn; lia) ltac:(cbn; lia))).
Defined.

(** Neighbour dof 7 with [xSizeMPI = 4] and the dofs of two elements of
    other tasks. *)
Lemma xMPI_index_layout_witness :
  (2 * Z.of_nat (nd (sample_fe_1D (T := R)))
   * Z.of_nat (NumEq (hyp (sample_fe_1D (T := R)))) <= INT_MAX)%Z
  /\ (0 <= xMPI_index (sample_fe_1D (T := R)) 4 0 7 < 2 * 2 * 1)%Z.
Proof.
  assert (H : (2 * Z.of_nat (nd (sample_fe_1D (T := R)))
               * Z.of_nat (NumEq (hyp (sample_fe_1D (T := R))))
               <= INT_MAX)%Z)
    by (vm_compute; discriminate).
  split; [exact H|].
  exact (proj1 (xMPI_index_layout (sample_fe_1D (T := R)) 4 0 7 2 H
                  ltac:(cbn; lia) ltac:(cbn; lia))).
Defined.

(** With 65536 elements of 65536 dofs the index of the first dof of the
    second equation does not fit in an [int]: it wraps to 0, the index of
    the first dof of the first equation. *)
Example DofInd_wraps :
  DofInd_of (sample_fe_large (T := PrimFloat.float)) 1 0 0 = 0%Z
  /\ DofInd_of (sample_fe_large (T := PrimFloat.float)) 0 0 0 = 0%Z.
Proof. split; vm_compute; reflexivity. Qed.

(** With two equations and 65536 dofs per element the place in [xMPI] of
    dof 0 of element 16384 of the other tasks does not fit in an [int]
    either. *)
Example xMPI_index_wraps :
  xMPI_index (sample_fe_large (T := PrimFloat.float)) 0 0 (16384 * 65536)
  = (- 2147483648)%Z.
Proof. vm_compute; reflexivity. Qed.

End LayoutRuns.

(** ** The exact solution of the driver *)

Section ExactSolution.

Import ExNDH1.
Local Open Scope R_scope.

Lemma derivable_sin_scaled (k1 k2 a : R) :
  derivable_pt_lim (fun t => k1 * sin t * k2) a (k1 * cos a * k2).
Proof.
  change (fun t => k1 * sin t * k2)
    with (mult_fct (mult_fct (fct_cte k1) sin) (fct_cte k2)).
  replace (k1 * cos a * k2)
    with ((0 * sin a + fct_cte k1 a * cos a) * fct_cte k2 a
          + mult_fct (fct_cte k1) sin a * 0)
    by (unfold mult_fct, fct_cte; ring).
  apply derivable_pt_lim_mult.
  - apply derivable_pt_lim_mult.
    + apply derivable_pt_lim_const.
    + apply derivable_pt_lim_sin.
  - apply derivable_pt_lim_const.
Qed.

Lemma derivable_pt_lim_eq (f g : R -> R) (a l l' : R) :
  (forall t, f t = g t) -> l = l' ->
  derivable_pt_lim g a l' -> derivable_pt_lim f a l.
Proof.
  intros Hfg -> H eps Heps. destruct (H eps Heps) as (delta & Hd).
  exists delta. intros h Hh Hlt. rewrite !Hfg. apply Hd; assumption.
Qed.

(** X28: In three dimensions [gradp_exact] writes the gradient of [p_exact]:
    each of the three entries is the partial derivative of [p_exact] with
    respect to the coordinate of that index. *)
Theorem gradp_exact_is_gradient_3D (a b c : R) (f : list R) :
  length f = 3%nat ->
  exists g0 g1 g2,
    gradp_exact 3 [a; b; c] f = Some [g0; g1; g2]
    /\ derivable_pt_lim (fun t => p_exact_value 3 [t; b; c]) a g0
    /\ derivable_pt_lim (fun t => p_exact_value 3 [a; t; c]) b g1
    /\ derivable_pt_lim (fun t => p_exact_value 3 [a; b; t]) c g2.
Proof.
  intros Hf. destruct f as [|f0 [|f1 [|f2 [|f3 f]]]]; try discriminate.
  exists (cos a * sin b * sin c), (sin a * cos b * sin c),
         (sin a * sin b * cos c).
  split; [reflexivity|]. split; [|split].
  - apply (derivable_pt_lim_eq _ (fun t => 1 * sin t * (sin b * sin c)) _ _
             (1 * cos a * (sin b * sin c)));
      [intros t; change (p_exact_value 3 [t; b; c])
                  with (sin t * sin b * sin c); ring|ring|].
    apply derivable_sin_scaled.
  - apply (derivable_pt_lim_eq _ (fun t => sin a * sin t * sin c) _ _
             (sin a * cos b * sin c));
      [intros t; change (p_exact_value 3 [a; t; c])
                  with (sin a * sin t * sin c); ring|ring|].
    apply derivable_sin_scaled.
  - apply (derivable_pt_lim_eq _ (fun t => (sin a * sin b) * sin t * 1) _ _
             ((sin a * sin b) * cos c * 1));
      [intros t; change (p_exact_value 3 [a; b; t])
                  with (sin a * sin b * sin t); ring|ring|].
    apply derivable_sin_scaled.
Qed.

(** X29: In two dimensions, on a plane mesh as on a surface mesh with three
    coordinates, [gradp_exact] writes the gradient of [p_exact]; on a
    surface mesh the third entry is zero, as [p_exact] does not depend on
    the third coordinate. *)
Theorem gradp_exact_is_gradient_2D (a b c : R) (f2 f3 : list R) :
  length f2 = 2%nat -> length f3 = 3%nat ->
  exists g0 g1,
    gradp_exact 2 [a; b] f2 = Some [g0; g1]
    /\ gradp_exact 2 [a; b; c] f3 = Some [g0; g1; 0]
    /\ derivable_pt_lim (fun t => p_exact_value 2 [t; b]) a g0
    /\ derivable_pt_lim (fun t => p_exact_value 2 [a; t]) b g1
    /\ derivable_pt_lim (fun t => p_exact_value 2 [t; b; c]) a g0
    /\ derivable_pt_lim (fun t => p_exact_value 2 [a; t; c]) b g1
    /\ derivable_pt_lim (fun t => p_exact_value 2 [a; b; t]) c 0.
Proof.
  intros H2 H3.
  destruct f2 as [|p0 [|p1 [|p2 f2]]]; try discriminate.
  destruct f3 as [|q0 [|q1 [|q2 [|q3 f3]]]]; try discriminate.
  exists (cos a * sin b), (sin a * cos b).
  split; [reflexivity|]. split; [reflexivity|].
  assert (Ha : derivable_pt_lim (fun t => 1 * sin t * sin b) a (cos a * sin b))
    by (apply (derivable_pt_lim_eq _ (fun t => 1 * sin t * sin b) _ _
                 (1 * cos a * sin b));
        [reflexivity|ring|apply derivable_sin_scaled]).
  assert (Hb : derivable_pt_lim (fun t => sin a * sin t * 1) b (sin a * cos b))
    by (apply (derivable_pt_lim_eq _ (fun t => sin a * sin t * 1) _ _
                 (sin a * cos b * 1));
        [reflexivity|ring|apply derivable_sin_scaled]).
  repeat split.
  - apply (derivable_pt_lim_eq _ (fun t => 1 * sin t * sin b) _ _
             (cos a * sin b));
      [intros t; change (p_exact_value 2 [t; b]) with (sin t * sin b); ring
      |reflexivity|exact Ha].
  - apply (derivable_pt_lim_eq _ (fun t => sin a * sin t * 1) _ _
             (sin a * cos b));
      [intros t; change (p_exact_value 2 [a; t]) with (sin a * sin t); ring
      |reflexivity|exact Hb].
  - apply (derivable_pt_lim_eq _ (fun t => 1 * sin t * sin b) _ _
             (cos a * sin b));
      [intros t; change (p_exact_value 2 [t; b; c]) with (sin t * sin b); ring
      |reflexivity|exact Ha].
  - apply (derivable_pt_lim_eq _ (fun t => sin a * sin t * 1) _ _
             (sin a * cos b));
      [intros t; change (p_exact_value 2 [a; t; c]) with (sin a * sin t); ring
      |reflexivity|exact Hb].
  - apply (derivable_pt_lim_eq _ (fct_cte (sin a * sin b)) _ _ 0);
      [intros t; reflexivity|reflexivity|].
    apply derivable_pt_lim_const.
Qed.

(** X30: In any dimension other than two and three [p_exact] is zero
    everywhere, whereas [gradp_exact] still writes the two-dimensional
    formula, which is not zero: the two functions belong together only for
    the dimensions two and three. *)
Theorem exact_solution_other_dimensions (dim_ : Z) (x f : list R) :
  dim_ <> 2%Z -> dim_ <> 3%Z ->
  p_exact dim_ x = Some 0
  /\ gradp_exact dim_ x f = gradp_exact 2 x f
  /\ gradp_exact dim_ [0; PI / 2] [0; 0] = Some [1; 0].
Proof.
  intros H2 H3.
  assert (E3 : (dim_ =? 3)%Z = false) by (apply Z.eqb_neq; exact H3).
  assert (E2 : (dim_ =? 2)%Z = false) by (apply Z.eqb_neq; exact H2).
  unfold p_exact, gradp_exact. rewrite E3, E2.
  split; [reflexivity|]. split; [reflexivity|].
  change (Some [cos 0 * sin (PI / 2); sin 0 * cos (PI / 2)] = Some [1; 0]).
  rewrite cos_0, sin_0, sin_PI2, cos_PI2.
  repeat f_equal; ring.
Qed.

End ExactSolution.

Section ExactSolutionRuns.

Import ExNDH1.
Local Open Scope R_scope.

Lemma gradp_exact_is_gradient_3D_witness :
  length [0; 0; 0] = 3%nat
  /\ exists g0 g1 g2,
       gradp_exact 3 [1; 2; 3] [0; 0; 0] = Some [g0; g1; g2]
       /\ derivable_pt_lim (fun t => p_exact_value 3 [t; 2; 3]) 1 g0.
Proof.
  split; [reflexivity|].
  destruct (gradp_exact_is_gradient_3D 1 2 3 [0; 0; 0] eq_refl)
    as (g0 & g1 & g2 & E & H0 & _).
  exists g0, g1, g2. split; [exact E|exact H0].
Defined.

Lemma gradp_exact_is_gradient_2D_witness :
  length [0; 0] = 2%nat /\ length [0; 0; 0] = 3%nat
  /\ exists g0 g1,
       gradp_exact 2 [1; 2] [0; 0] = Some [g0; g1]
       /\ gradp_exact 2 [1; 2; 3] [0; 0; 0] = Some [g0; g1; 0].
Proof.
  split; [reflexivity|]. split; [reflexivity|].
  destruct (gradp_exact_is_gradient_2D 1 2 3 [0; 0] [0; 0; 0] eq_refl eq_refl)
    as (g0 & g1 & E2 & E3 & _).
  exists g0, g1. split; [exact E2|exact E3].
Defined.

(** A mesh of dimension one. *)
Lemma exact_solution_other_dimensions_witness :
  1%Z <> 2%Z /\ 1%Z <> 3%Z
  /\ p_exact 1 [5; 6] = Some 0
  /\ gradp_exact 1 [0; PI / 2] [0; 0] = Some [1; 0].
Proof.
  assert (H2 : 1%Z <> 2%Z) by discriminate.
  assert (H3 : 1%Z <> 3%Z) by discriminate.
  split; [exact H2|]. split; [exact H3|].
  destruct (exact_solution_other_dimensions 1 [5; 6] [0; 0] H2 H3)
    as (Hp & _ & Hg).
  split; [exact Hp|exact Hg].
Defined.

End ExactSolutionRuns.

Section FileNamesRuns.

Import ExNDH1.

(** Rank 42. *)
Lemma setfill0_setw6_six_digits_witness :
  (0 <= 42 < 1000000)%Z
  /\ String.length (setfill0_setw6 42) = 6
  /\ all_digits (setfill0_setw6 42) = true.
Proof.
  split; [lia|].
  exact (setfill0_setw6_six_digits 42 ltac:(lia)).
Defined.

(** Ranks 3 and 30 of one run. *)
Lemma file_names_distinct_witness :
  (0 <= myid (sample_env true true 3))%Z
  /\ (0 <= myid (sample_env true true 30))%Z
  /\ myid (sample_env true true 3) <> myid (sample_env true true 30)
  /\ mesh_name (sample_env true true 3) <> mesh_name (sample_env true true 30)
  /\ sol_name (sample_env true true 3) <> sol_name (sample_env true true 30).
Proof.
  assert (H1 : (0 <= myid (sample_env true true 3))%Z) by (cbn; lia).
  assert (H2 : (0 <= myid (sample_env true true 30))%Z) by (cbn; lia).
  assert (H3 : myid (sample_env true true 3) <> myid (sample_env true true 30))
    by (cbn; discriminate).
  split; [exact H1|]. split; [exact H2|]. split; [exact H3|].
  exact (file_names_distinct (sample_env true true 3)
           (sample_env true true 30) H1 H2 H3).
Defined.

End FileNamesRuns.
